(** * teneva: core.stat and the demo benchmark functions

    A shallow embedding of [teneva/core/stat.py] (empirical CDF, DKW band,
    core extension by interpolation, random multi-index sampling from a
    TT-tensor) and of the Ackley, Grienwank and Alpine demo functions.

    Conventions of the embedding.
    - A float64 is a value of [float]: an exact rational or one of the IEEE
      special values (infinities, NaN).  Rounding is not modelled; signed
      zeros are not distinguished.
    - Python exceptions are values of [exn]; code that may raise returns a
      [result].  Code that also consumes the process-wide numpy random
      generator runs in the monad [M] (state = the generator).
    - Name resolution of a free variable of a function goes through the
      module globals, a [gmap string pyval].
    - Functions that need [sqrt], [ln], [exp], [cos], [sin] are embedded over
      the real numbers. *)

From Stdlib Require Import ZArith QArith Qround Qpower Reals Lia Psatz List Permutation Sorted.
From stdpp Require Import base option list gmap strings.

Local Open Scope Z_scope.

(** ** Python values, exceptions and results *)

Module Py.

Inductive exn : Type :=
  | NameError (name : string)
  | TypeError (msg : string)
  | ValueError (msg : string)
  | IndexError (msg : string)
  | ZeroDivisionError (msg : string)
  | RecursionError (msg : string).

Inductive result (A : Type) : Type :=
  | Ok (a : A)
  | Raise (e : exn).
Arguments Ok {A} a.
Arguments Raise {A} e.

Definition rbind {A B} (f : A -> result B) (r : result A) : result B :=
  match r with
  | Ok a => f a
  | Raise e => Raise e
  end.

#[export] Instance result_ret : MRet result := @Ok.
#[export] Instance result_bind : MBind result := @rbind.

(** The values a module-level name can be bound to, as far as this module
    uses them. *)
Inductive pyval : Type :=
  | PyNone
  | PyInt (z : Z)
  | PyFloat (q : Q)
  | PyModule (name : string)
  | PyFunction (name : string).

(** [LOAD_GLOBAL]: a name that is not local to the function is looked up in
    the module globals (no builtin is called [float_cf], so the builtins
    scope is left out). *)
Definition load_global (globals : gmap string pyval) (name : string) : result pyval :=
  match globals !! name with
  | Some v => Ok v
  | None => Raise (NameError name)
  end.

(** Binding of keyword arguments at a call: a keyword that is not a
    parameter of the callee (which has no [**kwargs]) is a [TypeError]. *)
Definition bind_keywords (params : list string) (keywords : list string) : result unit :=
  match List.find (fun k => negb (bool_decide (k ∈ params))) keywords with
  | Some k => Raise (TypeError ("got an unexpected keyword argument " ++ k))
  | None => Ok tt
  end.

(** [n * v] for a Python int [n]. *)
Definition int_mul (n : Z) (v : pyval) : result pyval :=
  match v with
  | PyInt k => Ok (PyInt (n * k))
  | PyFloat q => Ok (PyFloat (inject_Z n * q))
  | _ => Raise (TypeError "unsupported operand type(s) for *")
  end.

(** [operator.index(v)]: what numpy asks of a dimension or a count. *)
Definition index (v : pyval) : result Z :=
  match v with
  | PyInt k => Ok k
  | _ => Raise (TypeError "object cannot be interpreted as an integer")
  end.

(** [sys.getrecursionlimit()], the default of CPython. *)
Definition recursion_limit : nat := 1000.

End Py.
Export Py.

(** ** float64, idealised *)

Module Float.

Inductive float : Type :=
  | Fin (q : Q)
  | PInf
  | NInf
  | NaN.

Definition of_Z (z : Z) : float := Fin (inject_Z z).
Definition of_nat (n : nat) : float := of_Z (Z.of_nat n).

Definition is_nan (a : float) : bool :=
  match a with NaN => true | _ => false end.

Definition is_finite (a : float) : bool :=
  match a with Fin _ => true | _ => false end.

Definition fsign (a : float) : comparison :=
  match a with
  | Fin q => (q ?= 0)%Q
  | PInf => Gt
  | NInf => Lt
  | NaN => Eq
  end.

Definition sign_mul (c1 c2 : comparison) : comparison :=
  match c1, c2 with
  | Eq, _ | _, Eq => Eq
  | Gt, c => c
  | Lt, c => CompOpp c
  end.

(** An infinity of the given sign; the sign [Eq] stands for an invalid
    operation and gives NaN. *)
Definition inf_of_sign (c : comparison) : float :=
  match c with Gt => PInf | Lt => NInf | Eq => NaN end.

Definition fneg (a : float) : float :=
  match a with
  | Fin q => Fin (- q)
  | PInf => NInf
  | NInf => PInf
  | NaN => NaN
  end.

Definition fadd (a b : float) : float :=
  match a, b with
  | NaN, _ | _, NaN => NaN
  | Fin p, Fin q => Fin (p + q)
  | PInf, NInf | NInf, PInf => NaN
  | PInf, _ | _, PInf => PInf
  | NInf, _ | _, NInf => NInf
  end.

Definition fsub (a b : float) : float := fadd a (fneg b).

Definition fmul (a b : float) : float :=
  match a, b with
  | NaN, _ | _, NaN => NaN
  | Fin p, Fin q => Fin (p * q)
  | _, _ => inf_of_sign (sign_mul (fsign a) (fsign b))
  end.

(** numpy true division: no exception, x/0 is an infinity of the sign of x
    and 0/0 is NaN. *)
Definition fdiv (a b : float) : float :=
  match a, b with
  | NaN, _ | _, NaN => NaN
  | Fin p, Fin q => if Qeq_bool q 0 then inf_of_sign (p ?= 0)%Q else Fin (p / q)
  | Fin _, _ => Fin 0
  | _, Fin q => inf_of_sign (sign_mul (fsign a) (if Qeq_bool q 0 then Gt else (q ?= 0)%Q))
  | _, _ => NaN
  end.

(** IEEE comparisons: every comparison with NaN is false. *)
Definition fltb (a b : float) : bool :=
  match a, b with
  | NaN, _ | _, NaN => false
  | Fin p, Fin q => if Qlt_le_dec p q then true else false
  | NInf, NInf | PInf, PInf => false
  | NInf, _ | _, PInf => true
  | _, _ => false
  end.

Definition feqb (a b : float) : bool :=
  match a, b with
  | Fin p, Fin q => Qeq_bool p q
  | PInf, PInf | NInf, NInf => true
  | _, _ => false
  end.

Definition fleb (a b : float) : bool := fltb a b || feqb a b.

(** The order numpy sorts and searches with: the IEEE order, with NaN after
    everything else. *)
Definition sort_leb (a b : float) : bool :=
  match a, b with
  | _, NaN => true
  | NaN, _ => false
  | _, _ => fleb a b
  end.

(** Numeric equality as a proposition. *)
Definition feq (a b : float) : Prop := feqb a b = true.

(** *** Rounding to float64 *)

(** The operations above are exact.  Where a result depends on the last
    bit, the operations of float64 are used: the exact result rounded to
    the nearest number with 53 bits, the even one of two, with the last
    bit no smaller than 2^-1074 and an infinity from 2^1024 on. *)

(** The binary exponent of a positive rational: the [e] with
    [2^e <= q < 2^(e+1)]. *)
Definition binade (q : Q) : Z :=
  let e := Z.log2 (Qnum q) - Z.log2 (Zpos (Qden q)) in
  if Qle_bool (2 ^ e) q then e else e - 1.

(** The integer nearest to [x], the even one of two. *)
Definition nearest_even (x : Q) : Z :=
  let f := Qfloor x in
  match (x - inject_Z f ?= 1 # 2)%Q with
  | Lt => f
  | Gt => f + 1
  | Eq => if Z.even f then f else f + 1
  end.

Definition round64_pos (q : Q) : float :=
  let s := Z.max (binade q - 52) (-1074) in
  let m := nearest_even (q * 2 ^ (- s)) in
  let v := (inject_Z m * 2 ^ s)%Q in
  if Qle_bool (2 ^ 1024) v then PInf else Fin v.

Definition round64 (q : Q) : float :=
  match (q ?= 0)%Q with
  | Eq => Fin 0
  | Gt => round64_pos q
  | Lt => fneg (round64_pos (- q))
  end.

Definition round (a : float) : float :=
  match a with Fin q => round64 q | _ => a end.

(** The unit roundoff of float64, 2^-53: the largest relative error of a
    rounding that neither underflows nor overflows. *)
Definition unit_roundoff : Q := 1 # 9007199254740992.

Definition add64 (a b : float) : float := round (fadd a b).
Definition sub64 (a b : float) : float := round (fsub a b).
Definition mul64 (a b : float) : float := round (fmul a b).
Definition div64 (a b : float) : float := round (fdiv a b).

(** A Python int as a float64. *)
Definition of_Z64 (z : Z) : float := round64 (inject_Z z).
Definition of_nat64 (n : nat) : float := of_Z64 (Z.of_nat n).

End Float.
Export Float.

(** ** The part of numpy that [core.stat] uses on one-dimensional arrays *)

Module Np.

Abbreviation vec := (list float).

(** [a[i]] for a Python integer [i]: a negative index counts from the end. *)
Definition getitem {A} (a : list A) (i : Z) : result A :=
  let n := Z.of_nat (length a) in
  let j := if i <? 0 then i + n else i in
  if (j <? 0) || (n <=? j) then Raise (IndexError "index out of bounds")
  else match a !! Z.to_nat j with
       | Some v => Ok v
       | None => Raise (IndexError "index out of bounds")
       end.

Fixpoint insert_sorted (a : float) (l : vec) : vec :=
  match l with
  | [] => [a]
  | b :: l' => if sort_leb a b then a :: l else b :: insert_sorted a l'
  end.

(** [x.sort()]: ascending, NaN last. *)
Definition sort (l : vec) : vec := foldr insert_sorted [] l.

(** [np.searchsorted(a, v, 'right')] on an ascending array: the index of
    the first element that is greater than [v], i.e. the number of leading
    elements [<= v]. *)
Fixpoint searchsorted_right (a : vec) (v : float) : nat :=
  match a with
  | [] => O
  | b :: a' => if sort_leb b v then S (searchsorted_right a' v) else O
  end.

(** [np.linspace(start, stop, num)] with the end point included, in
    exact arithmetic; [linspace64] below rounds as float64 does. *)
Definition linspace (start stop : float) (num : nat) : vec :=
  match num with
  | O => []
  | S O => [start]
  | S k =>
      let step := fdiv (fsub stop start) (of_nat k) in
      map (fun i => fadd (fmul (of_nat i) step) start) (seq 0 k) ++ [stop]
  end.

(** [np.linspace(start, stop, num)] in float64, operation by operation as
    numpy computes it: [delta = stop - start], [y = arange(0, num)],
    [step = delta / div] for [div = num - 1], then [y = y * step] (or
    [(y / div) * delta] when the step is 0, and [y * delta] when there is
    no step), [y += start], and [y[-1] = stop] when [num > 1]. *)
Definition linspace64 (start stop : float) (num : nat) : vec :=
  let div := (Z.of_nat num - 1)%Z in
  let delta := sub64 stop start in
  let y := map of_nat64 (seq 0 num) in
  let y :=
    if (0 <? div)%Z then
      let step := div64 delta (of_Z64 div) in
      if feqb step (Fin 0)
      then map (fun v => mul64 (div64 v (of_Z64 div)) delta) y
      else map (fun v => mul64 v step) y
    else map (fun v => mul64 v delta) y in
  let y := map (fun v => add64 v start) y in
  if (1 <? num)%nat then <[(num - 1)%nat := stop]> y else y.

Definition sum (l : vec) : float := foldl fadd (Fin 0) l.

Definition cumsum (l : vec) : vec :=
  match l with
  | [] => []
  | a :: l' => snd (foldl (fun '(acc, out) b => (fadd acc b, out ++ [fadd acc b])) (a, [a]) l')
  end.

(** *** Two- and three-dimensional arrays *)

(** A 2-D array: its rows, and the size of axis 1 (which the rows do not
    tell when there are none). *)
Record mat : Type := Mat { cols : nat; rows : list vec }.

(** A 3-D array as its shape and its entries by index. *)
Record arr3 : Type := Arr3 { shape3 : nat * nat * nat; at3 : nat -> nat -> nat -> float }.

(** [G[i1, :, i2]]. *)
Definition slice_mode (G : arr3) (i1 i2 : nat) : vec :=
  let '(_, n, _) := shape3 G in map (fun j => at3 G i1 j i2) (seq 0 n).

(** [Gn[i1, :, i2] = v]. *)
Definition set_slice_mode (G : arr3) (i1 i2 : nat) (v : vec) : arr3 :=
  Arr3 (shape3 G)
       (fun a j b => if Nat.eqb a i1 && Nat.eqb b i2 then default NaN (v !! j) else at3 G a j b).

Section Empty.
(** What uninitialised memory holds, by position in the buffer. *)
Variable uninit : nat -> float.

(** [np.empty([r1, n, r2])]. *)
Definition empty3 (r1 : nat) (n : pyval) (r2 : nat) : result arr3 :=
  n ← Py.index n;
  if n <? 0 then Raise (ValueError "negative dimensions are not allowed")
  else let n := Z.to_nat n in
       Ok (Arr3 (r1, n, r2) (fun a j b => uninit ((a * n + j) * r2 + b)%nat)).

(** [np.empty([k, c])]. *)
Definition empty2 (k c : nat) : mat :=
  Mat c (map (fun i => map (fun j => uninit (i * c + j)%nat) (seq 0 c)) (seq 0 k)).
End Empty.

(** [G.reshape(n, c)] of a 3-D array, in C order. *)
Definition reshape2 (G : arr3) (n c : nat) : result mat :=
  let '(r1, n0, r2) := shape3 G in
  if negb (Nat.eqb (r1 * n0 * r2) (n * c))
  then Raise (ValueError "cannot reshape array")
  else Ok (Mat c (map (fun i =>
                         map (fun j => let f := (i * c + j)%nat in
                                       at3 G (f / (n0 * r2)) ((f / r2) mod n0) (f mod r2))
                             (seq 0 c))
                      (seq 0 n))).

(** [np.sum(Q**2, axis=1)]. *)
Definition sum_sq_axis1 (Q : list vec) : vec :=
  map (fun row => sum (map (fun x => fmul x x) row)) Q.

(** [norms /= norms.sum()]. *)
Definition normalize (norms : vec) : vec :=
  let total := sum norms in map (fun x => fdiv x total) norms.

(** [np.einsum('kr,riq->kiq', Q, G)]: for each row [k] of [Q] the
    [n] by [r2] array of the sums over [r]. *)
Definition einsum_kr_riq (Q : mat) (G : arr3) : result (list (list vec)) :=
  let '(r, n, r2) := shape3 G in
  if negb (Nat.eqb (cols Q) r)
  then Raise (ValueError "operands could not be broadcast together")
  else Ok (map (fun qk =>
                  map (fun i =>
                         map (fun q => sum (map (fun a => fmul (default NaN (qk !! a)) (at3 G a i q))
                                                (seq 0 r)))
                             (seq 0 r2))
                      (seq 0 n))
               (rows Q)).

(** [im[di] = v] on a 1-D array. *)
Definition setitem (a : vec) (i : nat) (v : float) : result vec :=
  if Nat.ltb i (length a) then Ok (<[i:=v]> a) else Raise (IndexError "index out of bounds").

(** [A[ind, :]]: the rows of [A] at the given indices. *)
Fixpoint take_rows {A} (a : list A) (ind : list nat) : result (list A) :=
  match ind with
  | [] => Ok []
  | i :: ind' =>
      r ← getitem a (Z.of_nat i);
      rs ← take_rows a ind';
      Ok (r :: rs)
  end.

(** [I[:m]] for a Python integer [m]. *)
Definition slice_to {A} (a : list A) (m : Z) : list A :=
  if m <? 0 then firstn (Z.to_nat (Z.of_nat (length a) + m)) a
  else firstn (Z.to_nat m) a.

(** *** [np.interp] *)

(** [np.interp(x, xp, fp)] is a function of numpy; this is what it computes
    at one point, with its default [left = fp[0]] and [right = fp[-1]] and
    for increasing [xp].  With one sample point the query is compared with
    it and every outcome is [fp[0]], also for a NaN query.  With more
    sample points: a NaN query gives NaN; a query left of the samples
    gives [left]; right of them or on the last one, [right]; on a sample,
    its value; strictly between two samples, the line through them from
    the left one and, should that be NaN, from the right one.  The
    arithmetic is exact: neither rounding nor overflow of float64 is
    modelled. *)
Definition interp1 (xp fp : vec) (x : float) : float :=
  let lval := default NaN (head fp) in
  let rval := default NaN (last fp) in
  if Nat.eqb (length xp) 1 then
    let xp_val := default NaN (head xp) in
    let fp_val := default NaN (head fp) in
    if fltb x xp_val then lval else if fltb xp_val x then rval else fp_val
  else if is_nan x then x
  else
    let c := searchsorted_right xp x in
    if Nat.eqb c 0 then lval
    else if Nat.eqb c (length xp) then rval
    else
      let j := (c - 1)%nat in
      let xj := default NaN (xp !! j) in
      let yj := default NaN (fp !! j) in
      if feqb xj x then yj
      else
        let xj1 := default NaN (xp !! S j) in
        let yj1 := default NaN (fp !! S j) in
        let slope := fdiv (fsub yj1 yj) (fsub xj1 xj) in
        let r := fadd (fmul slope (fsub x xj)) yj in
        if is_nan r then
          let r' := fadd (fmul slope (fsub x xj1)) yj1 in
          if is_nan r' && feqb yj yj1 then yj else r'
        else r.

Definition interp (x xp fp : vec) : result vec :=
  if Nat.eqb (length xp) 0 then Raise (ValueError "array of sample points is empty")
  else if negb (Nat.eqb (length fp) (length xp))
  then Raise (ValueError "fp and xp are not of the same length")
  else Ok (map (interp1 xp fp) x).

(** *** [np.unique(I, axis=0)] *)

(** Rows are compared field by field: in the sort order for sorting, with
    the IEEE equality for telling duplicates. *)
Fixpoint row_leb (a b : vec) : bool :=
  match a, b with
  | [], _ => true
  | _ :: _, [] => false
  | x :: a', y :: b' =>
      if sort_leb x y then (if sort_leb y x then row_leb a' b' else true) else false
  end.

Fixpoint row_eqb (a b : vec) : bool :=
  match a, b with
  | [], [] => true
  | x :: a', y :: b' => feqb x y && row_eqb a' b'
  | _, _ => false
  end.

Fixpoint insert_row (a : vec) (l : list vec) : list vec :=
  match l with
  | [] => [a]
  | b :: l' => if row_leb a b then a :: l else b :: insert_row a l'
  end.

Definition sort_rows (l : list vec) : list vec := foldr insert_row [] l.

(** Keep a row when it differs from the one before it. *)
Fixpoint drop_repeats (l : list vec) : list vec :=
  match l with
  | [] => []
  | a :: l' =>
      match l' with
      | [] => [a]
      | b :: _ => if row_eqb a b then drop_repeats l' else a :: drop_repeats l'
      end
  end.

Definition unique_rows (I : mat) : mat := Mat (cols I) (drop_repeats (sort_rows (rows I))).

(** *** The random generator *)

(** The process-wide generator: the sequence of words it will produce and
    how many of them were consumed. *)
Record RandomState : Type := { words : nat -> N; used : nat }.

(** A computation that may raise and may draw from the generator. *)
Definition M (A : Type) : Type := RandomState -> result A * RandomState.

Definition mpure {A} (a : A) : M A := fun s => (Ok a, s).
Definition mraise {A} (e : exn) : M A := fun s => (Raise e, s).
Definition mlift {A} (r : result A) : M A := fun s => (r, s).
Definition mbind' {A B} (f : A -> M B) (c : M A) : M B :=
  fun s => match c s with
           | (Ok a, s') => f a s'
           | (Raise e, s') => (Raise e, s')
           end.

#[export] Instance M_ret : MRet M := @mpure.
#[export] Instance M_bind : MBind M := @mbind'.

Definition next_word : M N :=
  fun s => (Ok (words s (used s)), {| words := words s; used := S (used s) |}).

(** [random_sample()]: a double in [[0, 1)] with 53 random bits. *)
Definition random_sample : M float :=
  w ← next_word;
  mret (Fin (Z.of_N (w mod 2 ^ 53)%N # 2 ^ 53)).

Fixpoint random_samples (k : nat) : M vec :=
  match k with
  | O => mret []
  | S k' => u ← random_sample; us ← random_samples k'; mret (u :: us)
  end.

(** An integer in [[0, max]]. *)
Definition random_interval (max : nat) : M nat :=
  w ← next_word;
  mret (N.to_nat (w mod N.of_nat (S max))%N).

(** The tolerance of [choice] on the sum of the probabilities:
    [sqrt(finfo(float64).eps)]. *)
Definition choice_atol : float := Fin (1 # 2 ^ 26).

(** [np.random.choice(a, size=size, p=p, replace=True)] for an integer
    [a]. *)
Definition choice (a : nat) (size : Z) (p : vec) : M (list nat) :=
  if Nat.eqb a 0 && negb (size =? 0)
  then mraise (ValueError "a must be greater than 0 unless no samples are taken")
  else if negb (Nat.eqb (length p) a)
  then mraise (ValueError "'a' and 'p' must have same size")
  else
    let p_sum := sum p in
    if is_nan p_sum then mraise (ValueError "probabilities contain NaN")
    else if existsb (fun x => fltb x (Fin 0)) p
    then mraise (ValueError "probabilities are not non-negative")
    else if fltb choice_atol (fsub p_sum (Fin 1)) || fltb choice_atol (fsub (Fin 1) p_sum)
    then mraise (ValueError "probabilities do not sum to 1")
    else
      let cdf := cumsum p in
      let cdf := map (fun x => fdiv x (default NaN (last cdf))) cdf in
      if size <? 0 then mraise (ValueError "negative dimensions are not allowed")
      else
        us ← random_samples (Z.to_nat size);
        mret (map (searchsorted_right cdf) us).

Definition swap {A} (l : list A) (i j : nat) : list A :=
  match l !! i, l !! j with
  | Some a, Some b => <[i:=b]> (<[j:=a]> l)
  | _, _ => l
  end.

Fixpoint shuffle_from {A} (i : nat) (l : list A) : M (list A) :=
  match i with
  | O => mret l
  | S i' => j ← random_interval i; shuffle_from i' (swap l i j)
  end.

(** [np.random.shuffle(I)]: Fisher-Yates along axis 0. *)
Definition shuffle (I : mat) : M mat :=
  r ← shuffle_from (length (rows I) - 1) (rows I);
  mret (Mat (cols I) r).

End Np.

(** ** teneva.core.stat *)

Module Stat.

Import Np.

(** The names bound at the top level of the module: the two imports and the
    five functions. *)
Definition module_globals : gmap string pyval :=
  list_to_map
    [ ("np", PyModule "numpy");
      ("teneva", PyModule "teneva");
      ("cdf_confidence", PyFunction "cdf_confidence");
      ("cdf_getter", PyFunction "cdf_getter");
      ("_extend_core", PyFunction "_extend_core");
      ("sample_ind_rand", PyFunction "sample_ind_rand");
      ("_sample_core_first", PyFunction "_sample_core_first") ]%string.

(** The parameters of [sample_ind_rand], and the names its body assigns
    (its other local variables). *)
Definition sample_ind_rand_params : list string :=
  [ "Y"; "m"; "unique"; "m_fact"; "max_rep" ]%string.

Definition sample_ind_rand_assigned : list string :=
  [ "d"; "Z"; "p"; "G"; "r1"; "n"; "r2"; "nold"; "Q"; "I1"; "I"; "di"; "Qtens";
    "im"; "qm"; "qnew"; "norms"; "i_cur" ]%string.

(** [cdf_getter(x)].  [1./len(x)] is a division of Python floats and raises
    on an empty sample.  The function that is returned is given here for one
    point; numpy applies it to every point of an array.  The heights are
    computed in exact arithmetic here; [cdf_getter64] below computes them
    as float64 does. *)
Definition cdf_getter (x : vec) : result (float -> result float) :=
  let x := sort x in
  inv ← (if Nat.eqb (length x) 0
         then Raise (ZeroDivisionError "float division by zero")
         else Ok (fdiv (Fin 1) (of_nat (length x))));
  let y := linspace inv (Fin 1) (length x) in
  let x := NInf :: x in
  let y := Fin 0 :: y in
  let cdf := fun z => getitem y (Z.of_nat (searchsorted_right x z) - 1) in
  Ok cdf.

(** [cdf_getter(x)] with the heights as float64 computes them: [1./len(x)]
    and every operation of [np.linspace] round.  Sorting and searching
    compare and do not round. *)
Definition cdf_getter64 (x : vec) : result (float -> result float) :=
  let x := sort x in
  inv ← (if Nat.eqb (length x) 0
         then Raise (ZeroDivisionError "float division by zero")
         else Ok (div64 (Fin 1) (of_nat64 (length x))));
  let y := linspace64 inv (Fin 1) (length x) in
  let x := NInf :: x in
  let y := Fin 0 :: y in
  let cdf := fun z => getitem y (Z.of_nat (searchsorted_right x z) - 1) in
  Ok cdf.

Section Sampling.

(** [teneva.orthogonalize(Y, k, use_stab)], which is outside this module:
    it returns the canonical cores and a scale, or raises. *)
Variable orthogonalize : list arr3 -> Z -> bool -> result (list arr3 * Z).

(** The content of the arrays that [np.empty] returns. *)
Variable uninit : nat -> float.

(** The globals of the module when [sample_ind_rand] runs. *)
Variable globals : gmap string pyval.

(** Modelled from the spec: [teneva._range(n)], which is outside this
    module: the index set of a dimension, the ordered set 0, ..., n - 1,
    as a column that is indexed by the drawn positions. *)
Definition _range (n : nat) : mat :=
  Mat 1 (map (fun i => [of_nat i]) (seq 0 n)).

(** The query points [np.arange(n)*(nold - 1)/(n - 1)]. *)
Definition query_points (n : Z) (nold : nat) : vec :=
  map (fun j => fdiv (of_Z (Z.of_nat j * (Z.of_nat nold - 1))) (of_Z (n - 1)))
      (seq 0 (Z.to_nat n)).

(** The two loops of [_extend_core], over [i1] and over [i2]. *)
Fixpoint extend_loop_i2 (G : arr3) (x : vec) (nold i1 : nat) (i2s : list nat) (Gn : arr3)
  : result arr3 :=
  match i2s with
  | [] => Ok Gn
  | i2 :: rest =>
      v ← interp x (map of_nat (seq 0 nold)) (slice_mode G i1 i2);
      extend_loop_i2 G x nold i1 rest (set_slice_mode Gn i1 i2 v)
  end.

Fixpoint extend_loop_i1 (G : arr3) (x : vec) (nold r2 : nat) (i1s : list nat) (Gn : arr3)
  : result arr3 :=
  match i1s with
  | [] => Ok Gn
  | i1 :: rest =>
      Gn' ← extend_loop_i2 G x nold i1 (seq 0 r2) Gn;
      extend_loop_i1 G x nold r2 rest Gn'
  end.

Definition _extend_core (G : arr3) (n : pyval) : result arr3 :=
  let '(r1, nold, r2) := shape3 G in
  Gn ← empty3 uninit r1 n r2;
  n ← Py.index n;
  extend_loop_i1 G (query_points n nold) nold r2 (seq 0 r1) Gn.

Definition _sample_core_first (Q I : mat) (m : Z) : M (mat * mat) :=
  let n := length (rows Q) in
  let norms := sum_sq_axis1 (rows Q) in
  let norms := normalize norms in
  ind ← choice n m norms;
  Qs ← mlift (take_rows (rows Q) ind);
  Is ← mlift (take_rows (rows I) ind);
  mret (Mat (cols Q) Qs, Mat (cols I) Is).

(** [if float_cf is not None: n, nold = n*float_cf, n; G = _extend_core(G, n)]. *)
Definition extend_if_requested (G : arr3) (n : nat) : result (arr3 * nat) :=
  float_cf ← load_global globals "float_cf";
  match float_cf with
  | PyNone => Ok (G, n)
  | _ =>
      n' ← int_mul (Z.of_nat n) float_cf;
      G' ← _extend_core G n';
      n' ← Py.index n';
      Ok (G', Z.to_nat n')
  end.

(** [for im, qm, qnew in zip(I, Qtens, Q)]: one draw per candidate. *)
Fixpoint candidates_loop (di n : nat) (I : list vec) (Qtens : list (list vec)) (Q : list vec)
  : M (list vec * list vec) :=
  match I, Qtens, Q with
  | im :: I', qm :: Qtens', qnew :: Q' =>
      let norms := sum_sq_axis1 qm in
      let norms := normalize norms in
      i_cur ← choice n 1 norms;
      i ← mlift (getitem i_cur 0);
      im ← mlift (setitem im di (of_nat i));
      qnew ← mlift (getitem qm (Z.of_nat i));
      '(I'', Q'') ← candidates_loop di n I' Qtens' Q';
      mret (im :: I'', qnew :: Q'')
  | _, _, _ => mret (I, Q)
  end.

(** Lines 102-115: the body of the loop over the cores, for the core [G]
    of dimension [di]. *)
Definition core_body (di : nat) (G : arr3) (Q I : mat) : M (mat * mat) :=
  let '(r1, n, r2) := shape3 G in
  '(G, n) ← mlift (extend_if_requested G n);
  Qtens ← mlift (einsum_kr_riq Q G);
  let Qnew := empty2 uninit (length (rows Q)) r2 in
  '(Irows, Qrows) ← candidates_loop di n (rows I) Qtens (rows Qnew);
  mret (Mat r2 Qrows, Mat (cols I) Irows).

(** [for di, G in enumerate(Z[1:], start=1)]. *)
Fixpoint cores_loop (di : nat) (Zs : list arr3) (Q I : mat) : M (mat * mat) :=
  match Zs with
  | [] => mret (Q, I)
  | G :: Zs' =>
      '(Q', I') ← core_body di G Q I;
      cores_loop (S di) Zs' Q' I'
  end.

(** [I[:, 0] = I1[:, 0]]. *)
Fixpoint set_first_column (I I1 : list vec) : result (list vec) :=
  match I, I1 with
  | im :: I', i1 :: I1' =>
      v ← getitem i1 0;
      im ← setitem im 0 v;
      rest ← set_first_column I' I1';
      Ok (im :: rest)
  | _, _ => Ok I
  end.

(** [I / float_cf]. *)
Definition divide_by (I : mat) (float_cf : pyval) : result mat :=
  match float_cf with
  | PyInt k => Ok (Mat (cols I) (map (map (fun x => fdiv x (of_Z k))) (rows I)))
  | PyFloat q => Ok (Mat (cols I) (map (map (fun x => fdiv x (Fin q))) (rows I)))
  | _ => Raise (TypeError "unsupported operand type(s) for /")
  end.

(** Lines 84-95 of [sample_ind_rand]: from [d = len(Y)] to
    [Q = G.reshape(n, r2)].  Gives [Z], [n] and [Q]. *)
Definition first_core_matrix (Y : list arr3) : result (list arr3 * nat * mat) :=
  '(Zs, p) ← orthogonalize Y 0 true;
  G ← getitem Zs 0;
  let '(r1, n, r2) := shape3 G in
  '(G, n) ← extend_if_requested G n;
  Q ← reshape2 G n r2;
  Ok (Zs, n, Q).

(** Lines 84-99: up to [I[:, 0] = I1[:, 0]].  Gives [Z], [Q] and [I]. *)
Definition sample_first_core (Y : list arr3) (m : Z) (unique : bool) (m_fact : Z)
  : M (list arr3 * mat * mat) :=
  let d := length Y in
  '(Zs, n, Q) ← mlift (first_core_matrix Y);
  '(Q, I1) ← _sample_core_first Q (_range n) (if unique then m_fact * m else m);
  let I := empty2 uninit (length (rows I1)) d in
  Irows ← mlift (if Nat.eqb d 0 then Raise (IndexError "index 0 is out of bounds for axis 1")
                 else set_first_column (rows I) (rows I1));
  mret (Zs, Q, Mat d Irows).

(** Lines 131-139: [I = I[:m]], the check of the number of rows and the
    rescaling. *)
Definition sample_finish (m : Z) (I : mat) : M mat :=
  let I := Mat (cols I) (slice_to (rows I) m) in
  if negb (Z.of_nat (length (rows I)) =? m)
  then mraise (ValueError "Can not generate the required number of samples")
  else
    float_cf ← mlift (load_global globals "float_cf");
    match float_cf with
    | PyNone => mret I
    | _ => mlift (divide_by I float_cf)
    end.

(** [sample_ind_rand], with the depth of the Python call stack that is
    left and the keyword arguments of the call. *)
Fixpoint sample_ind_rand_call (depth : nat) (keywords : list string)
    (Y : list arr3) (m : Z) (unique : bool) (m_fact max_rep : Z) : M mat :=
  match depth with
  | O => mraise (RecursionError "maximum recursion depth exceeded")
  | S depth =>
      _ ← mlift (bind_keywords sample_ind_rand_params keywords);
      '(Zs, Q, I0) ← sample_first_core Y m unique m_fact;
      '(Q, I1) ← cores_loop 1 (tail Zs) Q I0;
      let I := I1 in
      if unique
      then
        let I := unique_rows I in
        if Z.of_nat (length (rows I)) <? m
        then
          if (max_rep <? 0) || (1000000 <? m_fact)
          then mraise (ValueError "Can not generate the required number of samples")
          else
            float_cf ← mlift (load_global globals "float_cf");
            sample_ind_rand_call depth [ "float_cf"%string ] Y m true (2 * m_fact) (max_rep - 1)
        else
          I ← shuffle I;
          sample_finish m I
      else sample_finish m I
  end.

Definition sample_ind_rand (Y : list arr3) (m : Z) (unique : bool) (m_fact max_rep : Z) : M mat :=
  sample_ind_rand_call recursion_limit [] Y m unique m_fact max_rep.

End Sampling.

End Stat.

(** ** numpy over the reals *)

Module RNp.

Local Open Scope R_scope.

(** A float that is the result of a real computation; [None] when the
    computation leaves the reals (a NaN or an infinity appears), after which
    the float is not followed any further. *)
Abbreviation rfloat := (option R).

Definition log (x : R) : rfloat := if Rlt_dec 0 x then Some (ln x) else None.
Definition sqrt (x : R) : rfloat := if Rle_dec 0 x then Some (R_sqrt.sqrt x) else None.
Definition divide (x y : R) : rfloat := if Req_dec_T y 0 then None else Some (x / y).

(** [np.clip(a, lo, hi)] is [minimum(hi, maximum(a, lo))]. *)
Definition clip (a lo hi : R) : R := Rmin hi (Rmax a lo).

Definition sum (l : list R) : R := foldl Rplus 0 l.
Definition prod (l : list R) : R := foldl Rmult 1 l.

(** A 2-D array of reals. *)
Record rmat : Type := RMat { rcols : nat; rrows : list (list R) }.

(** [a / w] for a 1-D [w] against the last axis of [a], with numpy's
    broadcasting of an axis of length one. *)
Definition broadcast_div (a w : list R) : list R :=
  if Nat.eqb (length a) (length w) then zip_with Rdiv a w
  else if Nat.eqb (length a) 1 then map (fun y => hd 0 a / y) w
  else map (fun x => x / hd 0 w) a.

Definition broadcastable (k d : nat) : bool :=
  Nat.eqb k d || Nat.eqb k 1 || Nat.eqb d 1.

End RNp.

Module StatR.

Import RNp.
Local Open Scope R_scope.

(** [cdf_confidence(x, alpha)].  [2. / alpha] is a division of Python
    floats and raises when [alpha] is zero; the operations of numpy do not
    raise. *)
Definition cdf_confidence (x : list R) (alpha : R) : result (list rfloat * list rfloat) :=
  if Req_dec_T alpha 0 then Raise (ZeroDivisionError "float division by zero")
  else
    let eps : rfloat :=
      l ← log (2 / alpha);
      q ← divide l (2 * INR (length x));
      sqrt q in
    Ok (map (fun v => e ← eps; Some (clip (v - e) 0 1)) x,
        map (fun v => e ← eps; Some (clip (v + e) 0 1)) x).

End StatR.

(** ** The demo functions *)

Module DemoFuncAckley.

Import RNp.
Local Open Scope R_scope.

Section Ackley.
(** What [__init__] stores: [self.d], [self.par_a], [self.par_b],
    [self.par_c]. *)
Variable d : nat.
Variables par_a par_b par_c : R.

Definition _calc (x : list R) : rfloat :=
  y1 ← (q ← divide (sum (map (fun v => v ^ 2) x)) (INR d); sqrt q);
  let y1 := - par_a * exp (- par_b * y1) in
  let y2 := sum (map (fun v => cos (par_c * v)) x) in
  y2 ← (q ← divide y2 (INR d); Some (- exp q));
  let y3 := par_a + exp 1 in
  Some (y1 + y2 + y3).

Definition _comp (X : rmat) : list rfloat :=
  let y1 := map (fun s => q ← divide s (INR d); sqrt q)
                (map (fun row => sum (map (fun v => v ^ 2) row)) (rrows X)) in
  let y1 := map (fun y : rfloat => y ← y; Some (- par_a * exp (- par_b * y))) y1 in
  let y2 := map (fun row => sum (map (fun v => cos (par_c * v)) row)) (rrows X) in
  let y2 := map (fun s => q ← divide s (INR d); Some (- exp q)) y2 in
  let y3 := par_a + exp 1 in
  zip_with (fun (u v : rfloat) => u ← u; v ← v; Some (u + v + y3)) y1 y2.

(** [__init__]: the arguments of [self.set_lim] and of [self.set_min]. *)
Definition lim : R * R := (- (32768 / 1000), 32768 / 1000).
Definition x_min : list R := repeat 0 d.
Definition y_min : R := 0.
End Ackley.

End DemoFuncAckley.

Module DemoFuncGrienwank.

Import RNp.
Local Open Scope R_scope.

Section Grienwank.
Variable d : nat.

(** [np.sqrt(np.arange(self.d) + 1.)]. *)
Definition weights : list R := map (fun j => R_sqrt.sqrt (INR j + 1)) (seq 0 d).

Definition _calc (x : list R) : result R :=
  let y1 := sum (map (fun v => v ^ 2) x) / 4000 in
  if negb (broadcastable (length x) d)
  then Raise (ValueError "operands could not be broadcast together")
  else
    let y2 := map cos (broadcast_div x weights) in
    let y2 := - prod y2 in
    let y3 := 1 in
    Ok (y1 + y2 + y3).

Definition _comp (X : rmat) : result (list R) :=
  let y1 := map (fun s => s / 4000) (map (fun row => sum (map (fun v => v ^ 2) row)) (rrows X)) in
  if negb (broadcastable (rcols X) d)
  then Raise (ValueError "operands could not be broadcast together")
  else
    let y2 := map (fun row => map cos (broadcast_div row weights)) (rrows X) in
    let y2 := map (fun row => - prod row) y2 in
    let y3 := 1 in
    Ok (zip_with (fun u v => u + v + y3) y1 y2).

(** [__init__]: the arguments of [self.set_lim] and of [self.set_min]. *)
Definition lim : R * R := (- 600, 600).
Definition x_min : list R := repeat 0 d.
Definition y_min : R := 0.
End Grienwank.

End DemoFuncGrienwank.

Module FuncDemoAlpine.

Import RNp.
Local Open Scope R_scope.

Section Alpine.
Variable d : nat.
Variable dy : R.

Definition _calc (x : list R) : R :=
  sum (map (fun v => Rabs (v * sin v + 1 / 10 * v)) x) + dy.

Definition _comp (X : rmat) : list R :=
  map (fun s => s + dy)
      (map (fun row => sum (map (fun v => Rabs (v * sin v + 1 / 10 * v)) row)) (rrows X)).

(** [__init__]: the arguments of [self.set_lim] and of [self.set_min]. *)
Definition lim : R * R := (- 10, 10).
Definition x_min : list R := repeat 0 d.
Definition y_min : R := 0 + dy.
End Alpine.

End FuncDemoAlpine.

Module DemoFuncRosenbrock.

Import RNp.
Local Open Scope R_scope.

(** [X.T] of a 2-D array. *)
Definition transpose (X : rmat) : rmat :=
  RMat (length (rrows X))
       (map (fun j => map (fun row => nth j row 0) (rrows X)) (seq 0 (rcols X))).

(** [scipy.optimize.rosen(x)] is a function of scipy; what it computes is
    [np.sum(100.0*(x[1:] - x[:-1]**2.0)**2.0 + (1 - x[:-1])**2.0, axis=0)].
    One term of the sum, for an entry [u] of [x[1:]] and the entry [v] of
    [x[:-1]] at the same place. *)
Definition rosen_term (u v : R) : R := 100 * (u - v ^ 2) ^ 2 + (1 - v) ^ 2.

(** [rosen] of a 1-D array. *)
Definition rosen (x : list R) : R :=
  sum (zip_with rosen_term (tail x) (removelast x)).

(** [rosen] of a 2-D array: the slices and the sum are along axis 0, so the
    result has one value for each column. *)
Definition rosen2 (x : rmat) : list R :=
  foldl (zip_with Rplus) (repeat 0 (rcols x))
        (zip_with (zip_with rosen_term) (tail (rrows x)) (removelast (rrows x))).

Section Rosenbrock.
Variable d : nat.

Definition _calc (x : list R) : R := rosen x.

Definition _comp (X : rmat) : list R := rosen2 (transpose X).

(** [__init__]: the arguments of [self.set_lim] and of [self.set_min]. *)
Definition lim : R * R := (- (2048 / 1000), 2048 / 1000).
Definition x_min : list R := repeat 1 d.
Definition y_min : R := 0.
End Rosenbrock.

End DemoFuncRosenbrock.

(** ** Data for the examples *)

Module Examples.

Import Np Stat.

(** Stands in for [teneva.orthogonalize] on tensors whose cores are taken
    as they are. *)
Definition orthogonalize_id (Y : list arr3) (k : Z) (use_stab : bool) : result (list arr3 * Z) :=
  Ok (Y, 0).

Definition uninit_nan (i : nat) : float := NaN.

(** A core of shape (1, n, 1) from its n entries. *)
Definition core_of_list (l : list Q) : arr3 :=
  Arr3 (1%nat, length l, 1%nat) (fun _ j _ => Fin (nth j l 0%Q)).

(** Two dimensions, all of whose mass is on the multi-index (0, 1). *)
Definition Y_peaked : list arr3 := [ core_of_list [1%Q; 0%Q]; core_of_list [0%Q; 1%Q; 0%Q] ].

(** Two dimensions, four multi-indices of positive mass. *)
Definition Y_small : list arr3 := [ core_of_list [1%Q; 1%Q]; core_of_list [1%Q; 2%Q; 0%Q] ].

(** The second core has no mass at all. *)
Definition Y_dead_end : list arr3 := [ core_of_list [1%Q; 1%Q]; core_of_list [0%Q; 0%Q; 0%Q] ].

(** The first core has no mass at all. *)
Definition Y_no_mass : list arr3 := [ core_of_list [0%Q; 0%Q]; core_of_list [0%Q; 1%Q; 0%Q] ].

Definition G_empty_mode : arr3 := core_of_list [].

Definition rs0 : RandomState :=
  {| words := fun i => (N.of_nat (S i) * 11400714819323198485 mod 2 ^ 64)%N; used := 0 |}.

(** The module globals after some other code has bound [float_cf]. *)
Definition globals_with (v : pyval) : gmap string pyval :=
  <["float_cf"%string := v]> module_globals.

End Examples.

(** ** Notions used in the statements *)

Module Notions.

Import Np.

Definition sort_le (a b : float) : Prop := sort_leb a b = true.

(** The number of elements of an array that are at most [v]. *)
Definition count_leb (v : float) (l : vec) : nat :=
  length (List.filter (fun b => sort_leb b v) l).

(** The number of sample points that are at most [z]. *)
Fixpoint count_le (xs : list Q) (z : Q) : nat :=
  match xs with
  | [] => O
  | x :: xs' => ((if Qle_bool x z then 1 else 0) + count_le xs' z)%nat
  end.

(** The sums of [acc] and the first elements of [l], one after the other:
    what [cumsum] appends to its first element. *)
Fixpoint running_sums (acc : float) (l : vec) : vec :=
  match l with
  | [] => []
  | b :: l' => fadd acc b :: running_sums (fadd acc b) l'
  end.

(** The height of the step function after [c] of [m] sample points. *)
Definition cdf_value (c m : nat) : Q := Z.of_nat c # Pos.of_nat m.

(** What [_extend_core] stores at position [(a, j, b)]: the interpolant
    of the slice [G[a, :, b]] at the [j]-th point of [x]. *)
Definition extended_entry (G : arr3) (x : vec) (nold a j b : nat) : float :=
  default NaN (map (interp1 (map of_nat (seq 0 nold)) (slice_mode G a b)) x !! j).

(** Linear interpolation of the samples [y 0], ..., [y (nold - 1)], taken
    at the points 0, ..., nold - 1, evaluated at [x] in [[0, nold - 1]]. *)
Definition lerp (y : nat -> Q) (nold : nat) (x : Q) : Q :=
  let k := Z.to_nat (Qfloor x) in
  if (S k <? nold)%nat
  then (y k + (x - inject_Z (Z.of_nat k)) * (y (S k) - y k))%Q
  else y (nold - 1)%nat.

(** The [j]-th of [n] evenly spaced points from 0 to nold - 1. *)
Definition even_point (n nold j : nat) : Q :=
  (inject_Z (Z.of_nat j) * (inject_Z (Z.of_nat nold) - 1) / (inject_Z (Z.of_nat n) - 1))%Q.

(** The half-width of the Dvoretzky-Kiefer-Wolfowitz band for [m] points
    at level [alpha]. *)
Definition dkw_epsilon (alpha : R) (m : nat) : R :=
  R_sqrt.sqrt (ln (2 / alpha) / (2 * INR m)).

(** A real clamped to [[0, 1]]. *)
Definition clamp01 (a : R) : R :=
  if Rlt_dec a 0 then 0%R else if Rlt_dec 1 a then 1%R else a.

(** The band around the values [x]: lower and upper bounds, pointwise. *)
Definition dkw_band (x : list R) (alpha : R) : list R * list R :=
  let eps := dkw_epsilon alpha (length x) in
  (map (fun v => clamp01 (v - eps)) x, map (fun v => clamp01 (v + eps)) x).

(** [X] is a 2-D array of shape (m, d). *)
Definition has_shape (X : RNp.rmat) (m d : nat) : Prop :=
  length (RNp.rrows X) = m /\ RNp.rcols X = d
  /\ Forall (fun row => length row = d) (RNp.rrows X).

Definition row_le (a b : vec) : Prop := row_leb a b = true.

(** Two rows differ: numpy's [!=] holds in some field, or the rows have
    different lengths. *)
Definition rows_differ (a b : vec) : Prop := row_eqb a b = false.

(** No row differs from none of the rows after it. *)
Definition distinct_rows (l : list vec) : Prop := StronglySorted rows_differ l.

(** The total mass of a candidate, the sum of the squared norms of the
    rows of its slice, is zero. *)
Definition zero_mass (qm : list vec) : Prop := feq (sum (sum_sq_axis1 qm)) (Fin 0).

(** The two kinds of [ValueError] of the sampler: the one that
    [sample_ind_rand] raises itself when it has too few samples, and the
    other ones, which come from a draw. *)
Definition insufficient_samples : exn :=
  ValueError "Can not generate the required number of samples".

Definition degenerate_distribution (e : exn) : Prop :=
  exists msg, e = ValueError msg /\ e <> insufficient_samples.

(** The state of the loop over the cores: the dimension, the cores that
    are left, [Q], [I] and the generator. *)
Record loop_state : Type :=
  LoopState { ls_di : nat; ls_cores : list arr3; ls_Q : mat; ls_I : mat; ls_rs : RandomState }.

(** One turn of the loop that does not raise. *)
Inductive core_step (uninit : nat -> float) (globals : gmap string pyval)
  : loop_state -> loop_state -> Prop :=
  | core_step_intro di G Zs Q I rs Q' I' rs' :
      Stat.core_body uninit globals di G Q I rs = (Ok (Q', I'), rs') ->
      core_step uninit globals (LoopState di (G :: Zs) Q I rs) (LoopState (S di) Zs Q' I' rs').

(** What the rest of the loop does from a state. *)
Definition run_loop (uninit : nat -> float) (globals : gmap string pyval) (s : loop_state)
  : result (mat * mat) * RandomState :=
  Stat.cores_loop uninit globals (ls_di s) (ls_cores s) (ls_Q s) (ls_I s) (ls_rs s).

End Notions.

(** * Properties *)

Import Np Stat Examples Notions.

(** ** Results and the monad *)

Lemma mbind_ok_inv {A B} (f : A -> M B) (c : M A) s b s' :
  mbind' f c s = (Ok b, s') ->
  exists a s1, c s = (Ok a, s1) /\ f a s1 = (Ok b, s').
Proof.
  unfold mbind'. destruct (c s) as [[a|e] s1]; intros H.
  - exists a, s1. split; [reflexivity | exact H].
  - discriminate H.
Qed.

Lemma mlift_ok_inv {A} (r : result A) s a s' :
  mlift r s = (Ok a, s') -> r = Ok a /\ s' = s.
Proof. unfold mlift. intros H. injection H as -> ->. split; reflexivity. Qed.

Lemma mbind_raise {A B} (f : A -> M B) (c : M A) s e s' :
  c s = (Raise e, s') -> mbind' f c s = (Raise e, s').
Proof. unfold mbind'. intros ->. reflexivity. Qed.

Lemma mbind_ok {A B} (f : A -> M B) (c : M A) s a s1 :
  c s = (Ok a, s1) -> mbind' f c s = f a s1.
Proof. unfold mbind'. intros ->. reflexivity. Qed.

(** ** The undefined name [float_cf] *)

Lemma float_cf_unbound : load_global module_globals "float_cf" = Raise (NameError "float_cf").
Proof. reflexivity. Qed.

Lemma first_core_matrix_unbound orthogonalize uninit Y :
  exists e,
    first_core_matrix orthogonalize uninit module_globals Y = Raise e
    /\ forall G Zs p, orthogonalize Y 0 true = Ok (G :: Zs, p) -> e = NameError "float_cf".
Proof.
  unfold first_core_matrix.
  destruct (orthogonalize Y 0 true) as [[Zs p]|e] eqn:Ho; cbn [mbind result_bind rbind].
  - destruct Zs as [|G Zs].
    + eexists. split; [reflexivity | intros ? ? ? [=]].
    + change (getitem (G :: Zs) 0) with (Ok G). cbn [mbind result_bind rbind].
      destruct (shape3 G) as [[r1 n] r2].
      unfold extend_if_requested. rewrite float_cf_unbound.
      eexists. split; reflexivity.
  - eexists. split; [reflexivity | intros ? ? ? [=]].
Qed.

Lemma sample_first_core_unbound orthogonalize uninit Y m unique m_fact rs :
  exists e,
    sample_first_core orthogonalize uninit module_globals Y m unique m_fact rs = (Raise e, rs)
    /\ forall G Zs p, orthogonalize Y 0 true = Ok (G :: Zs, p) -> e = NameError "float_cf".
Proof.
  destruct (first_core_matrix_unbound orthogonalize uninit Y) as (e & He & Hn).
  exists e. split; [|exact Hn].
  unfold sample_first_core, mbind, M_bind. apply mbind_raise. unfold mlift. rewrite He.
  reflexivity.
Qed.

Lemma sample_ind_rand_call_unbound orthogonalize uninit depth Y m unique m_fact max_rep rs :
  exists e,
    sample_ind_rand_call orthogonalize uninit module_globals (S depth) [] Y m unique m_fact max_rep rs
    = (Raise e, rs)
    /\ forall G Zs p, orthogonalize Y 0 true = Ok (G :: Zs, p) -> e = NameError "float_cf".
Proof.
  destruct (sample_first_core_unbound orthogonalize uninit Y m unique m_fact rs) as (e & He & Hn).
  exists e. split; [|exact Hn].
  cbn [sample_ind_rand_call].
  change (bind_keywords sample_ind_rand_params []) with (Ok tt).
  unfold mbind, M_bind. rewrite (mbind_ok _ _ rs tt rs) by reflexivity.
  apply mbind_raise. exact He.
Qed.

(** A call that passes [float_cf] as a keyword fails when its arguments are
    bound. *)
Lemma sample_ind_rand_call_keyword orthogonalize uninit globals depth Y m unique m_fact max_rep rs :
  sample_ind_rand_call orthogonalize uninit globals (S depth) [ "float_cf"%string ]
    Y m unique m_fact max_rep rs
  = (Raise (TypeError "got an unexpected keyword argument float_cf"), rs).
Proof. reflexivity. Qed.

(** C1.  [float_cf] is neither a parameter nor a local variable of
    [sample_ind_rand] and the module does not bind it; a call that passes it
    as a keyword is rejected.  So every call of [sample_ind_rand] raises
    without having drawn from the random generator, and when the
    orthogonalizer has returned at least one core, what it raises is the
    [NameError] of [float_cf], at the first test [float_cf is not None]. *)
Theorem sample_ind_rand_float_cf_undefined :
  ("float_cf"%string ∉ sample_ind_rand_params)
  /\ ("float_cf"%string ∉ sample_ind_rand_assigned)
  /\ module_globals !! "float_cf"%string = None
  /\ bind_keywords sample_ind_rand_params [ "float_cf"%string ]
     = Raise (TypeError "got an unexpected keyword argument float_cf")
  /\ (forall orthogonalize uninit Y m unique m_fact max_rep rs,
        exists e,
          sample_ind_rand orthogonalize uninit module_globals Y m unique m_fact max_rep rs
          = (Raise e, rs))
  /\ (forall orthogonalize uninit Y m unique m_fact max_rep rs G Zs p,
        orthogonalize Y 0 true = Ok (G :: Zs, p) ->
        sample_ind_rand orthogonalize uninit module_globals Y m unique m_fact max_rep rs
        = (Raise (NameError "float_cf"), rs)).
Proof.
  split; [|split; [|split; [|split; [|split]]]].
  - rewrite list_elem_of_In. simpl. intuition discriminate.
  - rewrite list_elem_of_In. simpl. intuition discriminate.
  - reflexivity.
  - reflexivity.
  - intros. unfold sample_ind_rand. change recursion_limit with (S 999).
    destruct (sample_ind_rand_call_unbound orthogonalize uninit 999 Y m unique m_fact max_rep rs)
      as (e & He & _).
    exists e. exact He.
  - intros * Ho. unfold sample_ind_rand. change recursion_limit with (S 999).
    destruct (sample_ind_rand_call_unbound orthogonalize uninit 999 Y m unique m_fact max_rep rs)
      as (e & He & Hn).
    rewrite He. rewrite (Hn _ _ _ Ho). reflexivity.
Qed.

Lemma sample_ind_rand_float_cf_undefined_witness :
  orthogonalize_id Y_small 0 true = Ok (core_of_list [1%Q; 1%Q] :: [core_of_list [1%Q; 2%Q; 0%Q]], 0)
  /\ sample_ind_rand orthogonalize_id uninit_nan module_globals Y_small 3 true 5 100 rs0
     = (Raise (NameError "float_cf"), rs0).
Proof.
  split; [reflexivity|].
  destruct sample_ind_rand_float_cf_undefined as (_ & _ & _ & _ & _ & H).
  apply (H orthogonalize_id uninit_nan Y_small 3 true 5 100 rs0
           (core_of_list [1%Q; 1%Q]) [core_of_list [1%Q; 2%Q; 0%Q]] 0).
  reflexivity.
Defined.

(** C4.  A retry never happens.  With the module as it is the call of the
    retry-exhaustion test raises the [NameError] of [float_cf]; were
    [float_cf] bound to [None], its one retry would be rejected when the
    keyword [float_cf] is bound, as every retry is.  Only a shortfall that
    meets [max_rep < 0] at once raises the error for too few samples. *)
Theorem retry_exhaustion_raises_other_errors :
  sample_ind_rand orthogonalize_id uninit_nan module_globals Y_peaked 2 true 5 0 rs0
  = (Raise (NameError "float_cf"), rs0)
  /\ fst (sample_ind_rand orthogonalize_id uninit_nan (globals_with PyNone) Y_peaked 2 true 5 0 rs0)
     = Raise (TypeError "got an unexpected keyword argument float_cf")
  /\ fst (sample_ind_rand orthogonalize_id uninit_nan (globals_with PyNone) Y_peaked 2 true 5 (-1) rs0)
     = Raise (ValueError "Can not generate the required number of samples")
  /\ (forall orthogonalize uninit globals depth Y m unique m_fact max_rep rs,
        sample_ind_rand_call orthogonalize uninit globals (S depth) [ "float_cf"%string ]
          Y m unique m_fact max_rep rs
        = (Raise (TypeError "got an unexpected keyword argument float_cf"), rs)).
Proof.
  split; [vm_compute; reflexivity|].
  split; [vm_compute; reflexivity|].
  split; [vm_compute; reflexivity|].
  intros. apply sample_ind_rand_call_keyword.
Qed.

(** ** The order of floats *)

Lemma fleb_Fin p q : fleb (Fin p) (Fin q) = Qle_bool p q.
Proof.
  unfold fleb, fltb, feqb.
  destruct (Qlt_le_dec p q) as [Hlt|Hle]; simpl.
  - symmetry. apply Qle_bool_iff. apply Qlt_le_weak. exact Hlt.
  - destruct (Qeq_bool p q) eqn:He.
    + symmetry. apply Qle_bool_iff. apply Qeq_bool_iff in He. rewrite He. apply Qle_refl.
    + destruct (Qle_bool p q) eqn:Hb; [|reflexivity].
      apply Qle_bool_iff in Hb.
      assert (p == q)%Q as Heq by (apply Qle_antisym; assumption).
      apply Qeq_bool_iff in Heq. congruence.
Qed.

Lemma sort_leb_Fin p q : sort_leb (Fin p) (Fin q) = Qle_bool p q.
Proof. apply fleb_Fin. Qed.

Lemma sort_leb_total a b : sort_leb a b = true \/ sort_leb b a = true.
Proof.
  destruct a as [p| | |], b as [q| | |]; simpl; auto.
  rewrite !fleb_Fin.
  destruct (Qlt_le_dec p q) as [H|H].
  - left. apply Qle_bool_iff. apply Qlt_le_weak. exact H.
  - right. apply Qle_bool_iff. exact H.
Qed.

Lemma sort_leb_trans a b c : sort_leb a b = true -> sort_leb b c = true -> sort_leb a c = true.
Proof.
  destruct a as [p| | |], b as [q| | |], c as [r| | |];
    try (rewrite !sort_leb_Fin, !Qle_bool_iff; apply Qle_trans);
    intros H1 H2; first [reflexivity | discriminate H1 | discriminate H2].
Qed.

(** ** Sorting and searching *)

Lemma insert_sorted_sorted a l :
  StronglySorted sort_le l -> StronglySorted sort_le (insert_sorted a l).
Proof.
  induction 1 as [|b l Hs IH Hb]; simpl.
  - repeat constructor.
  - destruct (sort_leb a b) eqn:Hab.
    + constructor; [constructor; assumption|].
      constructor; [exact Hab|].
      eapply Forall_impl; [exact Hb|]. intros x Hx. eapply sort_leb_trans; eassumption.
    + constructor; [exact IH|].
      assert (sort_le b a) as Hba by (destruct (sort_leb_total a b); [congruence|assumption]).
      clear IH Hs. induction l as [|c l IHl]; simpl.
      * constructor; [exact Hba|constructor].
      * inversion Hb; subst. destruct (sort_leb a c); constructor; auto.
Qed.

Lemma sort_sorted l : StronglySorted sort_le (sort l).
Proof.
  induction l as [|a l IH]; simpl; [constructor|]. apply insert_sorted_sorted. exact IH.
Qed.

Lemma insert_sorted_length a l : length (insert_sorted a l) = S (length l).
Proof.
  induction l as [|b l IH]; simpl; [reflexivity|].
  destruct (sort_leb a b); simpl; [reflexivity|]. rewrite IH. reflexivity.
Qed.

Lemma sort_length l : length (sort l) = length l.
Proof.
  induction l as [|a l IH]; simpl; [reflexivity|]. rewrite insert_sorted_length, IH. reflexivity.
Qed.

Lemma count_leb_insert_sorted v a l : count_leb v (insert_sorted a l) = count_leb v (a :: l).
Proof.
  unfold count_leb. induction l as [|b l IH]; simpl; [reflexivity|].
  destruct (sort_leb a b); simpl; [reflexivity|].
  destruct (sort_leb b v), (sort_leb a v) eqn:Ha; simpl in *; rewrite ?Ha in IH; simpl in IH; lia.
Qed.

Lemma count_leb_sort v l : count_leb v (sort l) = count_leb v l.
Proof.
  induction l as [|a l IH]; simpl; [reflexivity|].
  rewrite count_leb_insert_sorted. unfold count_leb in *. simpl.
  destruct (sort_leb a v); simpl; rewrite IH; reflexivity.
Qed.

Lemma searchsorted_right_count l v :
  StronglySorted sort_le l -> searchsorted_right l v = count_leb v l.
Proof.
  unfold count_leb. induction 1 as [|b l Hs IH Hb]; simpl; [reflexivity|].
  destruct (sort_leb b v) eqn:Hbv; simpl; [rewrite IH; reflexivity|].
  clear IH Hs. induction l as [|c l IHl]; simpl; [reflexivity|].
  inversion Hb as [|? ? Hbc Hb']; subst.
  destruct (sort_leb c v) eqn:Hcv.
  - pose proof (sort_leb_trans _ _ _ Hbc Hcv). congruence.
  - apply IHl. exact Hb'.
Qed.

(** ** The empirical CDF *)

Lemma inject_nat_nonzero m : (0 < m)%nat -> Qeq_bool (inject_Z (Z.of_nat m)) 0 = false.
Proof.
  intros Hm. destruct (Qeq_bool _ _) eqn:He; [|reflexivity].
  apply Qeq_bool_iff in He. unfold Qeq in He. simpl in He. lia.
Qed.

Lemma inject_nat_neq0 m : (0 < m)%nat -> ~ (inject_Z (Z.of_nat m) == 0)%Q.
Proof. intros Hm He. unfold Qeq in He. simpl in He. lia. Qed.

Lemma fdiv_Fin_nat p m :
  (0 < m)%nat -> fdiv (Fin p) (of_nat m) = Fin (p / inject_Z (Z.of_nat m)).
Proof. intros Hm. unfold fdiv, of_nat, of_Z. rewrite inject_nat_nonzero by exact Hm. reflexivity. Qed.

Lemma cdf_value_div c m :
  (0 < m)%nat -> (cdf_value c m == inject_Z (Z.of_nat c) / inject_Z (Z.of_nat m))%Q.
Proof.
  intros Hm. unfold cdf_value. rewrite Qmake_Qdiv.
  replace (Z.pos (Pos.of_nat m)) with (Z.of_nat m); [reflexivity|].
  destruct m; [lia|]. rewrite <- Pos.of_nat_succ. lia.
Qed.

Lemma inject_nat_S k : (inject_Z (Z.of_nat (S k)) == inject_Z (Z.of_nat k) + 1)%Q.
Proof. rewrite Nat2Z.inj_succ. unfold Z.succ. rewrite inject_Z_plus. reflexivity. Qed.

Lemma linspace_SS start stop k :
  linspace start stop (S (S k))
  = map (fun i => fadd (fmul (of_nat i) (fdiv (fsub stop start) (of_nat (S k)))) start)
        (seq 0 (S k)) ++ [stop].
Proof. reflexivity. Qed.

Lemma linspace_lookup m i :
  (i < m)%nat ->
  exists v, linspace (fdiv (Fin 1) (of_nat m)) (Fin 1) m !! i = Some (Fin v)
            /\ (v == cdf_value (S i) m)%Q.
Proof.
  intros Hi. assert (0 < m)%nat as Hm by lia.
  rewrite fdiv_Fin_nat by exact Hm.
  destruct m as [|[|k]]; [lia| |].
  - assert (i = 0)%nat as -> by lia. eexists. split; [reflexivity|].
    unfold cdf_value, Qeq. simpl. reflexivity.
  - rewrite linspace_SS. set (m := S (S k)) in *. set (k1 := S k).
    assert (0 < k1)%nat as Hk1 by (unfold k1; lia).
    destruct (Nat.eq_dec i k1) as [->|Hne].
    + exists 1%Q. split.
      * rewrite lookup_app_r; rewrite length_map, length_seq; [|lia].
        rewrite Nat.sub_diag. reflexivity.
      * rewrite cdf_value_div by lia. change (S k1) with m. field. apply inject_nat_neq0. lia.
    + assert (i < k1)%nat as Hi' by (unfold m, k1 in *; lia).
      rewrite lookup_app_l by (rewrite length_map, length_seq; exact Hi').
      rewrite list_lookup_fmap, lookup_seq_lt by exact Hi'.
      unfold fsub, fneg, fadd. rewrite fdiv_Fin_nat by exact Hk1.
      eexists. split; [reflexivity|].
      rewrite cdf_value_div by lia.
      pose proof (inject_nat_neq0 k1 Hk1) as Hk0.
      pose proof (inject_nat_neq0 m Hm) as Hm0.
      assert (inject_Z (Z.of_nat m) == inject_Z (Z.of_nat k1) + 1)%Q as Em
          by (unfold m; apply inject_nat_S).
      rewrite (inject_nat_S i).
      revert Hm0. rewrite Em. intros Hm0. simpl. field. split; assumption.
Qed.

Lemma heights_lookup m c :
  (0 < m)%nat -> (c <= m)%nat ->
  exists v, (Fin 0 :: linspace (fdiv (Fin 1) (of_nat m)) (Fin 1) m) !! c = Some (Fin v)
            /\ (v == cdf_value c m)%Q.
Proof.
  intros Hm Hc. destruct c as [|i].
  - exists 0%Q. split; [reflexivity|]. unfold cdf_value, Qeq. simpl. reflexivity.
  - apply (linspace_lookup m i). lia.
Qed.

Lemma getitem_nat {A} (l : list A) c v : l !! c = Some v -> getitem l (Z.of_nat c) = Ok v.
Proof.
  intros H. unfold getitem.
  pose proof (lookup_lt_Some _ _ _ H) as Hlt.
  destruct (Z.of_nat c <? 0) eqn:E1; [apply Z.ltb_lt in E1; lia|].
  destruct (Z.of_nat c <? 0) eqn:E2; [discriminate|].
  destruct (Z.of_nat (length l) <=? Z.of_nat c) eqn:E3; [apply Z.leb_le in E3; lia|].
  simpl. rewrite Nat2Z.id, H. reflexivity.
Qed.

Lemma count_leb_Fin xs z : count_leb (Fin z) (map Fin xs) = count_le xs z.
Proof.
  unfold count_leb. induction xs as [|x xs IH]; simpl; [reflexivity|].
  rewrite fleb_Fin. destruct (Qle_bool x z); simpl; rewrite IH; reflexivity.
Qed.

Lemma count_le_bound xs z : (count_le xs z <= length xs)%nat.
Proof. induction xs as [|x xs IH]; simpl; [lia|]. destruct (Qle_bool x z); lia. Qed.

Lemma count_le_mono xs z z' : (z <= z')%Q -> (count_le xs z <= count_le xs z')%nat.
Proof.
  intros Hz. induction xs as [|x xs IH]; simpl; [lia|].
  destruct (Qle_bool x z) eqn:E.
  - apply Qle_bool_iff in E. assert (Qle_bool x z' = true) as ->; [|lia].
    apply Qle_bool_iff. eapply Qle_trans; eassumption.
  - destruct (Qle_bool x z'); lia.
Qed.

Lemma count_le_below xs z : (forall x, In x xs -> (z < x)%Q) -> count_le xs z = O.
Proof.
  induction xs as [|x xs IH]; intros H; simpl; [reflexivity|].
  destruct (Qle_bool x z) eqn:E.
  - apply Qle_bool_iff in E. specialize (H x (or_introl eq_refl)).
    exfalso. eapply Qlt_irrefl. eapply Qlt_le_trans; eassumption.
  - rewrite IH; [reflexivity|]. intros y Hy. apply H. right. exact Hy.
Qed.

Lemma cdf_value_mono c c' m : (c <= c')%nat -> (cdf_value c m <= cdf_value c' m)%Q.
Proof. intros H. unfold cdf_value, Qle. simpl. nia. Qed.

Lemma cdf_getter_eval xs :
  xs <> [] ->
  exists F, cdf_getter (map Fin xs) = Ok F
            /\ forall z, exists v, F (Fin z) = Ok (Fin v)
                                   /\ (v == cdf_value (count_le xs z) (length xs))%Q.
Proof.
  intros Hne. assert (0 < length xs)%nat as Hm by (destruct xs; [congruence|simpl; lia]).
  unfold cdf_getter. rewrite sort_length, length_map.
  destruct (Nat.eqb_spec (length xs) 0) as [E|_]; [lia|].
  eexists. split; [reflexivity|]. intros z. cbv beta.
  destruct (heights_lookup (length xs) (count_le xs z) Hm (count_le_bound xs z)) as (v & Hv & Ev).
  exists v. split; [|exact Ev].
  change (searchsorted_right (NInf :: sort (map Fin xs)) (Fin z))
    with (S (searchsorted_right (sort (map Fin xs)) (Fin z))).
  rewrite searchsorted_right_count by apply sort_sorted.
  rewrite count_leb_sort, count_leb_Fin.
  replace (Z.of_nat (S (count_le xs z)) - 1) with (Z.of_nat (count_le xs z)) by lia.
  apply getitem_nat. exact Hv.
Qed.

(** ** The core extender *)

Lemma interp_ok x xp fp :
  (0 < length xp)%nat -> length fp = length xp -> interp x xp fp = Ok (map (interp1 xp fp) x).
Proof.
  intros Hx Hf. unfold interp.
  destruct (Nat.eqb_spec (length xp) 0) as [E|_]; [lia|].
  rewrite Hf, Nat.eqb_refl. reflexivity.
Qed.

Lemma slice_mode_length G r1 nold r2 i1 i2 :
  shape3 G = (r1, nold, r2) -> length (slice_mode G i1 i2) = nold.
Proof. intros H. unfold slice_mode. rewrite H, length_map, length_seq. reflexivity. Qed.

Lemma slice_mode_lookup G r1 nold r2 i1 i2 j :
  shape3 G = (r1, nold, r2) -> (j < nold)%nat ->
  slice_mode G i1 i2 !! j = Some (at3 G i1 j i2).
Proof.
  intros H Hj. unfold slice_mode. rewrite H, list_lookup_fmap, lookup_seq_lt by exact Hj.
  reflexivity.
Qed.

Lemma knots_length nold : length (map of_nat (seq 0 nold)) = nold.
Proof. rewrite length_map, length_seq. reflexivity. Qed.

Lemma existsb_eqb_seq a n : existsb (Nat.eqb a) (seq 0 n) = true <-> (a < n)%nat.
Proof.
  rewrite existsb_exists. split.
  - intros (x & Hin & E). apply Nat.eqb_eq in E. subst. apply in_seq in Hin. lia.
  - intros H. exists a. split; [apply in_seq; lia | apply Nat.eqb_refl].
Qed.

Lemma extend_loop_i2_eq G x r1 nold r2 i1 i2s Gn :
  shape3 G = (r1, nold, r2) -> (0 < nold)%nat \/ i2s = [] ->
  exists Gn', extend_loop_i2 G x nold i1 i2s Gn = Ok Gn'
    /\ shape3 Gn' = shape3 Gn
    /\ forall a j b,
         at3 Gn' a j b
         = if Nat.eqb a i1 && existsb (Nat.eqb b) i2s
           then extended_entry G x nold a j b else at3 Gn a j b.
Proof.
  intros HG. revert Gn. induction i2s as [|i2 rest IH]; intros Gn Hn.
  - exists Gn. split; [reflexivity|]. split; [reflexivity|].
    intros a j b. simpl. rewrite andb_false_r. reflexivity.
  - destruct Hn as [Hn|Hn]; [|discriminate Hn].
    cbn [extend_loop_i2].
    rewrite interp_ok;
      [| rewrite knots_length; exact Hn
       | rewrite knots_length; apply (slice_mode_length _ _ _ _ _ _ HG)].
    change (?f ≫= ?g) with (rbind g f) at 1. cbn [rbind].
    destruct (IH (set_slice_mode Gn i1 i2
                    (map (interp1 (map of_nat (seq 0 nold)) (slice_mode G i1 i2)) x))
                 (or_introl Hn)) as (Gn' & E & Hs & Ha).
    exists Gn'. split; [exact E|]. split; [exact Hs|].
    intros a j b. rewrite Ha. cbn [existsb at3 set_slice_mode].
    destruct (Nat.eqb_spec a i1) as [->|Ha1]; cbn [andb]; [|reflexivity].
    destruct (existsb (Nat.eqb b) rest); rewrite ?orb_true_r, ?orb_false_r; [reflexivity|].
    destruct (Nat.eqb_spec b i2) as [->|Hb]; reflexivity.
Qed.

Lemma extend_loop_i1_eq G x r1 nold r2 i1s Gn :
  shape3 G = (r1, nold, r2) -> (0 < nold)%nat \/ i1s = [] \/ r2 = O ->
  exists Gn', extend_loop_i1 G x nold r2 i1s Gn = Ok Gn'
    /\ shape3 Gn' = shape3 Gn
    /\ forall a j b,
         at3 Gn' a j b
         = if existsb (Nat.eqb a) i1s && existsb (Nat.eqb b) (seq 0 r2)
           then extended_entry G x nold a j b else at3 Gn a j b.
Proof.
  intros HG. revert Gn. induction i1s as [|i1 rest IH]; intros Gn Hn.
  - exists Gn. split; [reflexivity|]. split; [reflexivity|]. reflexivity.
  - assert ((0 < nold)%nat \/ seq 0 r2 = []) as Hn2.
    { destruct Hn as [Hn|[Hn|Hn]]; [left; exact Hn | discriminate Hn | right; subst; reflexivity]. }
    assert ((0 < nold)%nat \/ rest = [] \/ r2 = O) as Hn1.
    { destruct Hn as [Hn|[Hn|Hn]]; [left; exact Hn | discriminate Hn | right; right; exact Hn]. }
    cbn [extend_loop_i1].
    destruct (extend_loop_i2_eq G x r1 nold r2 i1 (seq 0 r2) Gn HG Hn2) as (G1 & E1 & Hs1 & Ha1).
    rewrite E1. change (?f ≫= ?g) with (rbind g f) at 1. cbn [rbind].
    destruct (IH G1 Hn1) as (Gn' & E & Hs & Ha).
    exists Gn'. split; [exact E|]. split; [congruence|].
    intros a j b. rewrite Ha, Ha1. cbn [existsb].
    destruct (existsb (Nat.eqb b) (seq 0 r2)); rewrite ?andb_true_r, ?andb_false_r; [|reflexivity].
    destruct (existsb (Nat.eqb a) rest); rewrite ?orb_true_r, ?orb_false_r; [reflexivity|].
    reflexivity.
Qed.

Lemma extend_core_eq uninit G r1 nold r2 (n : Z) :
  shape3 G = (r1, nold, r2) -> 0 <= n -> (0 < nold)%nat \/ r1 = O \/ r2 = O ->
  exists Gn, _extend_core uninit G (PyInt n) = Ok Gn
    /\ shape3 Gn = (r1, Z.to_nat n, r2)
    /\ forall a j b, (a < r1)%nat -> (b < r2)%nat ->
         at3 Gn a j b = extended_entry G (query_points n nold) nold a j b.
Proof.
  intros HG Hn Hd. unfold _extend_core. rewrite HG. unfold empty3.
  change (Py.index (PyInt n)) with (Ok n).
  change (Ok n ≫= ?g) with (g n). cbv beta.
  destruct (Z.ltb_spec n 0) as [?|_]; [lia|].
  change (Ok ?a ≫= ?g) with (g a). cbv beta.
  change (Ok n ≫= ?g) with (g n). cbv beta.
  match goal with |- context [extend_loop_i1 _ _ _ _ _ ?A] => set (G0 := A) end.
  assert ((0 < nold)%nat \/ seq 0 r1 = [] \/ r2 = O) as Hd'.
  { destruct Hd as [H|[H|H]]; [left; exact H | right; left; subst; reflexivity | right; right; exact H]. }
  destruct (extend_loop_i1_eq G (query_points n nold) r1 nold r2 (seq 0 r1) G0 HG Hd')
    as (Gn & E & Hs & Ha).
  exists Gn. split; [exact E|]. split; [rewrite Hs; reflexivity|].
  intros a j b Hlt1 Hlt2. rewrite Ha.
  apply existsb_eqb_seq in Hlt1. apply existsb_eqb_seq in Hlt2. rewrite Hlt1, Hlt2. reflexivity.
Qed.

Lemma knots_search a len x :
  let c := searchsorted_right (map of_nat (seq a len)) (Fin x) in
  (c <= len)%nat
  /\ (forall i, (i < c)%nat -> (inject_Z (Z.of_nat (a + i)) <= x)%Q)
  /\ ((c < len)%nat -> (x < inject_Z (Z.of_nat (a + c)))%Q).
Proof.
  cbv zeta. revert a. induction len as [|len IH]; intros a; cbn [seq map searchsorted_right].
  - split; [lia|]. split; [intros; lia | lia].
  - change (sort_leb (of_nat a) (Fin x)) with (sort_leb (Fin (inject_Z (Z.of_nat a))) (Fin x)).
    rewrite sort_leb_Fin.
    destruct (Qle_bool (inject_Z (Z.of_nat a)) x) eqn:E.
    + apply Qle_bool_iff in E. destruct (IH (S a)) as (H1 & H2 & H3).
      set (c' := searchsorted_right (map of_nat (seq (S a) len)) (Fin x)) in *.
      split; [lia|]. split.
      * intros [|i] Hi; [rewrite Nat.add_0_r; exact E|].
        replace (a + S i)%nat with (S a + i)%nat by lia. apply H2. lia.
      * intros Hc. replace (a + S c')%nat with (S a + c')%nat by lia.
        apply H3. lia.
    + split; [lia|]. split; [intros; lia|]. intros _. rewrite Nat.add_0_r.
      apply Qnot_le_lt. intros H. apply Qle_bool_iff in H. congruence.
Qed.

Lemma inject_nat_le i j : (i <= j)%nat -> (inject_Z (Z.of_nat i) <= inject_Z (Z.of_nat j))%Q.
Proof. intros H. rewrite <- Zle_Qle. lia. Qed.

Lemma knots_search_between nold j x :
  (j < nold)%nat -> (inject_Z (Z.of_nat j) <= x)%Q ->
  ((S j < nold)%nat -> (x < inject_Z (Z.of_nat (S j)))%Q) ->
  searchsorted_right (map of_nat (seq 0 nold)) (Fin x) = S j.
Proof.
  intros Hj Hlo Hhi. destruct (knots_search 0 nold x) as (H1 & H2 & H3).
  set (c := searchsorted_right _ _) in *. simpl in H2, H3.
  destruct (Nat.lt_trichotomy c (S j)) as [Hc|[Hc|Hc]]; [|exact Hc|]; exfalso.
  - assert (x < inject_Z (Z.of_nat c))%Q as Hx by (apply H3; lia).
    assert (inject_Z (Z.of_nat c) <= inject_Z (Z.of_nat j))%Q by (apply inject_nat_le; lia).
    eapply Qlt_irrefl. eapply Qlt_le_trans; [exact Hx|]. eapply Qle_trans; eassumption.
  - assert (inject_Z (Z.of_nat (S j)) <= x)%Q as Hx by (apply H2; lia).
    eapply Qlt_irrefl. eapply Qlt_le_trans; [apply Hhi; lia | exact Hx].
Qed.

Lemma knots_lookup nold j : (j < nold)%nat -> map of_nat (seq 0 nold) !! j = Some (of_nat j).
Proof. intros H. rewrite list_lookup_fmap, lookup_seq_lt by exact H. reflexivity. Qed.

(** With one sample point the interpolant is its value, whatever the
    query. *)
Lemma interp1_one_point xp fp x :
  length xp = 1%nat -> length fp = 1%nat -> interp1 xp fp x = default NaN (head fp).
Proof.
  intros Hx Hf. unfold interp1. rewrite Hx. cbn [Nat.eqb].
  destruct fp as [|a [|b fp]]; try discriminate Hf. cbn [head last default].
  destruct (fltb x _); [reflexivity|]. destruct (fltb _ x); reflexivity.
Qed.

(** With two sample points or more, for a query that is a number. *)
Lemma interp1_points xp fp x :
  length xp <> 1%nat ->
  interp1 xp fp (Fin x)
  = let c := searchsorted_right xp (Fin x) in
    if Nat.eqb c 0 then default NaN (head fp)
    else if Nat.eqb c (length xp) then default NaN (last fp)
    else
      let j := (c - 1)%nat in
      let xj := default NaN (xp !! j) in
      let yj := default NaN (fp !! j) in
      if feqb xj (Fin x) then yj
      else
        let xj1 := default NaN (xp !! S j) in
        let yj1 := default NaN (fp !! S j) in
        let slope := fdiv (fsub yj1 yj) (fsub xj1 xj) in
        let r := fadd (fmul slope (fsub (Fin x) xj)) yj in
        if is_nan r then
          let r' := fadd (fmul slope (fsub (Fin x) xj1)) yj1 in
          if is_nan r' && feqb yj yj1 then yj else r'
        else r.
Proof.
  intros Hx. unfold interp1.
  destruct (Nat.eqb_spec (length xp) 1) as [E|_]; [contradiction|]. reflexivity.
Qed.


Lemma query_points_lookup (n : Z) nold j :
  (j < Z.to_nat n)%nat ->
  query_points n nold !! j
  = Some (fdiv (of_Z (Z.of_nat j * (Z.of_nat nold - 1))) (of_Z (n - 1))).
Proof.
  intros H. unfold query_points. rewrite list_lookup_fmap, lookup_seq_lt by exact H.
  reflexivity.
Qed.

Lemma inject_Z_neq0 z : z <> 0 -> Qeq_bool (inject_Z z) 0 = false.
Proof.
  intros H. destruct (Qeq_bool _ _) eqn:E; [|reflexivity].
  apply Qeq_bool_iff in E. unfold Qeq in E. simpl in E. lia.
Qed.

Lemma extended_entry_query G (n : Z) nold a j b :
  1 < n -> (j < Z.to_nat n)%nat ->
  extended_entry G (query_points n nold) nold a j b
  = interp1 (map of_nat (seq 0 nold)) (slice_mode G a b)
      (Fin (inject_Z (Z.of_nat j * (Z.of_nat nold - 1)) / inject_Z (n - 1))).
Proof.
  intros Hn Hj. unfold extended_entry.
  rewrite list_lookup_fmap, (query_points_lookup n nold j Hj). cbn [fmap option_fmap option_map default].
  unfold fdiv, of_Z. rewrite inject_Z_neq0 by lia. reflexivity.
Qed.

Lemma samples_lookup (y : nat -> Q) nold j :
  (j < nold)%nat -> map (fun k => Fin (y k)) (seq 0 nold) !! j = Some (Fin (y j)).
Proof. intros H. rewrite list_lookup_fmap, lookup_seq_lt by exact H. reflexivity. Qed.

Lemma interp1_lerp (y : nat -> Q) nold x x' :
  (0 < nold)%nat -> (x == x')%Q -> (0 <= x)%Q -> (x <= inject_Z (Z.of_nat nold) - 1)%Q ->
  exists v, interp1 (map of_nat (seq 0 nold)) (map (fun k => Fin (y k)) (seq 0 nold)) (Fin x) = Fin v
            /\ (v == lerp y nold x')%Q.
Proof.
  intros Hn Hxx H0 H1.
  assert (0 <= Qfloor x) as Hf0.
  { change 0 with (Qfloor 0%Q). apply Qfloor_resp_le. exact H0. }
  assert (Qfloor x <= Z.of_nat nold - 1) as Hf1.
  { rewrite <- (Qfloor_Z (Z.of_nat nold - 1)). apply Qfloor_resp_le.
    unfold Z.sub. rewrite inject_Z_plus. exact H1. }
  set (k := Z.to_nat (Qfloor x)).
  assert (Z.of_nat k = Qfloor x) as Hk by (unfold k; lia).
  assert (k < nold)%nat as Hkn by lia.
  assert (inject_Z (Z.of_nat k) <= x)%Q as Hlo by (rewrite Hk; apply Qfloor_le).
  assert (x < inject_Z (Z.of_nat (S k)))%Q as Hhi.
  { rewrite Nat2Z.inj_succ, Hk. unfold Z.succ. apply Qlt_floor. }
  assert (lerp y nold x'
          = if (S k <? nold)%nat
            then (y k + (x' - inject_Z (Z.of_nat k)) * (y (S k) - y k))%Q
            else y (nold - 1)%nat) as Hl.
  { unfold lerp. rewrite <- (Qfloor_comp _ _ Hxx). reflexivity. }
  rewrite Hl. clear Hl.
  destruct (Nat.eq_dec nold 1%nat) as [->|Hne].
  { rewrite interp1_one_point by reflexivity. exists (y 0%nat). split; [reflexivity|].
    destruct (Nat.ltb_spec (S k) 1); [lia | reflexivity]. }
  rewrite interp1_points by (rewrite knots_length; exact Hne). cbv zeta.
  rewrite (knots_search_between nold k x Hkn Hlo (fun _ => Hhi)).
  change (Nat.eqb (S k) 0) with false. cbv iota. rewrite knots_length.
  destruct (Nat.eqb_spec (S k) nold) as [E|E].
  - rewrite last_lookup, length_map, length_seq, samples_lookup by lia.
    exists (y (Init.Nat.pred nold)). split; [reflexivity|].
    destruct (Nat.ltb_spec (S k) nold); [lia|].
    replace (nold - 1)%nat with (Init.Nat.pred nold) by lia. reflexivity.
  - destruct (Nat.ltb_spec (S k) nold) as [Hlt|?]; [|lia].
    replace (S k - 1)%nat with k by lia.
    rewrite !knots_lookup, !samples_lookup by lia.
    change (feqb (default NaN (Some (of_nat k))) (Fin x))
      with (Qeq_bool (inject_Z (Z.of_nat k)) x).
    destruct (Qeq_bool (inject_Z (Z.of_nat k)) x) eqn:Eq.
    + exists (y k). split; [reflexivity|].
      apply Qeq_bool_iff in Eq. rewrite <- Hxx, <- Eq. ring.
    + repeat match goal with
             | |- context [default NaN (Some ?a)] => change (default NaN (Some a)) with a
             end.
      unfold of_nat, of_Z, fsub, fneg, fadd, fdiv.
      assert (inject_Z (Z.of_nat (S k)) + - inject_Z (Z.of_nat k) == 1)%Q as H1'.
      { rewrite inject_nat_S. ring. }
      assert (Qeq_bool (inject_Z (Z.of_nat (S k)) + - inject_Z (Z.of_nat k)) 0 = false) as ->.
      { destruct (Qeq_bool (inject_Z (Z.of_nat (S k)) + - inject_Z (Z.of_nat k)) 0) eqn:Eb;
          [|reflexivity].
        apply Qeq_bool_iff in Eb. rewrite H1' in Eb. discriminate Eb. }
      cbn [fmul]. eexists. split; [reflexivity|].
      rewrite <- Hxx. unfold Qdiv. rewrite H1'. field.
Qed.

Lemma even_point_eq (n nold j : nat) :
  (inject_Z (Z.of_nat j * (Z.of_nat nold - 1)) / inject_Z (Z.of_nat n - 1)
   == even_point n nold j)%Q.
Proof.
  unfold even_point. rewrite inject_Z_mult. unfold Z.sub. rewrite !inject_Z_plus.
  reflexivity.
Qed.

Lemma even_point_range (n nold j : nat) :
  (1 < n)%nat -> (0 < nold)%nat -> (j < n)%nat ->
  (0 <= even_point n nold j)%Q /\ (even_point n nold j <= inject_Z (Z.of_nat nold) - 1)%Q.
Proof.
  intros Hn Hd Hj. unfold even_point.
  assert (0 < inject_Z (Z.of_nat n) - 1)%Q as Hpos.
  { change 1%Q with (inject_Z 1). unfold Qminus. rewrite <- inject_Z_opp, <- inject_Z_plus.
    change 0%Q with (inject_Z 0). rewrite <- Zlt_Qlt. lia. }
  assert (0 <= inject_Z (Z.of_nat nold) - 1)%Q as Hd0.
  { change 1%Q with (inject_Z 1). unfold Qminus. rewrite <- inject_Z_opp, <- inject_Z_plus.
    change 0%Q with (inject_Z 0). rewrite <- Zle_Qle. lia. }
  assert (0 <= inject_Z (Z.of_nat j))%Q as Hj0.
  { change 0%Q with (inject_Z 0). rewrite <- Zle_Qle. lia. }
  assert (inject_Z (Z.of_nat j) <= inject_Z (Z.of_nat n) - 1)%Q as Hj1.
  { change 1%Q with (inject_Z 1). unfold Qminus. rewrite <- inject_Z_opp, <- inject_Z_plus.
    rewrite <- Zle_Qle. lia. }
  split.
  - apply Qle_shift_div_l; [exact Hpos|]. rewrite Qmult_0_l.
    apply Qmult_le_0_compat; assumption.
  - apply Qle_shift_div_r; [exact Hpos|]. nra.
Qed.

(** C8, as amended.  For a core of shape (r1, nold, r2) with finite entries
    and a target size n > 1, where nold >= 1 unless the core has no
    (r1, r2) pair at all, [_extend_core] returns a core of shape
    (r1, n, r2) whose entry (a, j, b) is the linear interpolation of the
    samples G[a, 0, b], ..., G[a, nold - 1, b] at the j-th of n evenly
    spaced points of [0, nold - 1].  The result is a new array; the
    argument is a value and is not changed. *)
Theorem extend_core_interpolates uninit (g : nat -> nat -> nat -> Q) r1 nold r2 n :
  (1 < n)%nat -> (0 < nold)%nat \/ r1 = O \/ r2 = O ->
  exists Gn,
    _extend_core uninit (Arr3 (r1, nold, r2) (fun a j b => Fin (g a j b))) (PyInt (Z.of_nat n))
    = Ok Gn
    /\ shape3 Gn = (r1, n, r2)
    /\ forall a j b, (a < r1)%nat -> (j < n)%nat -> (b < r2)%nat ->
         exists v, at3 Gn a j b = Fin v
                   /\ (v == lerp (fun k => g a k b) nold (even_point n nold j))%Q.
Proof.
  intros Hn Hd.
  set (G := Arr3 (r1, nold, r2) (fun a j b => Fin (g a j b))).
  destruct (extend_core_eq uninit G r1 nold r2 (Z.of_nat n) eq_refl ltac:(lia) Hd)
    as (Gn & E & Hs & Ha).
  exists Gn. split; [exact E|]. split; [rewrite Hs, Nat2Z.id; reflexivity|].
  intros a j b Hlt1 Hj Hlt2.
  assert (0 < nold)%nat as Hnold by (destruct Hd as [H|[H|H]]; [exact H | lia | lia]).
  rewrite (Ha a j b Hlt1 Hlt2).
  rewrite extended_entry_query by lia.
  destruct (even_point_range n nold j Hn Hnold Hj) as [R0 R1].
  apply interp1_lerp.
  - exact Hnold.
  - apply even_point_eq.
  - rewrite even_point_eq. exact R0.
  - rewrite even_point_eq. exact R1.
Qed.

Lemma extend_core_interpolates_witness :
  (1 < 5)%nat
  /\ exists Gn,
       _extend_core uninit_nan (core_of_list [1%Q; 2%Q; 0%Q]) (PyInt 5) = Ok Gn
       /\ shape3 Gn = (1%nat, 5%nat, 1%nat)
       /\ forall a j b, (a < 1)%nat -> (j < 5)%nat -> (b < 1)%nat ->
            exists v, at3 Gn a j b = Fin v
              /\ (v == lerp (fun k => nth k [1%Q; 2%Q; 0%Q] 0%Q) 3 (even_point 5 3 j))%Q.
Proof.
  split; [lia|].
  apply (extend_core_interpolates uninit_nan (fun _ j _ => nth j [1%Q; 2%Q; 0%Q] 0%Q) 1 3 1 5);
    [lia | left; lia].
Defined.

(** With no sample along the mode axis there is nothing to interpolate and
    [np.interp] raises. *)
Lemma extend_core_empty_mode_raises :
  shape3 G_empty_mode = (1%nat, 0%nat, 1%nat)
  /\ _extend_core uninit_nan G_empty_mode (PyInt 2)
     = Raise (ValueError "array of sample points is empty").
Proof. split; reflexivity. Qed.




(** ** The confidence band *)

Section ConfidenceBand.

Import RNp StatR.
Local Open Scope R_scope.

Lemma clip_clamp01 a : clip a 0 1 = clamp01 a.
Proof.
unfold clip, clamp01, Rmin, Rmax.
destruct (Rlt_dec a 0), (Rlt_dec 1 a), (Rle_dec a 0); try lra;
  destruct (Rle_dec 1 0); try lra; destruct (Rle_dec 1 a); lra.
Qed.

Lemma clamp01_range a : 0 <= clamp01 a <= 1.
Proof. unfold clamp01. destruct (Rlt_dec a 0), (Rlt_dec 1 a); lra. Qed.

Lemma ln_two_over_alpha alpha : 0 < alpha < 1 -> 0 < ln (2 / alpha).
Proof.
intros [H0 H1]. rewrite <- ln_1. apply ln_increasing; [lra|].
apply Rmult_lt_reg_r with alpha; [exact H0|].
unfold Rdiv. rewrite Rmult_assoc, Rinv_l by lra. lra.
Qed.

Lemma cdf_confidence_eq (x : list R) alpha :
x <> [] -> 0 < alpha < 1 ->
cdf_confidence x alpha
= Ok (map (fun v => Some (clip (v - dkw_epsilon alpha (length x)) 0 1)) x,
      map (fun v => Some (clip (v + dkw_epsilon alpha (length x)) 0 1)) x).
Proof.
intros Hx Ha. unfold cdf_confidence.
destruct (Req_dec_T alpha 0) as [E|_]; [lra|].
assert (0 < 2 / alpha) as H2 by (apply Rdiv_lt_0_compat; lra).
pose proof (ln_two_over_alpha alpha Ha) as Hln.
assert (0 < INR (length x)) as Hm.
{ apply lt_0_INR. destruct x; [congruence | simpl; lia]. }
unfold log. destruct (Rlt_dec 0 (2 / alpha)) as [_|N]; [|contradiction].
cbn [mbind option_bind]. unfold divide.
destruct (Req_dec_T (2 * INR (length x)) 0) as [E|_]; [lra|].
cbn [mbind option_bind]. unfold sqrt.
destruct (Rle_dec 0 (ln (2 / alpha) / (2 * INR (length x)))) as [_|N].
- reflexivity.
- exfalso. apply N. apply Rlt_le. apply Rdiv_lt_0_compat; lra.
Qed.

End ConfidenceBand.

(** C7.  For a non-empty array [x] and [alpha] strictly between 0 and 1,
    [cdf_confidence] returns the values of [x] moved down and up by the DKW
    half-width sqrt(ln(2/alpha) / (2 m)), m the length of [x], and clamped
    to [[0, 1]]: two arrays as long as [x] with every entry in [[0, 1]]. *)
Theorem cdf_confidence_dkw_band (x : list R) (alpha : R) :
  x <> [] -> (0 < alpha < 1)%R ->
  exists lo hi,
    StatR.cdf_confidence x alpha = Ok (map Some lo, map Some hi)
    /\ (lo, hi) = dkw_band x alpha
    /\ length lo = length x /\ length hi = length x
    /\ Forall (fun v => 0 <= v <= 1)%R lo /\ Forall (fun v => 0 <= v <= 1)%R hi.
Proof.
  intros Hx Ha.
  exists (fst (dkw_band x alpha)), (snd (dkw_band x alpha)).
  split.
  - rewrite (cdf_confidence_eq x alpha Hx Ha). unfold dkw_band. cbn [fst snd].
    rewrite !map_map. f_equal; f_equal; apply map_ext; intros v; rewrite clip_clamp01;
      reflexivity.
  - split; [reflexivity|]. unfold dkw_band. cbn [fst snd].
    rewrite !length_map. split; [reflexivity|]. split; [reflexivity|].
    split; apply Forall_map, Forall_forall; intros v _; apply clamp01_range.
Qed.

Lemma cdf_confidence_dkw_band_witness :
  [0%R; (1 / 2)%R; 1%R] <> [] /\ (0 < 1 / 20 < 1)%R
  /\ exists lo hi,
       StatR.cdf_confidence [0%R; (1 / 2)%R; 1%R] (1 / 20) = Ok (map Some lo, map Some hi)
       /\ (lo, hi) = dkw_band [0%R; (1 / 2)%R; 1%R] (1 / 20)
       /\ length lo = 3%nat /\ length hi = 3%nat.
Proof.
  assert ([0%R; (1 / 2)%R; 1%R] <> []) as Hx by discriminate.
  assert (0 < 1 / 20 < 1)%R as Ha by lra.
  split; [exact Hx|]. split; [exact Ha|].
  destruct (cdf_confidence_dkw_band _ _ Hx Ha) as (lo & hi & E & B & L1 & L2 & _).
  exists lo, hi. split; [exact E|]. split; [exact B|]. split; assumption.
Defined.

(** ** The demo functions: one point and a batch of points *)

Section Demo.

Import RNp.
Local Open Scope R_scope.

Lemma ackley_comp_row d a b c X i row :
rrows X !! i = Some row ->
DemoFuncAckley._comp d a b c X !! i = Some (DemoFuncAckley._calc d a b c row).
Proof.
intros Hrow. unfold DemoFuncAckley._comp, DemoFuncAckley._calc.
rewrite lookup_zip_with, !list_lookup_fmap, Hrow.
cbn [fmap option_fmap option_map mbind option_bind].
destruct (divide (sum (map (fun v => v ^ 2) row)) (INR d)) as [q1|];
  cbn [mbind option_bind]; [|reflexivity].
destruct (sqrt q1) as [s1|]; cbn [mbind option_bind]; [|reflexivity].
destruct (divide (sum (map (fun v => cos (c * v)) row)) (INR d)) as [q2|];
  cbn [mbind option_bind]; reflexivity.
Qed.

Lemma ackley_calc_real d a b c row :
(0 < d)%nat -> exists y, DemoFuncAckley._calc d a b c row = Some y.
Proof.
intros Hd. unfold DemoFuncAckley._calc, divide.
assert (0 < INR d) as Hd' by (apply lt_0_INR; exact Hd).
destruct (Req_dec_T (INR d) 0) as [E|_]; [lra|].
cbn [mbind option_bind]. unfold sqrt.
destruct (Rle_dec 0 (sum (map (fun v => v ^ 2) row) / INR d)) as [_|N].
- cbn [mbind option_bind]. eexists. reflexivity.
- exfalso. apply N. apply Rmult_le_pos; [|apply Rlt_le, Rinv_0_lt_compat; exact Hd'].
  assert (forall l acc, 0 <= acc -> 0 <= foldl Rplus acc (map (fun v => v ^ 2) l)) as Hs.
  { induction l as [|v l IH]; intros acc Hacc; simpl; [exact Hacc|].
    apply IH. pose proof (pow2_ge_0 v). simpl in *. lra. }
  apply Hs. lra.
Qed.

Lemma broadcast_div_same a w : length a = length w -> broadcast_div a w = zip_with Rdiv a w.
Proof. intros H. unfold broadcast_div. rewrite H, Nat.eqb_refl. reflexivity. Qed.

Lemma grienwank_comp_row d X m i row :
has_shape X m d -> rrows X !! i = Some row ->
exists y ys, DemoFuncGrienwank._calc d row = Ok y
             /\ DemoFuncGrienwank._comp d X = Ok ys /\ ys !! i = Some y.
Proof.
intros (Hm & Hc & Hrows) Hrow.
assert (length row = d) as Hlen.
{ rewrite Forall_forall in Hrows. apply Hrows. eapply list_elem_of_lookup_2. exact Hrow. }
unfold DemoFuncGrienwank._calc, DemoFuncGrienwank._comp.
rewrite Hc, Hlen. unfold broadcastable. rewrite Nat.eqb_refl. cbn [orb negb].
eexists. eexists. split; [reflexivity|]. split; [reflexivity|].
rewrite lookup_zip_with, !list_lookup_fmap, Hrow.
cbn [fmap option_fmap option_map mbind option_bind]. reflexivity.
Qed.

Lemma alpine_comp_row dy X i row :
rrows X !! i = Some row ->
FuncDemoAlpine._comp dy X !! i = Some (FuncDemoAlpine._calc dy row).
Proof.
intros Hrow. unfold FuncDemoAlpine._comp, FuncDemoAlpine._calc.
rewrite !list_lookup_fmap, Hrow. reflexivity.
Qed.

End Demo.

(** C10.  For a batch [X] of shape (m, d) and a row index [i] of it, the
    [i]-th value that [_comp] returns for the batch is the value that
    [_calc] returns for the [i]-th row, for Ackley, Grienwank and Alpine;
    the values depend on the point and on the parameters of the constructor
    only.  For Ackley with d > 0 the value is a real number. *)
Theorem comp_agrees_with_calc (d : nat) (a b c dy : R) (X : RNp.rmat) (m i : nat) (row : list R) :
  has_shape X m d -> RNp.rrows X !! i = Some row ->
  DemoFuncAckley._comp d a b c X !! i = Some (DemoFuncAckley._calc d a b c row)
  /\ ((0 < d)%nat -> exists y, DemoFuncAckley._calc d a b c row = Some y)
  /\ (exists y ys, DemoFuncGrienwank._calc d row = Ok y
                   /\ DemoFuncGrienwank._comp d X = Ok ys /\ ys !! i = Some y)
  /\ FuncDemoAlpine._comp dy X !! i = Some (FuncDemoAlpine._calc dy row).
Proof.
  intros Hs Hrow. split; [apply ackley_comp_row; exact Hrow|].
  split; [apply ackley_calc_real|].
  split; [eapply grienwank_comp_row; eassumption|].
  apply alpine_comp_row. exact Hrow.
Qed.

Lemma comp_agrees_with_calc_witness :
  has_shape (RNp.RMat 2 [[0%R; 0%R]; [1%R; 2%R]]) 2 2
  /\ DemoFuncAckley._comp 2 20 (1 / 5) (2 * PI) (RNp.RMat 2 [[0%R; 0%R]; [1%R; 2%R]]) !! 1%nat
     = Some (DemoFuncAckley._calc 2 20 (1 / 5) (2 * PI) [1%R; 2%R])
  /\ FuncDemoAlpine._comp 0 (RNp.RMat 2 [[0%R; 0%R]; [1%R; 2%R]]) !! 1%nat
     = Some (FuncDemoAlpine._calc 0 [1%R; 2%R]).
Proof.
  assert (has_shape (RNp.RMat 2 [[0%R; 0%R]; [1%R; 2%R]]) 2 2) as Hs.
  { split; [reflexivity|]. split; [reflexivity|]. repeat constructor. }
  split; [exact Hs|].
  destruct (comp_agrees_with_calc 2 20 (1 / 5) (2 * PI) 0 (RNp.RMat 2 [[0%R; 0%R]; [1%R; 2%R]])
              2 1 [1%R; 2%R] Hs eq_refl) as (H1 & _ & _ & H4).
  split; [exact H1 | exact H4].
Defined.

(** ** The sampler: shape of the batch *)

Lemma mret_ok_inv {A} (a b : A) (s s' : RandomState) :
  (mret a : M A) s = (Ok b, s') -> b = a /\ s' = s.
Proof. intros H. injection H as -> ->. split; reflexivity. Qed.

Tactic Notation "minv" hyp(H) "as" ident(a) ident(s) ident(Ha) :=
  apply mbind_ok_inv in H; destruct H as (a & s & Ha & H).

Ltac mlift_inv H :=
  let E := fresh "E" in
  apply mlift_ok_inv in H; destruct H as [H E]; subst.

Lemma setitem_length a i v a' : setitem a i v = Ok a' -> length a' = length a.
Proof.
  unfold setitem. destruct (Nat.ltb i (length a)); [|discriminate].
  intros [= <-]. apply length_insert.
Qed.

Section SamplerShape.

Variable orthogonalize : list arr3 -> Z -> bool -> result (list arr3 * Z).
Variable uninit : nat -> float.
Variable globals : gmap string pyval.

Lemma candidates_loop_rows d di n I Qtens Q rs I' Q' rs' :
  candidates_loop di n I Qtens Q rs = (Ok (I', Q'), rs') ->
  Forall (fun r => length r = d) I -> Forall (fun r => length r = d) I'.
Proof.
  revert Qtens Q rs I' Q' rs'.
  induction I as [|im I IH]; intros Qtens Q rs I' Q' rs' H HF.
  - destruct Qtens, Q; injection H as <- _ _; constructor.
  - destruct Qtens as [|qm Qtens]; [injection H as <- _ _; exact HF|].
    destruct Q as [|qnew Q]; [injection H as <- _ _; exact HF|].
    cbn [candidates_loop] in H.
    minv H as i_cur s1 Hc.
    minv H as i s2 Hi. mlift_inv Hi.
    minv H as im' s3 Him'. mlift_inv Him'.
    minv H as qnew' s4 Hq. mlift_inv Hq.
    minv H as rest s5 Hrest. destruct rest as [I'' Q''].
    apply mret_ok_inv in H as [[= -> ->] ->].
    apply Forall_cons in HF as [Him HI].
    constructor.
    + rewrite (setitem_length _ _ _ _ Him'). exact Him.
    + eapply IH; eassumption.
Qed.

Lemma core_body_rows d di G Q I rs Q' I' rs' :
  core_body uninit globals di G Q I rs = (Ok (Q', I'), rs') ->
  cols I = d -> Forall (fun r => length r = d) (rows I) ->
  cols I' = d /\ Forall (fun r => length r = d) (rows I').
Proof.
  unfold core_body. destruct (shape3 G) as [[r1 n] r2]. intros H Hc HF.
  minv H as Gn s1 HG. destruct Gn as [G' n'].
  minv H as Qtens s2 HQ.
  minv H as rs2 s3 Hcand. destruct rs2 as [Irows Qrows].
  apply mret_ok_inv in H as [[= -> ->] ->].
  split; [exact Hc|]. cbn [rows]. eapply candidates_loop_rows; eassumption.
Qed.

Lemma cores_loop_rows d di Zs Q I rs Q' I' rs' :
  cores_loop uninit globals di Zs Q I rs = (Ok (Q', I'), rs') ->
  cols I = d -> Forall (fun r => length r = d) (rows I) ->
  cols I' = d /\ Forall (fun r => length r = d) (rows I').
Proof.
  revert di Q I rs. induction Zs as [|G Zs IH]; intros di Q I rs H Hc HF.
  - apply mret_ok_inv in H as [[= -> ->] ->]. split; assumption.
  - cbn [cores_loop] in H.
    minv H as QI s1 Hbody. destruct QI as [Q1 I1].
    destruct (core_body_rows d _ _ _ _ _ _ _ _ Hbody Hc HF) as [Hc1 HF1].
    eapply IH; eassumption.
Qed.

End SamplerShape.

(** ** Rows: order, equality, duplicates *)

Lemma sort_leb_refl a : sort_leb a a = true.
Proof. destruct (sort_leb_total a a); assumption. Qed.

Lemma feqb_sym a b : feqb a b = feqb b a.
Proof.
  destruct a as [p| | |], b as [q| | |]; try reflexivity. simpl.
  destruct (Qeq_bool p q) eqn:E1, (Qeq_bool q p) eqn:E2; try reflexivity.
  - apply Qeq_bool_iff in E1. symmetry in E1. apply Qeq_bool_iff in E1. congruence.
  - apply Qeq_bool_iff in E2. symmetry in E2. apply Qeq_bool_iff in E2. congruence.
Qed.

Lemma feqb_sort_leb a b : feqb a b = true -> sort_leb a b = true /\ sort_leb b a = true.
Proof.
  destruct a as [p| | |], b as [q| | |]; try discriminate; try (split; reflexivity).
  simpl. intros E. apply Qeq_bool_iff in E. rewrite !fleb_Fin. split; apply Qle_bool_iff.
  - rewrite E. apply Qle_refl.
  - rewrite E. apply Qle_refl.
Qed.

(** Between two equal floats of the sort order there are only floats equal
    to them. *)
Lemma feqb_squeeze x y z :
  sort_leb x y = true -> sort_leb y z = true -> feqb x z = true -> feqb x y = true.
Proof.
  destruct x as [p| | |], y as [q| | |], z as [r| | |];
    try discriminate; try reflexivity.
  rewrite !sort_leb_Fin, !Qle_bool_iff. simpl. rewrite !Qeq_bool_iff.
  intros H1 H2 H3. apply Qle_antisym; [exact H1|]. rewrite H3. exact H2.
Qed.

Lemma feqb_trans x y z : feqb x y = true -> feqb y z = true -> feqb x z = true.
Proof.
  destruct x as [p| | |], y as [q| | |], z as [r| | |]; try discriminate; try reflexivity.
  simpl. rewrite !Qeq_bool_iff. intros H1 H2. rewrite H1. exact H2.
Qed.

Lemma row_leb_refl a : row_leb a a = true.
Proof. induction a as [|x a IH]; simpl; [reflexivity|]. rewrite sort_leb_refl. exact IH. Qed.

Lemma row_leb_total a b : row_leb a b = true \/ row_leb b a = true.
Proof.
  revert b. induction a as [|x a IH]; intros [|y b]; simpl; auto.
  destruct (sort_leb x y) eqn:E1, (sort_leb y x) eqn:E2; auto.
  destruct (sort_leb_total x y); congruence.
Qed.

Lemma row_leb_trans a b c : row_leb a b = true -> row_leb b c = true -> row_leb a c = true.
Proof.
  revert b c. induction a as [|x a IH]; intros [|y b] [|z c]; simpl; try congruence.
  destruct (sort_leb x y) eqn:Exy; [|discriminate].
  destruct (sort_leb y z) eqn:Eyz; [|intros _; discriminate].
  rewrite (sort_leb_trans _ _ _ Exy Eyz).
  destruct (sort_leb z x) eqn:Ezx; [|reflexivity].
  rewrite (sort_leb_trans _ _ _ Eyz Ezx), (sort_leb_trans _ _ _ Ezx Exy).
  apply IH.
Qed.

Lemma row_eqb_sym a b : row_eqb a b = row_eqb b a.
Proof.
  revert b. induction a as [|x a IH]; intros [|y b]; simpl; try reflexivity.
  rewrite feqb_sym, IH. reflexivity.
Qed.

Lemma row_eqb_squeeze a b c :
  row_leb a b = true -> row_leb b c = true -> row_eqb a c = true -> row_eqb a b = true.
Proof.
  revert b c. induction a as [|x a IH]; intros [|y b] [|z c]; simpl; try congruence.
  destruct (sort_leb x y) eqn:Exy; [|discriminate].
  destruct (sort_leb y z) eqn:Eyz; [|intros _; discriminate].
  intros H1 H2 H3. apply andb_prop in H3 as [Hxz Hac].
  destruct (feqb_sort_leb _ _ Hxz) as [_ Ezx].
  rewrite (sort_leb_trans _ _ _ Eyz Ezx) in H1.
  rewrite (sort_leb_trans _ _ _ Ezx Exy) in H2.
  rewrite (feqb_squeeze x y z Exy Eyz Hxz). simpl. eapply IH; eassumption.
Qed.

Lemma insert_row_sorted a l :
  StronglySorted row_le l -> StronglySorted row_le (insert_row a l).
Proof.
  induction 1 as [|b l Hs IH Hb]; simpl.
  - repeat constructor.
  - destruct (row_leb a b) eqn:Hab.
    + constructor; [constructor; assumption|].
      constructor; [exact Hab|].
      eapply Forall_impl; [exact Hb|]. intros x Hx. eapply row_leb_trans; eassumption.
    + constructor; [exact IH|].
      assert (row_le b a) as Hba by (destruct (row_leb_total a b); [congruence|assumption]).
      clear IH Hs. induction l as [|c l IHl]; simpl.
      * constructor; [exact Hba|constructor].
      * apply Forall_cons in Hb as [Hbc Hb]. destruct (row_leb a c); constructor; auto.
Qed.

Lemma sort_rows_sorted l : StronglySorted row_le (sort_rows l).
Proof.
  induction l as [|a l IH]; simpl; [constructor|]. apply insert_row_sorted. exact IH.
Qed.

Lemma insert_row_elem a l x : x ∈ insert_row a l -> x = a \/ x ∈ l.
Proof.
  induction l as [|b l IH]; simpl.
  - intros H. apply list_elem_of_singleton in H. left. exact H.
  - destruct (row_leb a b).
    + intros H. apply elem_of_cons in H as [H|H]; [left; exact H | right; exact H].
    + intros H. apply elem_of_cons in H as [H|H].
      * right. subst. apply elem_of_cons. left. reflexivity.
      * destruct (IH H) as [E|E]; [left; exact E | right; apply elem_of_cons; right; exact E].
Qed.

Lemma sort_rows_elem l x : x ∈ sort_rows l -> x ∈ l.
Proof.
  induction l as [|a l IH]; simpl; [intros H; exact H|].
  intros H. apply insert_row_elem in H as [->|H]; apply elem_of_cons; auto.
Qed.

Lemma drop_repeats_elem l x : x ∈ drop_repeats l -> x ∈ l.
Proof.
  induction l as [|a l IH]; [intros H; exact H|].
  cbn [drop_repeats]. destruct l as [|b l'].
  - intros H. exact H.
  - destruct (row_eqb a b).
    + intros H. apply elem_of_cons. right. apply IH. exact H.
    + intros H. apply elem_of_cons in H as [H|H]; apply elem_of_cons; auto.
Qed.

Lemma drop_repeats_distinct l : StronglySorted row_le l -> distinct_rows (drop_repeats l).
Proof.
  induction 1 as [|a l Hs IH Ha]; [constructor|].
  cbn [drop_repeats]. destruct l as [|b l'].
  - repeat constructor.
  - destruct (row_eqb a b) eqn:Eab; [exact IH|].
    constructor; [exact IH|].
    apply Forall_forall. intros c Hc. apply drop_repeats_elem in Hc.
    unfold rows_differ. destruct (row_eqb a c) eqn:Eac; [|reflexivity].
    exfalso. apply Forall_cons in Ha as [Hab Ha'].
    assert (row_leb b c = true) as Hbc.
    { apply elem_of_cons in Hc as [->|Hc]; [apply row_leb_refl|].
      inversion Hs as [|? ? _ Hb]; subst. rewrite Forall_forall in Hb. apply Hb. exact Hc. }
    pose proof (row_eqb_squeeze a b c Hab Hbc Eac). congruence.
Qed.

Lemma unique_rows_distinct I : distinct_rows (rows (unique_rows I)).
Proof. apply drop_repeats_distinct, sort_rows_sorted. Qed.

Lemma unique_rows_elem I x : x ∈ rows (unique_rows I) -> x ∈ rows I.
Proof. intros H. apply sort_rows_elem, drop_repeats_elem. exact H. Qed.

Lemma distinct_rows_perm l l' : Permutation l l' -> distinct_rows l -> distinct_rows l'.
Proof.
  unfold distinct_rows. induction 1 as [|x l l' Hp IH|x y l|l l' l'' _ IH1 _ IH2]; intros H.
  - exact H.
  - inversion H as [|? ? Hs Hx]; subst. constructor; [apply IH; exact Hs|].
    rewrite <- Hp. exact Hx.
  - inversion H as [|? ? Hs Hy]; subst. inversion Hs as [|? ? Hs' Hx]; subst.
    apply Forall_cons in Hy as [Hyx Hy].
    constructor; [constructor; assumption|].
    constructor; [|exact Hx]. unfold rows_differ in *. rewrite row_eqb_sym. exact Hyx.
  - apply IH2, IH1, H.
Qed.

Lemma distinct_rows_firstn k l : distinct_rows l -> distinct_rows (firstn k l).
Proof.
  unfold distinct_rows. intros H. revert k.
  induction H as [|a l Hs IH Ha]; intros [|k]; simpl; try constructor.
  - apply IH.
  - apply Forall_forall. intros x Hx. rewrite Forall_forall in Ha. apply Ha.
    eapply subseteq_take. exact Hx.
Qed.

Lemma distinct_rows_lookup l i j r r' :
  distinct_rows l -> i <> j -> l !! i = Some r -> l !! j = Some r' -> rows_differ r r'.
Proof.
  unfold distinct_rows. intros H. revert i j.
  induction H as [|a l Hs IH Ha]; intros i j Hne Hi Hj; [discriminate Hi|].
  rewrite Forall_forall in Ha.
  destruct i as [|i], j as [|j]; simpl in Hi, Hj.
  - congruence.
  - injection Hi as <-. apply Ha. eapply list_elem_of_lookup_2. exact Hj.
  - injection Hj as <-. unfold rows_differ. rewrite row_eqb_sym.
    apply Ha. eapply list_elem_of_lookup_2. exact Hi.
  - eapply IH; [|exact Hi|exact Hj]. congruence.
Qed.

(** ** Shuffling and rescaling *)

Lemma insert_swap_head {A} (a b : A) t j :
  t !! j = Some b -> Permutation (a :: t) (b :: <[j:=a]> t).
Proof.
  revert j. induction t as [|c t IH]; intros [|j] H; try discriminate H.
  - injection H as ->. apply perm_swap.
  - simpl in H. cbn [insert list_insert].
    etransitivity; [apply perm_swap|].
    etransitivity; [apply perm_skip, (IH j H)|]. apply perm_swap.
Qed.

Lemma swap_perm {A} (l : list A) i j : Permutation l (swap l i j).
Proof.
  unfold swap. destruct (l !! i) as [a|] eqn:Hi; [|reflexivity].
  destruct (l !! j) as [b|] eqn:Hj; [|reflexivity].
  revert i j Hi Hj. induction l as [|x l IH]; intros i j Hi Hj; [discriminate Hi|].
  destruct i as [|i], j as [|j]; simpl in Hi, Hj.
  - injection Hi as ->. injection Hj as ->. reflexivity.
  - injection Hi as ->. cbn [insert list_insert]. apply insert_swap_head. exact Hj.
  - injection Hj as ->. cbn [insert list_insert]. apply insert_swap_head. exact Hi.
  - cbn [insert list_insert]. apply perm_skip. apply IH; assumption.
Qed.

Lemma shuffle_from_perm {A} i (l : list A) rs :
  exists l' rs', shuffle_from i l rs = (Ok l', rs') /\ Permutation l l'.
Proof.
  revert l rs. induction i as [|i IH]; intros l rs.
  - exists l, rs. split; reflexivity.
  - cbn [shuffle_from]. unfold random_interval, next_word.
    unfold mbind, M_bind, mbind', mret, M_ret, mpure. cbv beta iota.
    match goal with |- context [shuffle_from i ?l1 ?s1] => destruct (IH l1 s1) as (l' & rs' & E & P) end.
    exists l', rs'. split; [exact E|].
    etransitivity; [apply swap_perm | exact P].
Qed.

Lemma shuffle_ok I rs r rs' :
  shuffle I rs = (r, rs') ->
  exists I', r = Ok I' /\ cols I' = cols I /\ Permutation (rows I) (rows I').
Proof.
  unfold shuffle. intros H.
  destruct (shuffle_from_perm (length (rows I) - 1) (rows I) rs) as (l' & s' & E & P).
  unfold mbind, M_bind in H. rewrite (mbind_ok _ _ _ _ _ E) in H.
  injection H as <- <-. eexists. split; [reflexivity|]. split; [reflexivity | exact P].
Qed.

Lemma feqb_fdiv_cancel a b k :
  k <> 0 -> feqb (fdiv a (of_Z k)) (fdiv b (of_Z k)) = true -> feqb a b = true.
Proof.
  intros Hk. unfold of_Z.
  assert (~ (inject_Z k == 0)%Q) as Hq by (unfold Qeq; simpl; lia).
  assert ((inject_Z k ?= 0)%Q <> Eq) as Hc by (rewrite <- Qeq_alt; exact Hq).
  destruct a as [p| | |], b as [q| | |]; simpl; rewrite ?(inject_Z_neq0 k Hk);
    try discriminate; try reflexivity;
    try (destruct (inject_Z k ?= 0)%Q; try congruence; discriminate).
  simpl. rewrite !Qeq_bool_iff. intros H.
  apply (Qmult_inj_r _ _ (/ inject_Z k)); [|exact H].
  intros E. apply Hq. rewrite <- (Qinv_involutive (inject_Z k)), E. reflexivity.
Qed.

Lemma row_eqb_fdiv a b k :
  k <> 0 -> rows_differ a b ->
  rows_differ (map (fun x => fdiv x (of_Z k)) a) (map (fun x => fdiv x (of_Z k)) b).
Proof.
  unfold rows_differ. intros Hk. revert b.
  induction a as [|x a IH]; intros [|y b]; simpl; try congruence.
  intros H. apply andb_false_iff in H as [H|H].
  - destruct (feqb (fdiv x (of_Z k)) (fdiv y (of_Z k))) eqn:E; [|reflexivity].
    apply feqb_fdiv_cancel in E; [congruence | exact Hk].
  - rewrite (IH b H). apply andb_false_r.
Qed.

Lemma distinct_rows_fdiv l k :
  k <> 0 -> distinct_rows l -> distinct_rows (map (map (fun x => fdiv x (of_Z k))) l).
Proof.
  unfold distinct_rows. intros Hk. induction 1 as [|a l Hs IH Ha]; simpl; constructor.
  - exact IH.
  - apply Forall_map. eapply Forall_impl; [exact Ha|].
    intros b Hb. apply row_eqb_fdiv; assumption.
Qed.

(** ** The sampler: what a call that returns has gone through *)

Lemma choice_empty size rs r rs' :
  choice 0 size [] rs = (r, rs') -> exists msg, r = Raise (ValueError msg) /\ rs' = rs.
Proof.
  unfold choice. destruct (size =? 0).
  - vm_compute. intros [= <- <-]. eexists. split; reflexivity.
  - vm_compute. intros [= <- <-]. eexists. split; reflexivity.
Qed.

Lemma reshape2_zero_rows G c Q : reshape2 G 0 c = Ok Q -> rows Q = [].
Proof.
  unfold reshape2. destruct (shape3 G) as [[r1 n0] r2].
  destruct (negb _); [discriminate|]. intros [= <-]. reflexivity.
Qed.

Lemma set_first_column_rows d I I1 I' :
  set_first_column I I1 = Ok I' ->
  Forall (fun r => length r = d) I -> Forall (fun r => length r = d) I'.
Proof.
  revert I1 I'. induction I as [|im I IH]; intros I1 I' H HF.
  - destruct I1; injection H as <-; constructor.
  - destruct I1 as [|i1 I1]; [injection H as <-; exact HF|].
    cbn [set_first_column] in H.
    destruct (getitem i1 0) as [v|]; [|discriminate H]. cbn [mbind result_bind rbind] in H.
    destruct (setitem im 0 v) as [im'|] eqn:Es; [|discriminate H].
    cbn [mbind result_bind rbind] in H.
    destruct (set_first_column I I1) as [rest|] eqn:Er; [|discriminate H].
    cbn [mbind result_bind rbind] in H. injection H as <-.
    apply Forall_cons in HF as [Him HI]. constructor.
    + rewrite (setitem_length _ _ _ _ Es). exact Him.
    + eapply IH; [exact Er | exact HI].
Qed.

Lemma empty2_rows uninit k d : Forall (fun r => length r = d) (rows (empty2 uninit k d)).
Proof.
  unfold empty2. cbn [rows]. apply Forall_map, Forall_forall. intros i _.
  rewrite length_map, length_seq. reflexivity.
Qed.

Section SamplerCall.

Variable orthogonalize : list arr3 -> Z -> bool -> result (list arr3 * Z).
Variable uninit : nat -> float.
Variable globals : gmap string pyval.

Lemma extend_if_requested_inv G n G' n' :
  extend_if_requested uninit globals G n = Ok (G', n') ->
  exists fc, globals !! "float_cf"%string = Some fc
    /\ ((fc = PyNone /\ G' = G /\ n' = n)
        \/ exists k, fc = PyInt k /\ n' = Z.to_nat (Z.of_nat n * k)).
Proof.
  unfold extend_if_requested, load_global.
  destruct (globals !! "float_cf"%string) as [fc|]; [|discriminate].
  cbn [mbind result_bind rbind]. intros H. exists fc. split; [reflexivity|].
  destruct fc as [|k|q|s|s]; cbn [int_mul mbind result_bind rbind] in H.
  - injection H as <- <-. left. repeat split.
  - right. exists k. split; [reflexivity|].
    destruct (_extend_core uninit G (PyInt (Z.of_nat n * k))); [|discriminate H].
    cbn [mbind result_bind rbind Py.index] in H. injection H as _ <-. reflexivity.
  - exfalso. unfold _extend_core in H. destruct (shape3 G) as [[r1 nold] r2].
    discriminate H.
  - discriminate H.
  - discriminate H.
Qed.

Lemma sample_core_first_empty Q I m rs r rs' :
  rows Q = [] -> _sample_core_first Q I m rs = (r, rs') -> exists e, r = Raise e.
Proof.
  intros HQ. unfold _sample_core_first. rewrite HQ.
  change (normalize (sum_sq_axis1 [])) with (@nil float). cbn [length].
  unfold mbind, M_bind, mbind'.
  destruct (choice 0 m [] rs) as [c s] eqn:E.
  destruct (choice_empty m rs c s E) as (msg & -> & ->).
  intros [= <- _]. eexists. reflexivity.
Qed.

Lemma first_core_matrix_inv Y Zs n Q :
  first_core_matrix orthogonalize uninit globals Y = Ok (Zs, n, Q) ->
  exists fc, globals !! "float_cf"%string = Some fc
             /\ (fc = PyNone \/ exists k, fc = PyInt k /\ (k <> 0 \/ rows Q = [])).
Proof.
  unfold first_core_matrix. intros H.
  destruct (orthogonalize Y 0 true) as [[Zs0 p]|]; [|discriminate H].
  cbn [mbind result_bind rbind] in H.
  destruct (getitem Zs0 0) as [G|]; [|discriminate H].
  cbn [mbind result_bind rbind] in H. destruct (shape3 G) as [[r1 n0] r2].
  destruct (extend_if_requested uninit globals G n0) as [[G' n']|] eqn:Hext; [|discriminate H].
  cbn [mbind result_bind rbind] in H.
  destruct (reshape2 G' n' r2) as [Q0|] eqn:Hre; [|discriminate H].
  cbn [mbind result_bind rbind] in H. injection H as <- <- <-.
  destruct (extend_if_requested_inv _ _ _ _ Hext) as (fc & Hfc & [(-> & _ & _)|(k & -> & Hn')]).
  - exists PyNone. split; [exact Hfc | left; reflexivity].
  - exists (PyInt k). split; [exact Hfc|]. right. exists k. split; [reflexivity|].
    destruct (Z.eq_dec k 0) as [->|Hk]; [right | left; exact Hk].
    rewrite Z.mul_0_r in Hn'. simpl in Hn'. subst n'.
    apply reshape2_zero_rows in Hre. exact Hre.
Qed.

Lemma sample_first_core_ok Y m unique m_fact rs Zs Q I rs' :
  sample_first_core orthogonalize uninit globals Y m unique m_fact rs = (Ok (Zs, Q, I), rs') ->
  cols I = length Y
  /\ Forall (fun r => length r = length Y) (rows I)
  /\ exists fc, globals !! "float_cf"%string = Some fc
                /\ (fc = PyNone \/ exists k, fc = PyInt k /\ k <> 0).
Proof.
  unfold sample_first_core. intros H.
  minv H as ZnQ s1 Hm. mlift_inv Hm. destruct ZnQ as [[Zs0 n] Q0].
  minv H as QI s5 Hfirst. destruct QI as [Q1 I1].
  minv H as Irows s6 Hcol. mlift_inv Hcol.
  apply mret_ok_inv in H as [[= -> -> ->] ->].
  split; [reflexivity|]. split.
  - cbn [rows]. destruct (Nat.eqb (length Y) 0); [discriminate Hcol|].
    eapply set_first_column_rows; [exact Hcol | apply empty2_rows].
  - destruct (first_core_matrix_inv _ _ _ _ Hm) as (fc & Hfc & [->|(k & -> & Hk)]).
    + exists PyNone. split; [exact Hfc | left; reflexivity].
    + exists (PyInt k). split; [exact Hfc|]. right. exists k. split; [reflexivity|].
      destruct Hk as [Hk|Hk]; [exact Hk|].
      destruct (sample_core_first_empty _ _ _ _ _ _ Hk Hfirst) as (e & He). discriminate He.
Qed.

Lemma divide_by_int I k :
  divide_by I (PyInt k) = Ok (Mat (cols I) (map (map (fun x => fdiv x (of_Z k))) (rows I))).
Proof. reflexivity. Qed.

Lemma sample_finish_ok m I rs I' rs' :
  sample_finish globals m I rs = (Ok I', rs') ->
  Z.of_nat (length (slice_to (rows I) m)) = m
  /\ exists fc, globals !! "float_cf"%string = Some fc
       /\ ((fc = PyNone /\ I' = Mat (cols I) (slice_to (rows I) m))
           \/ (fc <> PyNone /\ divide_by (Mat (cols I) (slice_to (rows I) m)) fc = Ok I')).
Proof.
  unfold sample_finish. cbn [rows cols].
  destruct (Z.eqb_spec (Z.of_nat (length (slice_to (rows I) m))) m) as [E|E];
    cbn [negb]; [|intros H; discriminate H].
  intros H. split; [exact E|].
  minv H as fc s1 Hfc. mlift_inv Hfc. unfold load_global in Hfc.
  destruct (globals !! "float_cf"%string) as [fc'|]; [|discriminate Hfc].
  injection Hfc as ->. exists fc. split; [reflexivity|].
  destruct fc.
  - apply mret_ok_inv in H as [-> _]. left. split; reflexivity.
  - mlift_inv H. right. split; [discriminate | exact H].
  - mlift_inv H. right. split; [discriminate | exact H].
  - mlift_inv H. right. split; [discriminate | exact H].
  - mlift_inv H. right. split; [discriminate | exact H].
Qed.

(** What a call that returns has computed: the batch [I1] after the loop
    over the cores, the batch [I2] that is cut to [m] rows (for
    [unique], a permutation of the distinct rows of [I1]), and the value
    of [float_cf]. *)
Lemma sample_ind_rand_call_ok depth keywords Y m unique m_fact max_rep rs I rs' :
  sample_ind_rand_call orthogonalize uninit globals depth keywords Y m unique m_fact max_rep rs
  = (Ok I, rs') ->
  exists I1 I2 fc,
    cols I1 = length Y
    /\ Forall (fun r => length r = length Y) (rows I1)
    /\ cols I2 = cols I1
    /\ (if unique then Permutation (rows (unique_rows I1)) (rows I2) else I2 = I1)
    /\ Z.of_nat (length (slice_to (rows I2) m)) = m
    /\ globals !! "float_cf"%string = Some fc
    /\ ((fc = PyNone /\ I = Mat (cols I2) (slice_to (rows I2) m))
        \/ exists k, fc = PyInt k /\ k <> 0
             /\ I = Mat (cols I2) (map (map (fun x => fdiv x (of_Z k))) (slice_to (rows I2) m))).
Proof.
  destruct depth as [|depth]; [intros H; discriminate H|].
  cbn [sample_ind_rand_call]. intros H.
  minv H as u s0 Hkw. mlift_inv Hkw.
  minv H as ZQI s1 Hfirst. destruct ZQI as [[Zs Q] I0].
  destruct (sample_first_core_ok _ _ _ _ _ _ _ _ _ Hfirst) as (Hc0 & HF0 & fc0 & Hfc0 & Hk0).
  minv H as QI s2 Hloop. destruct QI as [Q1 I1].
  destruct (cores_loop_rows uninit globals (length Y) _ _ _ _ _ _ _ _ Hloop Hc0 HF0)
    as [Hc1 HF1].
  cbv zeta in H.
  assert (forall I2 s, sample_finish globals m I2 s = (Ok I, rs') ->
            Z.of_nat (length (slice_to (rows I2) m)) = m
            /\ globals !! "float_cf"%string = Some fc0
            /\ ((fc0 = PyNone /\ I = Mat (cols I2) (slice_to (rows I2) m))
                \/ exists k, fc0 = PyInt k /\ k <> 0
                     /\ I = Mat (cols I2)
                              (map (map (fun x => fdiv x (of_Z k))) (slice_to (rows I2) m))))
    as Hfin.
  { intros I2 s HI2. apply sample_finish_ok in HI2 as (Hm & fc & Hfc & Hcase).
    rewrite Hfc0 in Hfc. injection Hfc as <-.
    split; [exact Hm|]. split; [exact Hfc0|].
    destruct Hcase as [(-> & ->)|(Hne & Hd)].
    - left. split; reflexivity.
    - destruct Hk0 as [->|(k & -> & Hk)]; [congruence|].
      right. exists k. split; [reflexivity|]. split; [exact Hk|].
      rewrite divide_by_int in Hd. injection Hd as <-. reflexivity. }
  destruct unique.
  - destruct (Z.of_nat (length (rows (unique_rows I1))) <? m).
    + exfalso. destruct ((max_rep <? 0) || (1000000 <? m_fact)); [discriminate H|].
      minv H as fc s3 Hfc. destruct depth as [|depth]; [discriminate H|].
      rewrite sample_ind_rand_call_keyword in H. discriminate H.
    + minv H as I2 s3 Hsh. destruct (shuffle_ok _ _ _ _ Hsh) as (I2' & [= <-] & Hc2 & Hp).
      exists I1, I2, fc0. destruct (Hfin I2 _ H) as (Hm & Hg & Hcase).
      split; [exact Hc1|]. split; [exact HF1|]. split; [exact Hc2|].
      split; [exact Hp|]. split; [exact Hm|]. split; [exact Hg | exact Hcase].
  - exists I1, I1, fc0. destruct (Hfin I1 _ H) as (Hm & Hg & Hcase).
    split; [exact Hc1|]. split; [exact HF1|]. split; [reflexivity|].
    split; [reflexivity|]. split; [exact Hm|]. split; [exact Hg | exact Hcase].
Qed.

End SamplerCall.

(** C2.  A call of [sample_ind_rand] that returns gives an array of
    exactly [m] rows and [d] columns, [d] the number of cores of [Y]: every
    row has [d] entries.  (With the module as it is no call returns; the
    statement is about the body under any binding of [float_cf].) *)
Theorem sample_ind_rand_batch_shape orthogonalize uninit globals Y m unique m_fact max_rep
    rs I rs' :
  sample_ind_rand orthogonalize uninit globals Y m unique m_fact max_rep rs = (Ok I, rs') ->
  Z.of_nat (length (rows I)) = m
  /\ cols I = length Y
  /\ Forall (fun r => length r = length Y) (rows I).
Proof.
  unfold sample_ind_rand. intros H.
  apply sample_ind_rand_call_ok in H
    as (I1 & I2 & fc & Hc1 & HF1 & Hc2 & Hrel & Hm & _ & Hcase).
  assert (Forall (fun r => length r = length Y) (rows I2)) as HF2.
  { destruct unique; [|subst I2; exact HF1].
    rewrite <- Hrel. apply Forall_forall. intros r Hr.
    rewrite Forall_forall in HF1. apply HF1. apply unique_rows_elem. exact Hr. }
  assert (Forall (fun r => length r = length Y) (slice_to (rows I2) m)) as HF3.
  { unfold slice_to. destruct (m <? 0); apply Forall_take; exact HF2. }
  destruct Hcase as [(_ & ->)|(k & _ & _ & ->)]; cbn [rows cols].
  - split; [exact Hm|]. split; [congruence | exact HF3].
  - rewrite length_map. split; [exact Hm|]. split; [congruence|].
    apply Forall_map. eapply Forall_impl; [exact HF3|].
    intros r Hr. cbn beta. rewrite length_map. exact Hr.
Qed.

Lemma sample_ind_rand_batch_shape_witness :
  exists I rs',
    sample_ind_rand orthogonalize_id uninit_nan (globals_with PyNone) Y_small 3 true 5 100 rs0
    = (Ok I, rs')
    /\ Z.of_nat (length (rows I)) = 3 /\ cols I = 2%nat
    /\ Forall (fun r => length r = 2%nat) (rows I).
Proof.
  eexists. eexists. split; [vm_compute; reflexivity|].
  eapply (sample_ind_rand_batch_shape orthogonalize_id uninit_nan (globals_with PyNone)
            Y_small 3 true 5 100 rs0).
  vm_compute. reflexivity.
Defined.

(** C3.  When [sample_ind_rand] is called with [unique=True] and returns,
    no two rows of the result are equal. *)
Theorem sample_ind_rand_unique_rows orthogonalize uninit globals Y m m_fact max_rep rs I rs' :
  sample_ind_rand orthogonalize uninit globals Y m true m_fact max_rep rs = (Ok I, rs') ->
  forall i j r r', i <> j -> rows I !! i = Some r -> rows I !! j = Some r' -> rows_differ r r'.
Proof.
  unfold sample_ind_rand. intros H.
  apply sample_ind_rand_call_ok in H
    as (I1 & I2 & fc & _ & _ & _ & Hperm & _ & _ & Hcase).
  assert (distinct_rows (slice_to (rows I2) m)) as Hd.
  { unfold slice_to. destruct (m <? 0); apply distinct_rows_firstn;
      eapply distinct_rows_perm; try exact Hperm; apply unique_rows_distinct. }
  assert (distinct_rows (rows I)) as HI.
  { destruct Hcase as [(_ & ->)|(k & _ & Hk & ->)]; cbn [rows]; [exact Hd|].
    apply distinct_rows_fdiv; assumption. }
  intros i j r r'. apply distinct_rows_lookup. exact HI.
Qed.

Lemma sample_ind_rand_unique_rows_witness :
  exists I rs',
    sample_ind_rand orthogonalize_id uninit_nan (globals_with (PyInt 2)) Y_small 3 true 5 100 rs0
    = (Ok I, rs')
    /\ forall i j r r', i <> j -> rows I !! i = Some r -> rows I !! j = Some r' ->
                        rows_differ r r'.
Proof.
  eexists. eexists. split; [vm_compute; reflexivity|].
  eapply (sample_ind_rand_unique_rows orthogonalize_id uninit_nan (globals_with (PyInt 2))
            Y_small 3 5 100 rs0).
  vm_compute. reflexivity.
Defined.

(** ** Zero mass *)

Lemma fadd_not_finite_l a b : is_finite a = false -> is_finite (fadd a b) = false.
Proof. destruct a, b; simpl; congruence. Qed.

Lemma sum_from_not_finite acc l : is_finite acc = false -> is_finite (foldl fadd acc l) = false.
Proof.
  revert acc. induction l as [|x l IH]; intros acc H; simpl; [exact H|].
  apply IH. apply fadd_not_finite_l. exact H.
Qed.

Lemma fmul_square_Fin x p : fmul x x = Fin p -> (0 <= p)%Q.
Proof.
  destruct x as [r| | |]; simpl; try discriminate.
  intros [= <-]. nra.
Qed.

Lemma sum_squares_from a row p :
  foldl fadd (Fin a) (map (fun x => fmul x x) row) = Fin p -> (0 <= a)%Q -> (0 <= p)%Q.
Proof.
  revert a. induction row as [|x row IH]; intros a H Ha; simpl in H.
  - injection H as <-. exact Ha.
  - destruct (fmul x x) as [q| | |] eqn:E.
    + simpl in H. apply (IH _ H). pose proof (fmul_square_Fin x q E). lra.
    + pose proof (sum_from_not_finite PInf (map (fun x => fmul x x) row) eq_refl) as Hn.
      simpl in H. rewrite H in Hn. discriminate Hn.
    + pose proof (sum_from_not_finite NInf (map (fun x => fmul x x) row) eq_refl) as Hn.
      simpl in H. rewrite H in Hn. discriminate Hn.
    + pose proof (sum_from_not_finite NaN (map (fun x => fmul x x) row) eq_refl) as Hn.
      simpl in H. rewrite H in Hn. discriminate Hn.
Qed.

Lemma sum_sq_axis1_nonneg qm x p : x ∈ sum_sq_axis1 qm -> x = Fin p -> (0 <= p)%Q.
Proof.
  unfold sum_sq_axis1. intros Hx ->. apply list_elem_of_fmap in Hx as (row & E & _).
  symmetry in E. apply (sum_squares_from 0 row p E). lra.
Qed.

Lemma sum_nonneg_from a l q :
  foldl fadd (Fin a) l = Fin q ->
  (forall x p, x ∈ l -> x = Fin p -> (0 <= p)%Q) ->
  (a <= q)%Q /\ ((q == a)%Q -> Forall (fun x => exists p, x = Fin p /\ (p == 0)%Q) l).
Proof.
  revert a. induction l as [|x l IH]; intros a H Hl; simpl in H.
  - injection H as <-. split; [lra | intros _; constructor].
  - destruct x as [p| | |].
    + simpl in H. assert (0 <= p)%Q as Hp by (apply (Hl (Fin p) p); [left | reflexivity]).
      destruct (IH _ H) as [Hle Hall].
      { intros y r Hy. apply Hl. right. exact Hy. }
      split; [lra|]. intros Hq. constructor.
      * exists p. split; [reflexivity | lra].
      * apply Hall. lra.
    + pose proof (sum_from_not_finite PInf l eq_refl) as Hn.
      simpl in H. rewrite H in Hn. discriminate Hn.
    + pose proof (sum_from_not_finite NInf l eq_refl) as Hn.
      simpl in H. rewrite H in Hn. discriminate Hn.
    + pose proof (sum_from_not_finite NaN l eq_refl) as Hn.
      simpl in H. rewrite H in Hn. discriminate Hn.
Qed.

(** With zero mass every normalised weight is 0/0. *)
Lemma normalize_zero_mass qm :
  zero_mass qm -> Forall (fun x => x = NaN) (normalize (sum_sq_axis1 qm)).
Proof.
  unfold zero_mass, feq, normalize. intros Hz.
  destruct (sum (sum_sq_axis1 qm)) as [q| | |] eqn:Es; try discriminate Hz.
  simpl in Hz. apply Qeq_bool_iff in Hz.
  destruct (sum_nonneg_from 0 (sum_sq_axis1 qm) q Es (sum_sq_axis1_nonneg qm)) as [_ Hall].
  apply Forall_map. eapply Forall_impl; [apply Hall; exact Hz|].
  intros x (p & -> & Hp). simpl.
  assert (Qeq_bool q 0 = true) as -> by (apply Qeq_bool_iff; exact Hz).
  apply Qeq_alt in Hp. rewrite Hp. reflexivity.
Qed.

Lemma sum_all_nan x l : Forall (fun y => y = NaN) (x :: l) -> sum (x :: l) = NaN.
Proof.
  intros H. apply Forall_cons in H as [-> _]. unfold sum. simpl.
  assert (forall l, foldl fadd NaN l = NaN) as Hn.
  { clear. induction l as [|y l IH]; simpl; [reflexivity|exact IH]. }
  apply Hn.
Qed.

Lemma insufficient_samples_other msg :
  msg <> "Can not generate the required number of samples"%string ->
  degenerate_distribution (ValueError msg).
Proof.
  intros H. exists msg. split; [reflexivity|].
  unfold insufficient_samples. intros [= E]. apply H. exact E.
Qed.

(** A draw from weights of zero mass raises, and consumes nothing. *)
Lemma choice_zero_mass qm n size rs :
  zero_mass qm ->
  exists e, degenerate_distribution e
            /\ choice n size (normalize (sum_sq_axis1 qm)) rs = (Raise e, rs).
Proof.
  intros Hz. pose proof (normalize_zero_mass qm Hz) as Hnan.
  unfold choice.
  destruct (Nat.eqb n 0 && negb (size =? 0)) eqn:E1.
  { eexists; split; [|reflexivity]; apply insufficient_samples_other; discriminate. }
  destruct (negb (Nat.eqb (length (normalize (sum_sq_axis1 qm))) n)) eqn:E2.
  { eexists; split; [|reflexivity]; apply insufficient_samples_other; discriminate. }
  destruct (normalize (sum_sq_axis1 qm)) as [|x l] eqn:En.
  - eexists; split; [|vm_compute; reflexivity]; apply insufficient_samples_other; discriminate.
  - rewrite (sum_all_nan x l Hnan). cbn [is_nan].
    eexists; split; [|reflexivity]; apply insufficient_samples_other; discriminate.
Qed.

(** ** Zero mass in the sampler *)

Section ZeroMass.

Variable orthogonalize : list arr3 -> Z -> bool -> result (list arr3 * Z).
Variable uninit : nat -> float.
Variable globals : gmap string pyval.

Lemma sample_core_first_zero_mass Q I m rs :
  zero_mass (rows Q) ->
  exists e, degenerate_distribution e /\ _sample_core_first Q I m rs = (Raise e, rs).
Proof.
  intros Hz. destruct (choice_zero_mass (rows Q) (length (rows Q)) m rs Hz) as (e & He & Hc).
  exists e. split; [exact He|]. unfold _sample_core_first, mbind, M_bind.
  apply mbind_raise. exact Hc.
Qed.

Lemma candidates_loop_head_zero_mass di n im I qm Qtens qnew Q rs :
  zero_mass qm ->
  exists e, degenerate_distribution e
            /\ candidates_loop di n (im :: I) (qm :: Qtens) (qnew :: Q) rs = (Raise e, rs).
Proof.
  intros Hz. destruct (choice_zero_mass qm n 1 rs Hz) as (e & He & Hc).
  exists e. split; [exact He|]. cbn [candidates_loop]. unfold mbind, M_bind.
  apply mbind_raise. exact Hc.
Qed.

Lemma candidates_loop_prefix di n I1 Qt1 Q1 I2 Qt2 Q2 rs r rs1 e rs2 :
  candidates_loop di n I1 Qt1 Q1 rs = (Ok r, rs1) ->
  length I1 = length Qt1 -> length Qt1 = length Q1 ->
  candidates_loop di n I2 Qt2 Q2 rs1 = (Raise e, rs2) ->
  candidates_loop di n (I1 ++ I2) (Qt1 ++ Qt2) (Q1 ++ Q2) rs = (Raise e, rs2).
Proof.
  revert Qt1 Q1 rs r. induction I1 as [|im I1 IH]; intros Qt1 Q1 rs r H L1 L2 H2.
  - destruct Qt1; [|discriminate L1]. destruct Q1; [|discriminate L2].
    injection H as _ <-. exact H2.
  - destruct Qt1 as [|qm Qt1]; [discriminate L1|]. destruct Q1 as [|qnew Q1]; [discriminate L2|].
    cbn [candidates_loop] in H.
    minv H as i_cur s1 Hc.
    minv H as i s2 Hi.
    minv H as im' s3 Him'.
    minv H as qnew' s4 Hq.
    minv H as rest s5 Hrest.
    cbn [app candidates_loop]. unfold mbind, M_bind.
    rewrite (mbind_ok _ _ _ _ _ Hc), (mbind_ok _ _ _ _ _ Hi), (mbind_ok _ _ _ _ _ Him'),
      (mbind_ok _ _ _ _ _ Hq).
    apply mbind_raise.
    destruct rest as [I'' Q'']. apply mret_ok_inv in H as [_ ->].
    eapply IH; [exact Hrest | | | exact H2]; simpl in L1, L2; lia.
Qed.

Lemma candidates_loop_not_ok di n I Qtens Q rs k qm r rs' :
  Qtens !! k = Some qm -> zero_mass qm -> (k < length I)%nat -> (k < length Q)%nat ->
  candidates_loop di n I Qtens Q rs = (Ok r, rs') -> False.
Proof.
  revert I Qtens Q rs r rs'. induction k as [|k IH]; intros I Qtens Q rs r rs' Hk Hz HI HQ H;
    destruct I as [|im I]; try (simpl in HI; lia);
    destruct Qtens as [|qm0 Qtens]; try discriminate Hk;
    destruct Q as [|qnew Q]; try (simpl in HQ; lia).
  - injection Hk as ->.
    destruct (candidates_loop_head_zero_mass di n im I qm Qtens qnew Q rs Hz) as (e & _ & E).
    rewrite E in H. discriminate H.
  - cbn [candidates_loop] in H.
    minv H as i_cur s1 Hc.
    minv H as i s2 Hi.
    minv H as im' s3 Him'.
    minv H as qnew' s4 Hq.
    minv H as rest s5 Hrest.
    eapply (IH I Qtens Q); [exact Hk | exact Hz | | | exact Hrest]; simpl in HI, HQ; lia.
Qed.

Lemma einsum_length Q G Qtens : einsum_kr_riq Q G = Ok Qtens -> length Qtens = length (rows Q).
Proof.
  unfold einsum_kr_riq. destruct (shape3 G) as [[r n] r2].
  destruct (negb _); [discriminate|]. intros [= <-]. apply length_map.
Qed.

(** The body of the loop, once the core is extended and contracted, is
    the loop over the candidates. *)
Lemma core_body_eq di G Q I rs r1 n r2 G' n' Qtens :
  shape3 G = (r1, n, r2) ->
  extend_if_requested uninit globals G n = Ok (G', n') ->
  einsum_kr_riq Q G' = Ok Qtens ->
  core_body uninit globals di G Q I rs
  = mbind' (fun '(Irows, Qrows) => mpure (Mat r2 Qrows, Mat (cols I) Irows))
      (candidates_loop di n' (rows I) Qtens (rows (empty2 uninit (length (rows Q)) r2))) rs.
Proof.
  intros Hs He Hq. unfold core_body. rewrite Hs. unfold mbind, M_bind.
  rewrite (mbind_ok _ _ rs (G', n') rs) by (unfold mlift; rewrite He; reflexivity).
  rewrite (mbind_ok _ _ rs Qtens rs) by (unfold mlift; rewrite Hq; reflexivity).
  reflexivity.
Qed.

Lemma core_step_run s s' :
  core_step uninit globals s s' -> run_loop uninit globals s = run_loop uninit globals s'.
Proof.
  intros [di G Zs Q I rs Q' I' rs' H]. unfold run_loop. cbn [ls_di ls_cores ls_Q ls_I ls_rs].
  cbn [cores_loop]. unfold mbind, M_bind. rewrite (mbind_ok _ _ _ _ _ H). reflexivity.
Qed.

Lemma reaches_run s s' :
  rtc (core_step uninit globals) s s' -> run_loop uninit globals s = run_loop uninit globals s'.
Proof.
  induction 1 as [|s1 s2 s3 H _ IH]; [reflexivity|].
  rewrite (core_step_run _ _ H). exact IH.
Qed.

Lemma sample_first_core_raise Y (m : Z) (unique : bool) (m_fact : Z) rs Zs n Q e rs' :
  first_core_matrix orthogonalize uninit globals Y = Ok (Zs, n, Q) ->
  _sample_core_first Q (_range n) (if unique then m_fact * m else m) rs = (Raise e, rs') ->
  sample_first_core orthogonalize uninit globals Y m unique m_fact rs = (Raise e, rs').
Proof.
  intros Hm Hf. unfold sample_first_core, mbind, M_bind.
  rewrite (mbind_ok _ _ rs (Zs, n, Q) rs) by (unfold mlift; rewrite Hm; reflexivity).
  apply mbind_raise. exact Hf.
Qed.

Lemma sample_ind_rand_call_first_raise depth Y m unique m_fact max_rep rs e rs' :
  sample_first_core orthogonalize uninit globals Y m unique m_fact rs = (Raise e, rs') ->
  sample_ind_rand_call orthogonalize uninit globals (S depth) [] Y m unique m_fact max_rep rs
  = (Raise e, rs').
Proof.
  intros H. cbn [sample_ind_rand_call]. unfold mbind, M_bind.
  rewrite (mbind_ok _ _ rs tt rs) by reflexivity.
  apply mbind_raise. exact H.
Qed.

Lemma sample_ind_rand_call_loop_raise depth Y m unique m_fact max_rep rs Zs Q0 I0 rs1 e rs2 :
  sample_first_core orthogonalize uninit globals Y m unique m_fact rs = (Ok (Zs, Q0, I0), rs1) ->
  cores_loop uninit globals 1 (tail Zs) Q0 I0 rs1 = (Raise e, rs2) ->
  sample_ind_rand_call orthogonalize uninit globals (S depth) [] Y m unique m_fact max_rep rs
  = (Raise e, rs2).
Proof.
  intros H1 H2. cbn [sample_ind_rand_call]. unfold mbind, M_bind.
  rewrite (mbind_ok _ _ rs tt rs) by reflexivity.
  rewrite (mbind_ok _ _ _ _ _ H1).
  apply mbind_raise. exact H2.
Qed.

End ZeroMass.

Section ZeroMassCall.

Variable orthogonalize : list arr3 -> Z -> bool -> result (list arr3 * Z).
Variable uninit : nat -> float.
Variable globals : gmap string pyval.

Lemma candidates_loop_zero_mass_at di n I Qtens Q rs k qm :
  Qtens !! k = Some qm -> zero_mass qm -> (k < length I)%nat -> (k < length Q)%nat ->
  (exists e rs', candidates_loop di n I Qtens Q rs = (Raise e, rs'))
  /\ (forall r rs1,
        candidates_loop di n (take k I) (take k Qtens) (take k Q) rs = (Ok r, rs1) ->
        exists e, degenerate_distribution e
                  /\ candidates_loop di n I Qtens Q rs = (Raise e, rs1)).
Proof.
  intros Hk Hz HI HQ. split.
  - destruct (candidates_loop di n I Qtens Q rs) as [[r|e] rs'] eqn:E.
    + exfalso. exact (candidates_loop_not_ok di n I Qtens Q rs k qm r rs' Hk Hz HI HQ E).
    + exists e, rs'. reflexivity.
  - intros r rs1 Hpre.
    destruct (lookup_lt_is_Some_2 I k HI) as [im Him].
    destruct (lookup_lt_is_Some_2 Q k HQ) as [qnew Hqn].
    pose proof (lookup_lt_Some _ _ _ Hk) as HQt.
    destruct (candidates_loop_head_zero_mass di n im (drop (S k) I) qm (drop (S k) Qtens)
                qnew (drop (S k) Q) rs1 Hz) as (e & He & Eh).
    exists e. split; [exact He|].
    rewrite <- (take_drop k I), <- (take_drop k Qtens), <- (take_drop k Q).
    rewrite (drop_S I im k Him), (drop_S Qtens qm k Hk), (drop_S Q qnew k Hqn).
    eapply candidates_loop_prefix; [exact Hpre | | | exact Eh]; rewrite !length_take; lia.
Qed.

Lemma loop_raise_call depth Y m unique m_fact max_rep rs Zs Q0 I0 rs1
      di G Zs' Q I rs2 r1 n r2 G' n' Qtens e rs3 :
  sample_first_core orthogonalize uninit globals Y m unique m_fact rs = (Ok (Zs, Q0, I0), rs1) ->
  rtc (core_step uninit globals)
      (LoopState 1 (tail Zs) Q0 I0 rs1) (LoopState di (G :: Zs') Q I rs2) ->
  shape3 G = (r1, n, r2) ->
  extend_if_requested uninit globals G n = Ok (G', n') ->
  einsum_kr_riq Q G' = Ok Qtens ->
  candidates_loop di n' (rows I) Qtens (rows (empty2 uninit (length (rows Q)) r2)) rs2
  = (Raise e, rs3) ->
  sample_ind_rand_call orthogonalize uninit globals (S depth) [] Y m unique m_fact max_rep rs
  = (Raise e, rs3).
Proof.
  intros Hfirst Hreach Hs Hext Hein Hc.
  eapply sample_ind_rand_call_loop_raise; [exact Hfirst|].
  pose proof (reaches_run uninit globals _ _ Hreach) as Hrun.
  unfold run_loop in Hrun. cbn [ls_di ls_cores ls_Q ls_I ls_rs] in Hrun.
  rewrite Hrun. cbn [cores_loop]. unfold mbind, M_bind. apply mbind_raise.
  rewrite (core_body_eq uninit globals di G Q I rs2 r1 n r2 G' n' Qtens Hs Hext Hein).
  apply mbind_raise. exact Hc.
Qed.

End ZeroMassCall.

(** C5.  With the module as it is, a tensor of zero mass does not get the
    error of the draw.  The first test of [float_cf] raises [NameError]
    before the weights of any draw are computed, for zero mass at the first
    core as for zero mass at a later core, and a [NameError] is not the
    error of a degenerate distribution.  No call on the module as it is
    ends in that error once the orthogonalizer has returned a core. *)
Theorem zero_mass_raises_name_error :
  (exists Q, reshape2 (core_of_list [0%Q; 0%Q]) 2 1 = Ok Q /\ zero_mass (rows Q))
  /\ sample_ind_rand orthogonalize_id uninit_nan module_globals Y_no_mass 3 true 5 100 rs0
     = (Raise (NameError "float_cf"), rs0)
  /\ sample_ind_rand orthogonalize_id uninit_nan module_globals Y_dead_end 3 true 5 100 rs0
     = (Raise (NameError "float_cf"), rs0)
  /\ ~ degenerate_distribution (NameError "float_cf")
  /\ (forall orthogonalize uninit Y m unique m_fact max_rep rs G Zs p e rs',
        orthogonalize Y 0 true = Ok (G :: Zs, p) ->
        sample_ind_rand orthogonalize uninit module_globals Y m unique m_fact max_rep rs
        = (Raise e, rs') ->
        ~ degenerate_distribution e).
Proof.
  assert (~ degenerate_distribution (NameError "float_cf")) as Hnot.
  { intros (msg & E & _). discriminate E. }
  split; [eexists; split; [reflexivity | vm_compute; reflexivity]|].
  split; [vm_compute; reflexivity|].
  split; [vm_compute; reflexivity|].
  split; [exact Hnot|].
  intros orthogonalize uninit Y m unique m_fact max_rep rs G Zs p e rs' Ho H.
  unfold sample_ind_rand in H. change recursion_limit with (S 999) in H.
  destruct (sample_ind_rand_call_unbound orthogonalize uninit 999 Y m unique m_fact max_rep rs)
    as (e0 & He & Hn).
  rewrite He in H. injection H as <- _. rewrite (Hn _ _ _ Ho). exact Hnot.
Qed.

(** X24.  Were [float_cf] bound, a candidate of zero mass would make
    [sample_ind_rand] raise, and the exception would be the [ValueError]
    of the draw, not the one for too few samples.  For the first core: when the matrix that [_sample_core_first]
    gets has zero mass, the call raises it before any draw.  For a later
    core: when the loop over the cores has reached a core for which the
    slice of some candidate has zero mass, the call raises and returns
    nothing; and once the candidates before that one are through, the
    exception is raised there, with no further draw and no retry.  (With
    the module as it is the first test of [float_cf] raises before any of
    this; the statement is about the body under any binding of
    [float_cf].) *)
Theorem zero_mass_raises orthogonalize uninit globals Y m unique m_fact max_rep rs :
  (forall Zs n Q,
      first_core_matrix orthogonalize uninit globals Y = Ok (Zs, n, Q) ->
      zero_mass (rows Q) ->
      exists e, degenerate_distribution e
        /\ sample_ind_rand orthogonalize uninit globals Y m unique m_fact max_rep rs
           = (Raise e, rs))
  /\ (forall Zs Q0 I0 rs1 di G Zs' Q I rs2 r1 n r2 G' n' Qtens k qm,
        sample_first_core orthogonalize uninit globals Y m unique m_fact rs
        = (Ok (Zs, Q0, I0), rs1) ->
        rtc (core_step uninit globals)
            (LoopState 1 (tail Zs) Q0 I0 rs1) (LoopState di (G :: Zs') Q I rs2) ->
        shape3 G = (r1, n, r2) ->
        extend_if_requested uninit globals G n = Ok (G', n') ->
        einsum_kr_riq Q G' = Ok Qtens ->
        Qtens !! k = Some qm -> (k < length (rows I))%nat -> zero_mass qm ->
        (exists e rs3,
            sample_ind_rand orthogonalize uninit globals Y m unique m_fact max_rep rs
            = (Raise e, rs3))
        /\ (forall r rs3,
              candidates_loop di n' (take k (rows I)) (take k Qtens)
                (take k (rows (empty2 uninit (length (rows Q)) r2))) rs2 = (Ok r, rs3) ->
              exists e, degenerate_distribution e
                /\ sample_ind_rand orthogonalize uninit globals Y m unique m_fact max_rep rs
                   = (Raise e, rs3))).
Proof.
  unfold sample_ind_rand. change recursion_limit with (S 999). split.
  - intros Zs n Q Hm Hz.
    destruct (sample_core_first_zero_mass Q (_range n) (if unique then m_fact * m else m) rs Hz)
      as (e & He & Hf).
    exists e. split; [exact He|].
    apply sample_ind_rand_call_first_raise.
    eapply sample_first_core_raise; eassumption.
  - intros Zs Q0 I0 rs1 di G Zs' Q I rs2 r1 n r2 G' n' Qtens k qm
           Hfirst Hreach Hs Hext Hein Hk HkI Hz.
    assert (k < length (rows (empty2 uninit (length (rows Q)) r2)))%nat as HkQ.
    { unfold empty2. cbn [rows]. rewrite length_map, length_seq.
      rewrite <- (einsum_length _ _ _ Hein). eapply lookup_lt_Some. exact Hk. }
    destruct (candidates_loop_zero_mass_at di n' (rows I) Qtens
                (rows (empty2 uninit (length (rows Q)) r2)) rs2 k qm Hk Hz HkI HkQ)
      as [(e & rs3 & E) Hexact].
    split.
    + exists e, rs3. eapply loop_raise_call; eassumption.
    + intros r rs3' Hpre. destruct (Hexact r rs3' Hpre) as (e' & He' & E').
      exists e'. split; [exact He'|]. eapply loop_raise_call; eassumption.
Qed.

Lemma zero_mass_raises_witness :
  (exists e, degenerate_distribution e
     /\ sample_ind_rand orthogonalize_id uninit_nan (globals_with PyNone) Y_no_mass 3 true 5 100 rs0
        = (Raise e, rs0))
  /\ (exists e rs3,
        sample_ind_rand orthogonalize_id uninit_nan (globals_with PyNone) Y_dead_end 3 true 5 100 rs0
        = (Raise e, rs3)).
Proof.
  split.
  - destruct (zero_mass_raises orthogonalize_id uninit_nan (globals_with PyNone)
                Y_no_mass 3 true 5 100 rs0) as [H _].
    eapply H; [vm_compute; reflexivity | vm_compute; reflexivity].
  - destruct (zero_mass_raises orthogonalize_id uninit_nan (globals_with PyNone)
                Y_dead_end 3 true 5 100 rs0) as [_ H].
    eapply (fun Zs Q0 I0 rs1 di G Zs' Q I rs2 r1 n r2 G' n' Qtens qm H1 H2 H3 H4 H5 H6 H7 H8 =>
              proj1 (H Zs Q0 I0 rs1 di G Zs' Q I rs2 r1 n r2 G' n' Qtens 0%nat qm
                       H1 H2 H3 H4 H5 H6 H7 H8)).
    + vm_compute. reflexivity.
    + apply rtc_refl.
    + reflexivity.
    + vm_compute. reflexivity.
    + vm_compute. reflexivity.
    + reflexivity.
    + vm_compute. lia.
    + vm_compute. reflexivity.
Defined.

(** * Further properties *)

(** ** The empirical CDF: errors, queries that are not numbers, order of the sample *)

Lemma linspace_length start stop n : length (linspace start stop n) = n.
Proof.
  destruct n as [|[|k]]; [reflexivity | reflexivity |].
  rewrite linspace_SS, length_app, length_map, length_seq. simpl. lia.
Qed.

Lemma searchsorted_right_le l v : (searchsorted_right l v <= length l)%nat.
Proof.
  induction l as [|b l IH]; simpl; [lia|]. destruct (sort_leb b v); simpl; lia.
Qed.

Lemma sort_leb_NInf z : sort_leb NInf z = true.
Proof. destruct z; reflexivity. Qed.

Lemma getitem_in_range {A} (l : list A) c : (c < length l)%nat -> exists v, getitem l (Z.of_nat c) = Ok v.
Proof.
  intros H. destruct (lookup_lt_is_Some_2 l c H) as [v Hv].
  exists v. apply getitem_nat. exact Hv.
Qed.

Lemma Ok_inj {A} (a b : A) : Ok a = Ok b -> a = b.
Proof. intros H. congruence. Qed.

Lemma cdf_getter_nonempty (x : vec) :
  x <> [] ->
  cdf_getter x
  = Ok (fun z =>
          getitem (Fin 0 :: linspace (fdiv (Fin 1) (of_nat (length x))) (Fin 1) (length x))
                  (Z.of_nat (searchsorted_right (NInf :: sort x) z) - 1)).
Proof.
  intros Hne. unfold cdf_getter. rewrite sort_length.
  destruct (Nat.eqb_spec (length x) 0) as [E|_]; [|reflexivity].
  destruct x; [congruence | discriminate E].
Qed.

Lemma searchsorted_right_NInf l z :
  searchsorted_right (NInf :: l) z = S (searchsorted_right l z).
Proof. cbn [searchsorted_right]. rewrite sort_leb_NInf. reflexivity. Qed.

(** X1.  [cdf_getter] raises exactly on the empty sample, where it raises
    [ZeroDivisionError]; the function it returns otherwise answers every
    query, also NaN and the infinities, whatever floats the sample holds. *)
Theorem cdf_getter_total (x : vec) :
  (cdf_getter x = Raise (ZeroDivisionError "float division by zero") <-> x = [])
  /\ (forall F, cdf_getter x = Ok F -> x <> [] /\ forall z, exists v, F z = Ok v).
Proof.
  destruct x as [|a x].
  - split; [split; reflexivity|]. intros F H. discriminate H.
  - assert (a :: x <> []) as Hne by discriminate.
    rewrite (cdf_getter_nonempty (a :: x) Hne). split.
    + split; intros H; discriminate H.
    + intros F HF. apply Ok_inj in HF. subst F. split; [exact Hne|]. intros z. cbv beta.
      rewrite searchsorted_right_NInf.
      set (c := searchsorted_right (sort (a :: x)) z).
      replace (Z.of_nat (S c) - 1) with (Z.of_nat c) by lia.
      apply getitem_in_range. cbn [length]. rewrite linspace_length.
      pose proof (searchsorted_right_le (sort (a :: x)) z) as Hc. fold c in Hc.
      rewrite sort_length in Hc. simpl in Hc. lia.
Qed.

Lemma cdf_getter_total_witness :
  exists F, cdf_getter [Fin (1 # 2); NaN; PInf] = Ok F /\ forall z, exists v, F z = Ok v.
Proof.
  eexists. split; [reflexivity|].
  destruct (cdf_getter_total [Fin (1 # 2); NaN; PInf]) as [_ H].
  apply H. reflexivity.
Defined.

Lemma count_leb_perm v l l' : Permutation l l' -> count_leb v l = count_leb v l'.
Proof.
  unfold count_leb. induction 1 as [|x l l' _ IH|x y l|l l' l'' _ IH1 _ IH2]; simpl.
  - reflexivity.
  - destruct (sort_leb x v); simpl; rewrite IH; reflexivity.
  - destruct (sort_leb x v), (sort_leb y v); reflexivity.
  - rewrite IH1. exact IH2.
Qed.

(** X2.  The sample is unordered: two samples that are permutations of one
    another give functions with the same value at every query. *)
Theorem cdf_getter_permutation (x x' : vec) F F' :
  Permutation x x' -> cdf_getter x = Ok F -> cdf_getter x' = Ok F' ->
  forall z, F z = F' z.
Proof.
  intros Hp HF HF'.
  assert (x <> []) as Hne by (intros ->; discriminate HF).
  assert (x' <> []) as Hne' by (intros ->; discriminate HF').
  rewrite (cdf_getter_nonempty x Hne) in HF. rewrite (cdf_getter_nonempty x' Hne') in HF'.
  apply Ok_inj in HF. apply Ok_inj in HF'. subst F F'. intros z. cbv beta.
  rewrite !searchsorted_right_NInf.
  rewrite !searchsorted_right_count by apply sort_sorted.
  rewrite !count_leb_sort, (count_leb_perm z x x' Hp), (Permutation_length Hp). reflexivity.
Qed.

Lemma cdf_getter_permutation_witness :
  exists F F',
    cdf_getter [Fin (9 # 10); Fin (1 # 10); Fin (5 # 10)] = Ok F
    /\ cdf_getter [Fin (1 # 10); Fin (5 # 10); Fin (9 # 10)] = Ok F'
    /\ forall z, F z = F' z.
Proof.
  eexists. eexists. split; [reflexivity|]. split; [reflexivity|].
  apply (cdf_getter_permutation [Fin (9 # 10); Fin (1 # 10); Fin (5 # 10)]
           [Fin (1 # 10); Fin (5 # 10); Fin (9 # 10)]); [|reflexivity|reflexivity].
  etransitivity; [apply perm_swap|]. apply perm_skip, perm_swap.
Defined.

Lemma count_le_all xs z : (forall x, In x xs -> (x <= z)%Q) -> count_le xs z = length xs.
Proof.
  induction xs as [|x xs IH]; intros H; simpl; [reflexivity|].
  assert (Qle_bool x z = true) as -> by (apply Qle_bool_iff, H; left; reflexivity).
  rewrite IH; [reflexivity|]. intros y Hy. apply H. right. exact Hy.
Qed.

Lemma cdf_value_range c m : (0 < m)%nat -> (c <= m)%nat -> (0 <= cdf_value c m <= 1)%Q.
Proof.
  intros Hm Hc. unfold cdf_value, Qle. simpl. split; [lia|].
  rewrite Z.mul_1_r, Z.mul_1_l.
  replace (Z.pos (Pos.of_nat m)) with (Z.of_nat m); [lia|].
  destruct m; [lia|]. rewrite <- Pos.of_nat_succ. lia.
Qed.

Lemma cdf_value_full m : (0 < m)%nat -> (cdf_value m m == 1)%Q.
Proof.
  intros Hm. unfold cdf_value, Qeq. simpl. rewrite Z.mul_1_r, Z.mul_1_l.
  destruct m; [lia|]. rewrite <- Pos.of_nat_succ. lia.
Qed.

(** X3.  For a non-empty sample of numbers the values of the CDF lie in
    [[0, 1]], and the CDF is 1 at every query that no sample point
    exceeds. *)
Theorem cdf_getter_range (xs : list Q) :
  xs <> [] ->
  exists F, cdf_getter (map Fin xs) = Ok F
    /\ (forall z, exists v, F (Fin z) = Ok (Fin v) /\ (0 <= v <= 1)%Q)
    /\ (forall z, (forall x, In x xs -> (x <= z)%Q) ->
                  exists v, F (Fin z) = Ok (Fin v) /\ (v == 1)%Q).
Proof.
  intros Hne. assert (0 < length xs)%nat as Hm by (destruct xs; [congruence|simpl; lia]).
  destruct (cdf_getter_eval xs Hne) as (F & HF & Hv).
  exists F. split; [exact HF|]. split.
  - intros z. destruct (Hv z) as (v & E & Ev). exists v. split; [exact E|].
    pose proof (cdf_value_range (count_le xs z) (length xs) Hm (count_le_bound xs z)) as [H0 H1].
    rewrite Ev. split; assumption.
  - intros z Hz. destruct (Hv z) as (v & E & Ev). exists v. split; [exact E|].
    rewrite Ev, (count_le_all xs z Hz). apply cdf_value_full. exact Hm.
Qed.

Lemma cdf_getter_range_witness :
  exists F, cdf_getter (map Fin [3%Q; 1%Q]) = Ok F
    /\ (forall z, exists v, F (Fin z) = Ok (Fin v) /\ (0 <= v <= 1)%Q).
Proof.
  assert ([3%Q; 1%Q] <> []) as Hne by discriminate.
  destruct (cdf_getter_range [3%Q; 1%Q] Hne) as (F & HF & H & _).
  exists F. split; [exact HF | exact H].
Defined.

Lemma count_leb_NaN l : count_leb NaN l = length l.
Proof.
  unfold count_leb. induction l as [|b l IH]; simpl; [reflexivity|].
  assert (sort_leb b NaN = true) as -> by (destruct b; reflexivity).
  simpl. rewrite IH. reflexivity.
Qed.

Lemma count_leb_PInf xs : count_leb PInf (map Fin xs) = length xs.
Proof. unfold count_leb. induction xs as [|x xs IH]; simpl; [reflexivity|]. rewrite IH. reflexivity. Qed.

Lemma count_leb_NInf xs : count_leb NInf (map Fin xs) = O.
Proof. unfold count_leb. induction xs as [|x xs IH]; simpl; [reflexivity|]. exact IH. Qed.

Lemma cdf_getter_at (x : vec) F z :
  cdf_getter x = Ok F ->
  exists v, F z = Ok (Fin v) /\ (v == cdf_value (count_leb z x) (length x))%Q.
Proof.
  intros HF. assert (x <> []) as Hne by (intros ->; discriminate HF).
  assert (0 < length x)%nat as Hm by (destruct x; [congruence|simpl; lia]).
  rewrite (cdf_getter_nonempty x Hne) in HF. apply Ok_inj in HF. subst F. cbv beta.
  rewrite searchsorted_right_NInf, searchsorted_right_count by apply sort_sorted.
  rewrite count_leb_sort.
  replace (Z.of_nat (S (count_leb z x)) - 1) with (Z.of_nat (count_leb z x)) by lia.
  assert (count_leb z x <= length x)%nat as Hc.
  { unfold count_leb. apply filter_length_le. }
  destruct (heights_lookup (length x) (count_leb z x) Hm Hc) as (v & Hv & Ev).
  exists v. split; [apply getitem_nat; exact Hv | exact Ev].
Qed.

(** X4.  Queries that are not numbers.  A NaN query gets the value 1,
    whatever the sample; for a sample of numbers the query +inf gets 1 and
    the query -inf gets 0. *)
Theorem cdf_getter_special_queries :
  (forall (x : vec) F, cdf_getter x = Ok F -> exists v, F NaN = Ok (Fin v) /\ (v == 1)%Q)
  /\ (forall (xs : list Q) F, cdf_getter (map Fin xs) = Ok F ->
        (exists v, F PInf = Ok (Fin v) /\ (v == 1)%Q)
        /\ (exists v, F NInf = Ok (Fin v) /\ (v == 0)%Q)).
Proof.
  split.
  - intros x F HF. assert (x <> []) as Hne by (intros ->; discriminate HF).
    assert (0 < length x)%nat as Hm by (destruct x; [congruence|simpl; lia]).
    destruct (cdf_getter_at x F NaN HF) as (v & E & Ev).
    exists v. split; [exact E|]. rewrite Ev, count_leb_NaN. apply cdf_value_full. exact Hm.
  - intros xs F HF. assert (xs <> []) as Hne by (intros ->; discriminate HF).
    assert (0 < length xs)%nat as Hm by (destruct xs; [congruence|simpl; lia]).
    split.
    + destruct (cdf_getter_at _ F PInf HF) as (v & E & Ev).
      exists v. split; [exact E|].
      rewrite Ev, count_leb_PInf, length_map. apply cdf_value_full. exact Hm.
    + destruct (cdf_getter_at _ F NInf HF) as (v & E & Ev).
      exists v. split; [exact E|].
      rewrite Ev, count_leb_NInf. unfold cdf_value, Qeq. simpl. reflexivity.
Qed.

Lemma cdf_getter_special_queries_witness :
  exists F, cdf_getter [Fin (1 # 2); NaN; PInf] = Ok F
            /\ exists v, F NaN = Ok (Fin v) /\ (v == 1)%Q.
Proof.
  pose proof (cdf_getter_nonempty [Fin (1 # 2); NaN; PInf] ltac:(discriminate)) as HF.
  eexists. split; [exact HF|].
  destruct cdf_getter_special_queries as [H _].
  exact (H _ _ HF).
Defined.

(** ** The confidence band: containment, nesting, edge cases *)

Section ConfidenceBandMore.

Import RNp StatR.
Local Open Scope R_scope.

Lemma dkw_epsilon_nonneg alpha m : 0 <= dkw_epsilon alpha m.
Proof. unfold dkw_epsilon. apply sqrt_pos. Qed.


Lemma clip_mono a b : a <= b -> clip a 0 1 <= clip b 0 1.
Proof. intros H. rewrite !clip_clamp01. unfold clamp01.
  destruct (Rlt_dec a 0), (Rlt_dec 1 a), (Rlt_dec b 0), (Rlt_dec 1 b); lra. Qed.

Lemma clip_id v : 0 <= v <= 1 -> clip v 0 1 = v.
Proof. intros H. rewrite clip_clamp01. unfold clamp01.
  destruct (Rlt_dec v 0), (Rlt_dec 1 v); lra. Qed.

Lemma cdf_confidence_lookup x alpha lo hi i v :
  x <> [] -> 0 < alpha < 1 ->
  cdf_confidence x alpha = Ok (lo, hi) -> x !! i = Some v ->
  lo !! i = Some (Some (clip (v - dkw_epsilon alpha (length x)) 0 1))
  /\ hi !! i = Some (Some (clip (v + dkw_epsilon alpha (length x)) 0 1)).
Proof.
  intros Hx Ha H Hv. rewrite (cdf_confidence_eq x alpha Hx Ha) in H.
  apply Ok_inj in H. injection H as <- <-.
  rewrite !list_lookup_fmap, Hv. split; reflexivity.
Qed.

End ConfidenceBandMore.

(** X5.  The band contains the values it is built around: for a non-empty
    [x] and [alpha] in (0, 1) the lower bound is at most the upper bound at
    every position, and a value of [x] that lies in [[0, 1]] lies between
    its two bounds. *)
Theorem cdf_confidence_contains (x : list R) (alpha : R) lo hi i v :
  x <> [] -> (0 < alpha < 1)%R ->
  StatR.cdf_confidence x alpha = Ok (lo, hi) -> x !! i = Some v ->
  exists l h, lo !! i = Some (Some l) /\ hi !! i = Some (Some h)
              /\ (l <= h)%R /\ ((0 <= v <= 1)%R -> (l <= v <= h)%R).
Proof.
  intros Hx Ha H Hv.
  destruct (cdf_confidence_lookup x alpha lo hi i v Hx Ha H Hv) as [Hl Hh].
  pose proof (dkw_epsilon_nonneg alpha (length x)) as He.
  eexists. eexists. split; [exact Hl|]. split; [exact Hh|]. split.
  - apply clip_mono. lra.
  - intros Hr. rewrite <- (clip_id v Hr) at 2 3. split; apply clip_mono; lra.
Qed.

Lemma cdf_confidence_contains_witness :
  exists lo hi,
    StatR.cdf_confidence [(1 / 2)%R] (1 / 20) = Ok (lo, hi)
    /\ exists l h, lo !! 0%nat = Some (Some l) /\ hi !! 0%nat = Some (Some h)
                   /\ (l <= 1 / 2 <= h)%R.
Proof.
  assert ([(1 / 2)%R] <> []) as Hx by discriminate.
  assert (0 < 1 / 20 < 1)%R as Ha by lra.
  pose proof (cdf_confidence_eq [(1 / 2)%R] (1 / 20) Hx Ha) as E.
  eexists. eexists. split; [exact E|].
  destruct (cdf_confidence_contains [(1 / 2)%R] (1 / 20) _ _ 0 (1 / 2) Hx Ha E eq_refl)
    as (l & h & Hl & Hh & _ & Hr).
  exists l, h. split; [exact Hl|]. split; [exact Hh|]. apply Hr. lra.
Defined.



(** X7.  Edge cases of [cdf_confidence].  [alpha = 0] raises
    [ZeroDivisionError]; every other [alpha] gives two arrays as long as
    [x], so two empty arrays for an empty [x]; for a non-empty [x] the
    entries are numbers when 0 < alpha <= 2 and are all NaN when
    alpha < 0 or alpha > 2. *)
Theorem cdf_confidence_edge_cases (x : list R) (alpha : R) :
  (alpha = 0%R -> StatR.cdf_confidence x alpha = Raise (ZeroDivisionError "float division by zero"))
  /\ (alpha <> 0%R ->
      exists lo hi, StatR.cdf_confidence x alpha = Ok (lo, hi)
        /\ length lo = length x /\ length hi = length x
        /\ (x <> [] -> (0 < alpha <= 2)%R -> Forall is_Some lo /\ Forall is_Some hi)
        /\ (x <> [] -> (alpha < 0 \/ 2 < alpha)%R ->
            Forall (fun e => e = None) lo /\ Forall (fun e => e = None) hi)).
Proof.
  unfold StatR.cdf_confidence. split.
  - intros ->. destruct (Req_dec_T 0 0) as [_|N]; [reflexivity | contradiction].
  - intros Hne. destruct (Req_dec_T alpha 0) as [E|_]; [contradiction|].
    eexists. eexists. split; [reflexivity|]. rewrite !length_map.
    split; [reflexivity|]. split; [reflexivity|].
    set (eps := RNp.log (2 / alpha) ≫= _).
    split.
    + intros Hx Ha.
      assert (exists e, eps = Some e) as (e & ->).
      { unfold eps, RNp.log, RNp.divide, RNp.sqrt.
        assert (0 < 2 / alpha)%R by (apply Rdiv_lt_0_compat; lra).
        destruct (Rlt_dec 0 (2 / alpha)) as [_|N]; [|contradiction].
        cbn [mbind option_bind].
        assert (0 < INR (length x))%R by (apply lt_0_INR; destruct x; [congruence|simpl; lia]).
        destruct (Req_dec_T (2 * INR (length x)) 0) as [E|_]; [lra|].
        cbn [mbind option_bind].
        destruct (Rle_dec 0 (ln (2 / alpha) / (2 * INR (length x)))) as [_|N]; [eauto|].
        exfalso. apply N. apply Rmult_le_pos; [|apply Rlt_le, Rinv_0_lt_compat; lra].
        rewrite <- ln_1. destruct (Req_dec_T alpha 2) as [->|Hn2].
        - replace (2 / 2)%R with 1%R by lra. lra.
        - apply Rlt_le, ln_increasing; [lra|].
          apply Rmult_lt_reg_r with alpha; [lra|].
          unfold Rdiv. rewrite Rmult_assoc, Rinv_l by lra. lra. }
      split; apply Forall_map, Forall_forall; intros v _; cbn [mbind option_bind]; eauto.
    + intros Hx Ha.
      assert (eps = None) as ->.
      { unfold eps, RNp.log, RNp.divide, RNp.sqrt.
        destruct (Rlt_dec 0 (2 / alpha)) as [Hpos|_]; [|reflexivity].
        cbn [mbind option_bind].
        assert (0 < alpha)%R as Hal.
        { destruct Ha as [Ha|Ha]; [|lra]. exfalso.
          assert (2 / alpha < 0)%R; [|lra].
          unfold Rdiv. rewrite <- (Rmult_0_r 2). apply Rmult_lt_compat_l; [lra|].
          apply Rinv_lt_0_compat. exact Ha. }
        assert (2 < alpha)%R as H2 by (destruct Ha; lra).
        assert (0 < INR (length x))%R by (apply lt_0_INR; destruct x; [congruence|simpl; lia]).
        destruct (Req_dec_T (2 * INR (length x)) 0) as [E|_]; [lra|].
        cbn [mbind option_bind].
        destruct (Rle_dec 0 (ln (2 / alpha) / (2 * INR (length x)))) as [Hle|_]; [|reflexivity].
        exfalso.
        assert (ln (2 / alpha) < 0)%R as Hln.
        { rewrite <- ln_1. apply ln_increasing; [exact Hpos|].
          apply Rmult_lt_reg_r with alpha; [lra|].
          unfold Rdiv. rewrite Rmult_assoc, Rinv_l by lra. lra. }
        assert (ln (2 / alpha) / (2 * INR (length x)) < 0)%R; [|lra].
        unfold Rdiv. rewrite <- (Rmult_0_l (/ (2 * INR (length x)))).
        apply Rmult_lt_compat_r; [apply Rinv_0_lt_compat; lra | exact Hln]. }
      split; apply Forall_map, Forall_forall; intros v _; reflexivity.
Qed.

Lemma cdf_confidence_edge_cases_witness :
  StatR.cdf_confidence [(1 / 2)%R] 0 = Raise (ZeroDivisionError "float division by zero")
  /\ exists lo hi, StatR.cdf_confidence [] 3 = Ok (lo, hi) /\ length lo = 0%nat /\ length hi = 0%nat.
Proof.
  split.
  - destruct (cdf_confidence_edge_cases [(1 / 2)%R] 0) as [H _]. apply H. reflexivity.
  - destruct (cdf_confidence_edge_cases [] 3) as [_ H].
    destruct (H ltac:(lra)) as (lo & hi & E & L1 & L2 & _).
    exists lo, hi. split; [exact E|]. split; assumption.
Defined.

(** ** [_extend_core]: grid points, degenerate sizes, range, linearity *)






(** X10.  What [_extend_core] raises: a negative size is the [ValueError]
    of [np.empty], a size that is not an integer its [TypeError], and a
    core with no point along the mode axis but with fibres is the
    [ValueError] of [np.interp]. *)
Theorem extend_core_errors uninit G r1 nold r2 :
  shape3 G = (r1, nold, r2) ->
  (forall n, n < 0 ->
     _extend_core uninit G (PyInt n) = Raise (ValueError "negative dimensions are not allowed"))
  /\ (forall v, (forall k, v <> PyInt k) ->
        _extend_core uninit G v = Raise (TypeError "object cannot be interpreted as an integer"))
  /\ (forall n, 0 <= n -> nold = O -> (0 < r1)%nat -> (0 < r2)%nat ->
        _extend_core uninit G (PyInt n) = Raise (ValueError "array of sample points is empty")).
Proof.
  intros HG. unfold _extend_core. rewrite HG. split; [|split].
  - intros n Hn. unfold empty3. cbn [Py.index mbind result_bind rbind].
    destruct (Z.ltb_spec n 0) as [_|?]; [reflexivity | lia].
  - intros v Hv. destruct v as [|k|q|s|s]; try reflexivity.
    exfalso. apply (Hv k). reflexivity.
  - intros n Hn -> H1 H2. unfold empty3. cbn [Py.index mbind result_bind rbind].
    destruct (Z.ltb_spec n 0) as [?|_]; [lia|].
    destruct r1 as [|r1]; [lia|]. destruct r2 as [|r2]; [lia|]. reflexivity.
Qed.

Lemma extend_core_errors_witness :
  _extend_core uninit_nan (core_of_list [1%Q; 2%Q]) (PyInt (-1))
  = Raise (ValueError "negative dimensions are not allowed")
  /\ _extend_core uninit_nan (core_of_list [1%Q; 2%Q]) (PyFloat 3)
     = Raise (TypeError "object cannot be interpreted as an integer").
Proof.
  destruct (extend_core_errors uninit_nan (core_of_list [1%Q; 2%Q]) 1 2 1 eq_refl) as (H1 & H2 & _).
  split; [apply H1; lia | apply H2; discriminate].
Defined.

(** X11.  The two degenerate sizes.  Size 0 gives a core with no point
    along the mode axis.  Size 1 has the one query point 0/0, a NaN: for a
    core with one point [np.interp] returns that point whatever the query,
    so the core comes back as it is; for a core with more points every
    entry of the result is NaN. *)
Theorem extend_core_degenerate_sizes uninit G r1 nold r2 :
  shape3 G = (r1, nold, r2) -> (0 < nold)%nat ->
  (exists Gn, _extend_core uninit G (PyInt 0) = Ok Gn /\ shape3 Gn = (r1, O, r2))
  /\ (exists Gn, _extend_core uninit G (PyInt 1) = Ok Gn /\ shape3 Gn = (r1, 1%nat, r2)
        /\ forall a b, (a < r1)%nat -> (b < r2)%nat ->
             at3 Gn a 0 b = if Nat.eqb nold 1 then at3 G a 0 b else NaN).
Proof.
  intros HG Hd. split.
  - destruct (extend_core_eq uninit G r1 nold r2 0 HG ltac:(lia) ltac:(left; lia))
      as (Gn & E & Hs & _).
    exists Gn. split; [exact E | exact Hs].
  - destruct (extend_core_eq uninit G r1 nold r2 1 HG ltac:(lia) ltac:(left; lia))
      as (Gn & E & Hs & Ha).
    exists Gn. split; [exact E|]. split; [exact Hs|].
    intros a b Hlt1 Hlt2. rewrite (Ha a 0%nat b Hlt1 Hlt2).
    change (extended_entry G (query_points 1 nold) nold a 0 b)
      with (interp1 (map of_nat (seq 0 nold)) (slice_mode G a b) NaN).
    destruct (Nat.eqb_spec nold 1) as [->|Hne].
    + rewrite interp1_one_point;
        [|reflexivity | apply (slice_mode_length G r1 1 r2 a b HG)].
      pose proof (slice_mode_lookup G r1 1 r2 a b 0 HG ltac:(lia)) as Hl.
      destruct (slice_mode G a b); [discriminate Hl|]. injection Hl as ->. reflexivity.
    + unfold interp1. rewrite knots_length.
      destruct (Nat.eqb_spec nold 1) as [?|_]; [contradiction | reflexivity].
Qed.

Lemma extend_core_degenerate_sizes_witness :
  (exists Gn, _extend_core uninit_nan (core_of_list [1%Q; 2%Q]) (PyInt 1) = Ok Gn
              /\ at3 Gn 0 0 0 = NaN)
  /\ (exists Gn, _extend_core uninit_nan (core_of_list [5%Q]) (PyInt 1) = Ok Gn
                 /\ at3 Gn 0 0 0 = Fin 5).
Proof.
  split.
  - destruct (extend_core_degenerate_sizes uninit_nan (core_of_list [1%Q; 2%Q]) 1 2 1
                eq_refl ltac:(lia)) as (_ & Gn & E & _ & H).
    exists Gn. split; [exact E|]. apply (H 0%nat 0%nat); lia.
  - destruct (extend_core_degenerate_sizes uninit_nan (core_of_list [5%Q]) 1 1 1
                eq_refl ltac:(lia)) as (_ & Gn & E & _ & H).
    exists Gn. split; [exact E|]. apply (H 0%nat 0%nat); lia.
Defined.

(** ** [_extend_core]: refining and coarsening again; no uninitialised entry *)



(** X13.  No entry of the array that [np.empty] returns survives in the
    result of [_extend_core]: for a core with at least one point along the
    mode axis, the call returns, and what it returns does not depend on
    what the uninitialised memory held. *)
Theorem extend_core_overwrites_empty uninit uninit' G r1 nold r2 (n : Z) :
  shape3 G = (r1, nold, r2) -> 0 <= n -> (0 < nold)%nat ->
  exists Gn Gn',
    _extend_core uninit G (PyInt n) = Ok Gn
    /\ _extend_core uninit' G (PyInt n) = Ok Gn'
    /\ shape3 Gn = (r1, Z.to_nat n, r2) /\ shape3 Gn' = (r1, Z.to_nat n, r2)
    /\ forall a j b, (a < r1)%nat -> (j < Z.to_nat n)%nat -> (b < r2)%nat ->
         at3 Gn a j b = at3 Gn' a j b.
Proof.
  intros HG Hn Hd.
  destruct (extend_core_eq uninit G r1 nold r2 n HG Hn (or_introl Hd)) as (Gn & E & Hs & Ha).
  destruct (extend_core_eq uninit' G r1 nold r2 n HG Hn (or_introl Hd)) as (Gn' & E' & Hs' & Ha').
  exists Gn, Gn'. split; [exact E|]. split; [exact E'|]. split; [exact Hs|]. split; [exact Hs'|].
  intros a j b Hlt1 _ Hlt2. rewrite (Ha a j b Hlt1 Hlt2), (Ha' a j b Hlt1 Hlt2). reflexivity.
Qed.

Lemma extend_core_overwrites_empty_witness :
  exists Gn Gn',
    _extend_core uninit_nan (core_of_list [1%Q; 2%Q; 0%Q]) (PyInt 5) = Ok Gn
    /\ _extend_core (fun _ => Fin 7) (core_of_list [1%Q; 2%Q; 0%Q]) (PyInt 5) = Ok Gn'
    /\ forall j, (j < 5)%nat -> at3 Gn 0 j 0 = at3 Gn' 0 j 0.
Proof.
  destruct (extend_core_overwrites_empty uninit_nan (fun _ => Fin 7)
              (core_of_list [1%Q; 2%Q; 0%Q]) 1 3 1 5 eq_refl ltac:(lia) ltac:(lia))
    as (Gn & Gn' & E & E' & _ & _ & H).
  exists Gn, Gn'. split; [exact E|]. split; [exact E'|].
  intros j Hj. apply H; [lia | exact Hj | lia].
Defined.

(** A finite core, entry by entry. *)
Lemma extend_core_lerp uninit (g : nat -> nat -> nat -> Q) r1 nold r2 n Gn :
  (1 < n)%nat -> (0 < nold)%nat ->
  _extend_core uninit (Arr3 (r1, nold, r2) (fun a j b => Fin (g a j b))) (PyInt (Z.of_nat n))
  = Ok Gn ->
  forall a j b, (a < r1)%nat -> (j < n)%nat -> (b < r2)%nat ->
    exists v, at3 Gn a j b = Fin v
              /\ (v == lerp (fun k => g a k b) nold (even_point n nold j))%Q.
Proof.
  intros Hn Hd E0 a j b Hlt1 Hj Hlt2.
  set (G := Arr3 (r1, nold, r2) (fun a j b => Fin (g a j b))) in *.
  destruct (extend_core_eq uninit G r1 nold r2 (Z.of_nat n) eq_refl ltac:(lia) (or_introl Hd))
    as (Gn' & E & Hs & Ha).
  rewrite E0 in E. apply Ok_inj in E. subst Gn'.
  rewrite (Ha a j b Hlt1 Hlt2).
  rewrite extended_entry_query by lia.
  destruct (even_point_range n nold j Hn Hd Hj) as [R0 R1].
  apply interp1_lerp.
  - exact Hd.
  - apply even_point_eq.
  - rewrite even_point_eq. exact R0.
  - rewrite even_point_eq. exact R1.
Qed.

Lemma extend_core_finite_ok uninit (g : nat -> nat -> nat -> Q) r1 nold r2 (n : nat) :
  (0 < nold)%nat ->
  exists Gn,
    _extend_core uninit (Arr3 (r1, nold, r2) (fun a j b => Fin (g a j b))) (PyInt (Z.of_nat n))
    = Ok Gn.
Proof.
  intros Hd.
  destruct (extend_core_eq uninit (Arr3 (r1, nold, r2) (fun a j b => Fin (g a j b)))
              r1 nold r2 (Z.of_nat n) eq_refl ltac:(lia) (or_introl Hd)) as (Gn & E & _).
  exists Gn. exact E.
Qed.

Lemma lerp_between (y : nat -> Q) nold x lo hi :
  (0 < nold)%nat -> (0 <= x)%Q ->
  (forall k, (k < nold)%nat -> (lo <= y k)%Q /\ (y k <= hi)%Q) ->
  (lo <= lerp y nold x)%Q /\ (lerp y nold x <= hi)%Q.
Proof.
  intros Hd Hx Hy. unfold lerp.
  assert (0 <= Qfloor x) as Hf0.
  { change 0 with (Qfloor 0%Q). apply Qfloor_resp_le. exact Hx. }
  set (k := Z.to_nat (Qfloor x)).
  assert (Z.of_nat k = Qfloor x) as Hk by (unfold k; lia).
  destruct (Nat.ltb_spec (S k) nold) as [Hlt|Hge].
  - destruct (Hy k ltac:(lia)) as [A1 A2]. destruct (Hy (S k) Hlt) as [B1 B2].
    assert (0 <= x - inject_Z (Z.of_nat k))%Q as T0.
    { rewrite Hk. pose proof (Qfloor_le x). lra. }
    assert (x - inject_Z (Z.of_nat k) <= 1)%Q as T1.
    { rewrite Hk. pose proof (Qlt_floor x) as H. rewrite inject_Z_plus in H.
      change (inject_Z 1) with 1%Q in H. lra. }
    set (t := (x - inject_Z (Z.of_nat k))%Q) in *.
    split; nra.
  - apply Hy. lia.
Qed.

(** X14.  In exact arithmetic (neither the rounding nor the overflow of
    float64 is modelled) interpolation does not leave the range of the
    data: when the entries of a fibre of a finite core all lie between
    [lo] and [hi], so do the entries of that fibre in the core that
    [_extend_core] returns.  In particular a constant fibre stays
    constant. *)
Theorem extend_core_within_range uninit (g : nat -> nat -> nat -> Q) r1 nold r2 n a b lo hi :
  (1 < n)%nat -> (0 < nold)%nat -> (a < r1)%nat -> (b < r2)%nat ->
  (forall k, (k < nold)%nat -> (lo <= g a k b)%Q /\ (g a k b <= hi)%Q) ->
  exists Gn,
    _extend_core uninit (Arr3 (r1, nold, r2) (fun a j b => Fin (g a j b))) (PyInt (Z.of_nat n))
    = Ok Gn
    /\ forall j, (j < n)%nat ->
         exists v, at3 Gn a j b = Fin v /\ (lo <= v)%Q /\ (v <= hi)%Q.
Proof.
  intros Hn Hd Hlt1 Hlt2 Hy.
  destruct (extend_core_finite_ok uninit g r1 nold r2 n Hd) as (Gn & E).
  exists Gn. split; [exact E|]. intros j Hj.
  destruct (extend_core_lerp uninit g r1 nold r2 n Gn Hn Hd E a j b Hlt1 Hj Hlt2)
    as (v & Hv & Hl).
  exists v. split; [exact Hv|]. rewrite Hl.
  apply lerp_between; [exact Hd | apply (even_point_range n nold j Hn Hd Hj) | exact Hy].
Qed.

Lemma extend_core_within_range_witness :
  exists Gn,
    _extend_core uninit_nan (Arr3 (1, 3, 1)%nat (fun _ j _ => Fin (nth j [1%Q; 2%Q; 0%Q] 0%Q)))
      (PyInt 5) = Ok Gn
    /\ forall j, (j < 5)%nat -> exists v, at3 Gn 0 j 0 = Fin v /\ (0 <= v)%Q /\ (v <= 2)%Q.
Proof.
  apply (extend_core_within_range uninit_nan (fun _ j _ => nth j [1%Q; 2%Q; 0%Q] 0%Q)
           1 3 1 5 0 0 0%Q 2%Q); try lia.
  intros k Hk. destruct k as [|[|[|k]]]; [| | |lia]; simpl; split; discriminate.
Defined.

Lemma lerp_linear (y z : nat -> Q) c nold x :
  (lerp (fun k => c * y k + z k) nold x == c * lerp y nold x + lerp z nold x)%Q.
Proof.
  unfold lerp. destruct (S (Z.to_nat (Qfloor x)) <? nold)%nat; ring.
Qed.

(** X15.  [_extend_core] is linear in the core: on finite cores of one
    shape, the extension of [c * G + H] is [c] times the extension of [G]
    plus the extension of [H], entry by entry. *)
Theorem extend_core_linear uninit (g h : nat -> nat -> nat -> Q) (c : Q) r1 nold r2 n :
  (1 < n)%nat -> (0 < nold)%nat ->
  exists Gg Gh Gs,
    _extend_core uninit (Arr3 (r1, nold, r2) (fun a j b => Fin (g a j b))) (PyInt (Z.of_nat n))
    = Ok Gg
    /\ _extend_core uninit (Arr3 (r1, nold, r2) (fun a j b => Fin (h a j b))) (PyInt (Z.of_nat n))
       = Ok Gh
    /\ _extend_core uninit (Arr3 (r1, nold, r2) (fun a j b => Fin (c * g a j b + h a j b)))
         (PyInt (Z.of_nat n))
       = Ok Gs
    /\ forall a j b, (a < r1)%nat -> (j < n)%nat -> (b < r2)%nat ->
         exists vg vh vs,
           at3 Gg a j b = Fin vg /\ at3 Gh a j b = Fin vh /\ at3 Gs a j b = Fin vs
           /\ (vs == c * vg + vh)%Q.
Proof.
  intros Hn Hd.
  destruct (extend_core_finite_ok uninit g r1 nold r2 n Hd) as (Gg & Eg).
  destruct (extend_core_finite_ok uninit h r1 nold r2 n Hd) as (Gh & Eh).
  destruct (extend_core_finite_ok uninit (fun a j b => c * g a j b + h a j b)%Q r1 nold r2 n Hd)
    as (Gs & Es).
  exists Gg, Gh, Gs. split; [exact Eg|]. split; [exact Eh|]. split; [exact Es|].
  intros a j b Hlt1 Hj Hlt2.
  destruct (extend_core_lerp uninit g r1 nold r2 n Gg Hn Hd Eg a j b Hlt1 Hj Hlt2)
    as (vg & Hvg & Hlg).
  destruct (extend_core_lerp uninit h r1 nold r2 n Gh Hn Hd Eh a j b Hlt1 Hj Hlt2)
    as (vh & Hvh & Hlh).
  destruct (extend_core_lerp uninit _ r1 nold r2 n Gs Hn Hd Es a j b Hlt1 Hj Hlt2)
    as (vs & Hvs & Hls).
  exists vg, vh, vs. split; [exact Hvg|]. split; [exact Hvh|]. split; [exact Hvs|].
  rewrite Hls, Hlg, Hlh. apply lerp_linear.
Qed.

Lemma extend_core_linear_witness :
  exists Gg Gh Gs,
    _extend_core uninit_nan (Arr3 (1, 3, 1)%nat (fun _ j _ => Fin (nth j [1%Q; 2%Q; 0%Q] 0%Q)))
      (PyInt 5) = Ok Gg
    /\ _extend_core uninit_nan (Arr3 (1, 3, 1)%nat (fun _ j _ => Fin (nth j [0%Q; 1%Q; 5%Q] 0%Q)))
         (PyInt 5) = Ok Gh
    /\ _extend_core uninit_nan
         (Arr3 (1, 3, 1)%nat
            (fun _ j _ => Fin (3 * nth j [1%Q; 2%Q; 0%Q] 0%Q + nth j [0%Q; 1%Q; 5%Q] 0%Q)))
         (PyInt 5) = Ok Gs
    /\ forall a j b, (a < 1)%nat -> (j < 5)%nat -> (b < 1)%nat ->
         exists vg vh vs,
           at3 Gg a j b = Fin vg /\ at3 Gh a j b = Fin vh /\ at3 Gs a j b = Fin vs
           /\ (vs == 3 * vg + vh)%Q.
Proof.
  apply (extend_core_linear uninit_nan (fun _ j _ => nth j [1%Q; 2%Q; 0%Q] 0%Q)
           (fun _ j _ => nth j [0%Q; 1%Q; 5%Q] 0%Q) 3 1 3 1 5); lia.
Defined.

(** ** The sampler: which rows are drawn, which indices are stored *)

Lemma getitem_nat_inv {A} (l : list A) c v : getitem l (Z.of_nat c) = Ok v -> l !! c = Some v.
Proof.
  unfold getitem. cbv zeta.
  destruct (Z.ltb_spec (Z.of_nat c) 0) as [?|_]; [lia|].
  destruct (_ || _); [discriminate|]. rewrite Nat2Z.id.
  destruct (l !! c); [intros [= ->]; reflexivity | discriminate].
Qed.

Lemma take_rows_inv {A} (a : list A) ind rs :
  take_rows a ind = Ok rs -> Forall2 (fun i r => a !! i = Some r) ind rs.
Proof.
  revert rs. induction ind as [|i ind IH]; intros rs H.
  - injection H as <-. constructor.
  - cbn [take_rows] in H.
    destruct (getitem a (Z.of_nat i)) as [r|] eqn:Eg; [|discriminate H].
    cbn [mbind result_bind rbind] in H.
    destruct (take_rows a ind) as [rs0|]; [|discriminate H].
    cbn [mbind result_bind rbind] in H. injection H as <-.
    constructor; [apply getitem_nat_inv; exact Eg | apply IH; reflexivity].
Qed.

Lemma random_samples_ok k rs :
  exists us rs', random_samples k rs = (Ok us, rs') /\ length us = k
                 /\ words rs' = words rs /\ used rs' = (used rs + k)%nat.
Proof.
  revert rs. induction k as [|k IH]; intros rs.
  - exists [], rs. split; [reflexivity|]. split; [reflexivity|]. split; [reflexivity | lia].
  - destruct (IH {| words := words rs; used := S (used rs) |}) as (us & rs' & E & L & W & U).
    cbn [words used] in W, U.
    eexists (_ :: us), rs'. split.
    + cbn [random_samples]. unfold random_sample, next_word.
      unfold mbind, M_bind, mbind', mret, M_ret, mpure.
      cbv beta iota. rewrite E. reflexivity.
    + split; [simpl; lia|]. split; [exact W | lia].
Qed.

(** A draw that succeeds: the size is not negative, one index per sample,
    one word of the generator per sample. *)
Lemma choice_ok_inv a size p rs ind rs' :
  choice a size p rs = (Ok ind, rs') ->
  0 <= size /\ length ind = Z.to_nat size
  /\ words rs' = words rs /\ used rs' = (used rs + Z.to_nat size)%nat.
Proof.
  unfold choice, mraise. cbv zeta.
  destruct (_ && _); [discriminate|].
  destruct (negb _); [discriminate|].
  destruct (is_nan _); [discriminate|].
  destruct (existsb _ _); [discriminate|].
  destruct (_ || _); [discriminate|].
  destruct (Z.ltb_spec size 0) as [?|Hs]; [discriminate|].
  destruct (random_samples_ok (Z.to_nat size) rs) as (us & s & E & L & W & U).
  unfold mbind, M_bind, mbind'. rewrite E. intros H.
  apply mret_ok_inv in H as [-> ->].
  split; [exact Hs|]. split; [rewrite length_map; exact L|]. split; [exact W | exact U].
Qed.

(** X16.  [_sample_core_first] draws rows of [Q] and of [I] together: a
    call that returns gives [m] rows of each, the [k]-th row of both taken
    at one and the same position of [Q] and of [I], and has consumed [m]
    words of the random generator. *)
Theorem sample_core_first_paired (Q I : mat) (m : Z) rs Q' I' rs' :
  _sample_core_first Q I m rs = (Ok (Q', I'), rs') ->
  0 <= m
  /\ length (rows Q') = Z.to_nat m /\ length (rows I') = Z.to_nat m
  /\ cols Q' = cols Q /\ cols I' = cols I
  /\ used rs' = (used rs + Z.to_nat m)%nat
  /\ forall k, (k < Z.to_nat m)%nat ->
       exists i q r, rows Q' !! k = Some q /\ rows Q !! i = Some q
                     /\ rows I' !! k = Some r /\ rows I !! i = Some r.
Proof.
  unfold _sample_core_first. cbv zeta. intros H.
  minv H as ind s1 Hc.
  minv H as Qs s2 HQ. mlift_inv HQ.
  minv H as Is s3 HI. mlift_inv HI.
  apply mret_ok_inv in H as [[= -> ->] ->].
  apply choice_ok_inv in Hc as (Hm & Hl & _ & Hu).
  apply take_rows_inv in HQ. apply take_rows_inv in HI.
  pose proof (Forall2_length _ _ _ HQ) as LQ. pose proof (Forall2_length _ _ _ HI) as LI.
  cbn [rows cols].
  split; [exact Hm|]. split; [lia|]. split; [lia|]. split; [reflexivity|].
  split; [reflexivity|]. split; [exact Hu|].
  intros k Hk.
  destruct (lookup_lt_is_Some_2 ind k ltac:(lia)) as [i Hi].
  destruct (Forall2_lookup_l _ _ _ _ _ HQ Hi) as (q & Hq & Hq').
  destruct (Forall2_lookup_l _ _ _ _ _ HI Hi) as (r & Hr & Hr').
  exists i, q, r. repeat split; assumption.
Qed.

Lemma sample_core_first_paired_witness :
  exists Q' I' rs',
    _sample_core_first (Mat 1 [[Fin 1]; [Fin 2]]) (_range 2) 3 rs0 = (Ok (Q', I'), rs')
    /\ length (rows Q') = 3%nat /\ length (rows I') = 3%nat /\ used rs' = (used rs0 + 3)%nat.
Proof.
  destruct (_sample_core_first (Mat 1 [[Fin 1]; [Fin 2]]) (_range 2) 3 rs0) as [[[Q' I']|e] rs'] eqn:E;
    [|vm_compute in E; discriminate E].
  exists Q', I', rs'. split; [reflexivity|].
  destruct (sample_core_first_paired _ _ _ _ _ _ _ E) as (_ & L1 & L2 & _ & _ & U & _).
  split; [exact L1|]. split; [exact L2 | exact U].
Defined.

(** ** The sampler: a row of zero weight is never drawn *)

Lemma foldl_fadd_nan l : foldl fadd NaN l = NaN.
Proof. induction l as [|y l IH]; simpl; [reflexivity | exact IH]. Qed.

Lemma fadd_nan_r a : fadd a NaN = NaN.
Proof. destruct a; reflexivity. Qed.

Lemma sum_has_nan acc l : NaN ∈ l -> foldl fadd acc l = NaN.
Proof.
  revert acc. induction l as [|x l IH]; intros acc H; [inversion H|].
  apply elem_of_cons in H as [<-|H]; simpl.
  - rewrite fadd_nan_r. apply foldl_fadd_nan.
  - apply IH. exact H.
Qed.

Lemma cumsum_running_sums a l : cumsum (a :: l) = a :: running_sums a l.
Proof.
  unfold cumsum.
  assert (forall l acc out,
            snd (foldl (fun '(acc, out) b => (fadd acc b, out ++ [fadd acc b])) (acc, out) l)
            = out ++ running_sums acc l) as H.
  { clear. induction l as [|b l IH]; intros acc out; simpl.
    - rewrite app_nil_r. reflexivity.
    - rewrite IH, <- app_assoc. reflexivity. }
  rewrite H. reflexivity.
Qed.

Lemma running_sums_lookup acc l j b :
  l !! j = Some b ->
  exists c, (acc :: running_sums acc l) !! j = Some c
            /\ (acc :: running_sums acc l) !! S j = Some (fadd c b).
Proof.
  revert acc j. induction l as [|x l IH]; intros acc j H; [discriminate H|].
  destruct j as [|j].
  - injection H as ->. exists acc. split; reflexivity.
  - destruct (IH (fadd acc x) j H) as (c & H1 & H2). exists c. split; [exact H1 | exact H2].
Qed.

Lemma feq_fadd acc acc' b :
  feq acc' acc -> is_nan (fadd acc b) = false -> feq (fadd acc' b) (fadd acc b).
Proof.
  unfold feq. destruct acc as [p| | |], acc' as [p'| | |], b as [q| | |];
    simpl; intros H Hn; try discriminate; try reflexivity.
  apply Qeq_bool_iff in H. apply Qeq_bool_iff. rewrite H. reflexivity.
Qed.

Lemma last_running_sums l acc acc' :
  is_nan (foldl fadd acc l) = false -> feq acc' acc ->
  feq (default NaN (last (acc' :: running_sums acc' l))) (foldl fadd acc l).
Proof.
  revert acc acc'. induction l as [|b l IH]; intros acc acc' Hn Hf; [exact Hf|].
  cbn [running_sums foldl].
  change (last (acc' :: fadd acc' b :: running_sums (fadd acc' b) l))
    with (last (fadd acc' b :: running_sums (fadd acc' b) l)).
  apply IH; [exact Hn|]. apply feq_fadd; [exact Hf|].
  cbn [foldl] in Hn. destruct (fadd acc b) eqn:E; try reflexivity.
  rewrite foldl_fadd_nan in Hn. discriminate Hn.
Qed.

Lemma last_cumsum a l :
  is_nan (sum (a :: l)) = false -> feq (default NaN (last (cumsum (a :: l)))) (sum (a :: l)).
Proof.
  intros Hn. rewrite cumsum_running_sums. unfold sum in *. cbn [foldl] in *.
  apply last_running_sums; [exact Hn|].
  destruct a as [p| | |]; try reflexivity.
  - unfold feq. simpl. apply Qeq_bool_iff. ring.
  - simpl in Hn. rewrite foldl_fadd_nan in Hn. discriminate Hn.
Qed.

Lemma searchsorted_right_spec l u :
  (forall j x, (j < searchsorted_right l u)%nat -> l !! j = Some x -> sort_leb x u = true)
  /\ (forall x, l !! searchsorted_right l u = Some x -> sort_leb x u = false).
Proof.
  induction l as [|b l [IH1 IH2]]; cbn [searchsorted_right].
  - split; [intros; lia | intros x H; discriminate H].
  - destruct (sort_leb b u) eqn:E.
    + split.
      * intros [|j] x Hj Hx; [injection Hx as <-; exact E|]. apply (IH1 j x); [lia | exact Hx].
      * intros x Hx. apply IH2. exact Hx.
    + split; [intros; lia|]. intros x [= <-]. exact E.
Qed.

Lemma random_samples_nonneg k rs us rs' :
  random_samples k rs = (Ok us, rs') -> Forall (fun u => exists q, u = Fin q /\ (0 <= q)%Q) us.
Proof.
  revert rs us rs'. induction k as [|k IH]; intros rs us rs' H.
  - injection H as <- _. constructor.
  - cbn [random_samples] in H.
    minv H as u s1 Hu. minv H as us0 s2 Hus.
    apply mret_ok_inv in H as [-> _].
    constructor; [|eapply IH; exact Hus].
    unfold random_sample in Hu. minv Hu as w s0 Hw.
    apply mret_ok_inv in Hu as [-> _].
    eexists. split; [reflexivity|]. unfold Qle. cbn [Qnum Qden].
    rewrite Z.mul_0_l, Z.mul_1_r. apply N2Z.is_nonneg.
Qed.

(** One draw never lands on an index of weight 0. *)
Lemma choice_skips_zero a size p rs ind rs' i q :
  choice a size p rs = (Ok ind, rs') -> i ∈ ind -> p !! i = Some (Fin q) -> (q == 0)%Q -> False.
Proof.
  unfold choice, mraise. cbv zeta.
  destruct (_ && _); [discriminate|].
  destruct (negb _); [discriminate|].
  destruct (is_nan (sum p)) eqn:E3; [discriminate|].
  destruct (existsb _ _); [discriminate|].
  destruct (_ || _) eqn:E5; [discriminate|].
  destruct (size <? 0); [discriminate|].
  intros H Hi Hp Hq.
  minv H as us s1 Hus. apply mret_ok_inv in H as [-> _].
  apply random_samples_nonneg in Hus.
  apply list_elem_of_fmap in Hi as (u & Hi & Hu).
  rewrite Forall_forall in Hus. destruct (Hus u Hu) as (v & -> & Hv).
  destruct p as [|a0 l]; [discriminate Hp|].
  pose proof (last_cumsum a0 l E3) as HL.
  set (L := default NaN (last (cumsum (a0 :: l)))) in *.
  (* the sum of the weights is a number close to 1 *)
  apply orb_false_iff in E5 as [E5 E6].
  destruct (sum (a0 :: l)) as [s| | |] eqn:Es; try discriminate.
  destruct L as [s'| | |] eqn:EL; try discriminate HL.
  unfold feq in HL. simpl in HL. apply Qeq_bool_iff in HL.
  assert (~ (s' == 0)%Q) as Hs'.
  { intros Hz. rewrite Hz in HL. unfold choice_atol, fsub, fneg, fadd, fltb in E6.
    destruct (Qlt_le_dec (1 # 2 ^ 26) (1 + - s)) as [?|Hle]; [discriminate E6|].
    rewrite <- HL in Hle. revert Hle. unfold Qle. simpl. lia. }
  assert (Qeq_bool s' 0 = false) as Hs'b.
  { destruct (Qeq_bool s' 0) eqn:Eb; [|reflexivity]. apply Qeq_bool_iff in Eb. contradiction. }
  destruct (searchsorted_right_spec (map (fun x => fdiv x (Fin s')) (cumsum (a0 :: l))) (Fin v))
    as [S1 S2].
  rewrite <- Hi in S1, S2. rewrite cumsum_running_sums in S1, S2.
  destruct i as [|j].
  - injection Hp as ->. specialize (S2 _ eq_refl).
    unfold fdiv in S2. rewrite Hs'b in S2. rewrite sort_leb_Fin in S2.
    assert (Qle_bool (q / s') v = true) as Hle; [|congruence].
    apply Qle_bool_iff. rewrite Hq. unfold Qdiv. rewrite Qmult_0_l. exact Hv.
  - cbn [lookup list_lookup] in Hp. change (l !! j = Some (Fin q)) in Hp.
    destruct (running_sums_lookup a0 l j (Fin q) Hp) as (c & Hc1 & Hc2).
    assert (sort_leb (fdiv c (Fin s')) (Fin v) = true) as T1.
    { apply (S1 j); [lia|]. rewrite list_lookup_fmap, Hc1. reflexivity. }
    assert (sort_leb (fdiv (fadd c (Fin q)) (Fin s')) (Fin v) = false) as T2.
    { apply S2. rewrite list_lookup_fmap, Hc2. reflexivity. }
    destruct c as [x| | |]; simpl in T1, T2; try congruence.
    rewrite Hs'b in T1, T2. rewrite sort_leb_Fin in T1, T2.
    apply Qle_bool_iff in T1.
    assert (Qle_bool ((x + q) / s') v = true) as T3; [|congruence].
    apply Qle_bool_iff. rewrite Hq, Qplus_0_r. exact T1.
Qed.

Lemma choice_no_nan a size p rs ind rs' :
  choice a size p rs = (Ok ind, rs') -> NaN ∉ p.
Proof.
  unfold choice, mraise. cbv zeta.
  destruct (_ && _); [discriminate|].
  destruct (negb _); [discriminate|].
  destruct (is_nan (sum p)) eqn:E3; [discriminate|].
  intros _ Hn. unfold sum in E3. rewrite (sum_has_nan _ _ Hn) in E3. discriminate E3.
Qed.

(** X17.  [_sample_core_first] never draws a row of weight zero: every row
    of [Q] that it returns has a squared norm different from 0. *)
Theorem sample_core_first_skips_zero_rows (Q I : mat) (m : Z) rs Q' I' rs' :
  _sample_core_first Q I m rs = (Ok (Q', I'), rs') ->
  forall q, q ∈ rows Q' -> ~ feq (sum (map (fun x => fmul x x) q)) (Fin 0).
Proof.
  unfold _sample_core_first. cbv zeta. intros H q Hq Hz.
  minv H as ind s1 Hc.
  minv H as Qs s2 HQ. mlift_inv HQ.
  minv H as Is s3 HI. mlift_inv HI.
  apply mret_ok_inv in H as [[= -> ->] ->]. cbn [rows] in Hq.
  apply take_rows_inv in HQ.
  apply list_elem_of_lookup in Hq as [k Hk].
  destruct (Forall2_lookup_r _ _ _ _ _ HQ Hk) as (i & Hi & Hrow).
  pose proof (choice_no_nan _ _ _ _ _ _ Hc) as Hnan.
  assert (normalize (sum_sq_axis1 (rows Q)) !! i
          = Some (fdiv (sum (map (fun x => fmul x x) q)) (sum (sum_sq_axis1 (rows Q))))) as Hp.
  { unfold normalize, sum_sq_axis1. rewrite !list_lookup_fmap, Hrow. reflexivity. }
  unfold feq in Hz.
  destruct (sum (map (fun x => fmul x x) q)) as [z| | |]; try discriminate Hz.
  simpl in Hz. apply Qeq_bool_iff in Hz.
  assert (i ∈ ind) as Hin by (eapply list_elem_of_lookup_2; exact Hi).
  destruct (sum (sum_sq_axis1 (rows Q))) as [t| | |]; simpl in Hp.
  - destruct (Qeq_bool t 0).
    + apply Hnan. eapply list_elem_of_lookup_2.
      apply Qeq_alt in Hz. rewrite Hz in Hp. exact Hp.
    + apply (choice_skips_zero _ _ _ _ _ _ i (z / t) Hc Hin Hp).
      rewrite Hz. unfold Qdiv. apply Qmult_0_l.
  - apply (choice_skips_zero _ _ _ _ _ _ i 0%Q Hc Hin Hp). reflexivity.
  - apply (choice_skips_zero _ _ _ _ _ _ i 0%Q Hc Hin Hp). reflexivity.
  - apply Hnan. eapply list_elem_of_lookup_2. exact Hp.
Qed.

Lemma sample_core_first_skips_zero_rows_witness :
  exists Q' I' rs',
    _sample_core_first (Mat 1 [[Fin 0]; [Fin 2]]) (_range 2) 3 rs0 = (Ok (Q', I'), rs')
    /\ forall q, q ∈ rows Q' -> ~ feq (sum (map (fun x => fmul x x) q)) (Fin 0).
Proof.
  destruct (_sample_core_first (Mat 1 [[Fin 0]; [Fin 2]]) (_range 2) 3 rs0)
    as [[[Q' I']|e] rs'] eqn:E; [|vm_compute in E; discriminate E].
  exists Q', I', rs'. split; [reflexivity|].
  exact (sample_core_first_skips_zero_rows _ _ _ _ _ _ _ E).
Defined.

Lemma empty2_length uninit k c : length (rows (empty2 uninit k c)) = k.
Proof. unfold empty2. cbn [rows]. rewrite length_map, length_seq. reflexivity. Qed.

Lemma setitem_inv a i v a' :
  setitem a i v = Ok a' -> (i < length a)%nat /\ a' = <[i:=v]> a.
Proof.
  unfold setitem. destruct (Nat.ltb_spec i (length a)) as [Hlt|?]; [|discriminate].
  intros [= <-]. split; [exact Hlt | reflexivity].
Qed.

Lemma range_lookup n i r : rows (_range n) !! i = Some r -> r = [of_nat i] /\ (i < n)%nat.
Proof.
  unfold _range. cbn [rows]. rewrite list_lookup_fmap.
  destruct (seq 0 n !! i) as [j|] eqn:E; [|discriminate].
  apply lookup_seq in E as [-> Hi]. intros [= <-]. split; [reflexivity | exact Hi].
Qed.

Lemma set_first_column_inv I I1 I' :
  set_first_column I I1 = Ok I' -> length I = length I1 ->
  length I' = length I1
  /\ Forall2 (fun i1 r' => exists v, i1 !! 0%nat = Some v /\ r' !! 0%nat = Some v) I1 I'.
Proof.
  revert I1 I'. induction I as [|im I IH]; intros I1 I' H HL.
  - destruct I1; [|discriminate HL]. injection H as <-. split; [reflexivity | constructor].
  - destruct I1 as [|i1 I1]; [discriminate HL|].
    cbn [set_first_column] in H.
    destruct (getitem i1 0) as [v|] eqn:Eg; [|discriminate H]. cbn [mbind result_bind rbind] in H.
    destruct (setitem im 0 v) as [im'|] eqn:Es; [|discriminate H].
    cbn [mbind result_bind rbind] in H.
    destruct (set_first_column I I1) as [rest|] eqn:Er; [|discriminate H].
    cbn [mbind result_bind rbind] in H. injection H as <-.
    destruct (IH I1 rest Er ltac:(simpl in HL; lia)) as [L F].
    split; [simpl; lia|]. constructor; [|exact F].
    exists v. split; [apply (getitem_nat_inv i1 0); exact Eg|].
    apply setitem_inv in Es as [Hlt ->]. apply list_lookup_insert_eq. exact Hlt.
Qed.

Lemma einsum_rows Q G r1 n r2 Qtens :
  shape3 G = (r1, n, r2) -> einsum_kr_riq Q G = Ok Qtens ->
  Forall (fun qm => length qm = n) Qtens.
Proof.
  unfold einsum_kr_riq. intros ->. destruct (negb _); [discriminate|]. intros [= <-].
  apply Forall_map, Forall_forall. intros qk _. cbn beta. rewrite length_map, length_seq.
  reflexivity.
Qed.

(** The loop over the candidates stores in column [di] of every row an
    index of the mode. *)
Lemma candidates_loop_indices di n I Qtens Q rs I' Q' rs' :
  candidates_loop di n I Qtens Q rs = (Ok (I', Q'), rs') ->
  length Qtens = length I -> length Q = length I ->
  Forall (fun qm => length qm = n) Qtens ->
  length Q' = length I'
  /\ Forall2 (fun r r' => exists i, (i < n)%nat /\ (di < length r)%nat /\ r' = <[di:=of_nat i]> r)
       I I'.
Proof.
  revert Qtens Q rs I' Q' rs'.
  induction I as [|im I IH]; intros Qtens Q rs I' Q' rs' H L1 L2 HF.
  - destruct Qtens; [|discriminate L1]. destruct Q; [|discriminate L2].
    injection H as <- <- _. split; [reflexivity | constructor].
  - destruct Qtens as [|qm Qtens]; [discriminate L1|].
    destruct Q as [|qnew Q]; [discriminate L2|].
    cbn [candidates_loop] in H.
    minv H as i_cur s1 Hc.
    minv H as i s2 Hi. mlift_inv Hi.
    minv H as im' s3 Him'. mlift_inv Him'.
    minv H as qnew' s4 Hq. mlift_inv Hq.
    minv H as rest s5 Hrest. destruct rest as [I'' Q''].
    apply mret_ok_inv in H as [[= -> ->] ->].
    apply Forall_cons in HF as [Hqm HQt].
    destruct (IH _ _ _ _ _ _ Hrest ltac:(simpl in L1; lia) ltac:(simpl in L2; lia) HQt) as [L F].
    split; [simpl; lia|]. constructor; [|exact F].
    apply getitem_nat_inv in Hq. apply lookup_lt_Some in Hq.
    apply setitem_inv in Him' as [Hlt ->].
    exists i. split; [lia|]. split; [exact Hlt | reflexivity].
Qed.

Section SamplerIndices.

Variable orthogonalize : list arr3 -> Z -> bool -> result (list arr3 * Z).
Variable uninit : nat -> float.
Variable globals : gmap string pyval.
Hypothesis float_cf_none : globals !! "float_cf"%string = Some PyNone.

(** The leading entries of a row are indices of the modes of the given
    sizes. *)
Local Abbreviation valid sizes r :=
  (forall k n v, sizes !! k = Some n -> r !! k = Some v -> exists i, v = of_nat i /\ (i < n)%nat).

Local Abbreviation mode_size G := (snd (fst (shape3 G))).

Lemma extend_not_requested G n : extend_if_requested uninit globals G n = Ok (G, n).
Proof. unfold extend_if_requested, load_global. rewrite float_cf_none. reflexivity. Qed.

Lemma sample_first_core_indices Y m unique m_fact rs Zs Q I rs' :
  sample_first_core orthogonalize uninit globals Y m unique m_fact rs = (Ok (Zs, Q, I), rs') ->
  exists p G,
    orthogonalize Y 0 true = Ok (Zs, p) /\ head Zs = Some G
    /\ length (rows Q) = length (rows I)
    /\ Forall (fun r => valid [mode_size G] r) (rows I).
Proof.
  unfold sample_first_core. intros H.
  minv H as ZnQ s1 Hm. mlift_inv Hm. destruct ZnQ as [[Zs0 n] Q0].
  minv H as QI s5 Hfirst. destruct QI as [Q1 I1].
  minv H as Irows s6 Hcol. mlift_inv Hcol.
  apply mret_ok_inv in H as [[= -> -> ->] ->].
  unfold first_core_matrix in Hm.
  destruct (orthogonalize Y 0 true) as [[Zs1 p]|]; [|discriminate Hm].
  cbn [mbind result_bind rbind] in Hm.
  destruct (getitem Zs1 0) as [G|] eqn:EG; [|discriminate Hm].
  cbn [mbind result_bind rbind] in Hm. destruct (shape3 G) as [[r1 n0] r2] eqn:Hsh.
  rewrite extend_not_requested in Hm. cbn [mbind result_bind rbind] in Hm.
  destruct (reshape2 G n0 r2) as [Q2|]; [|discriminate Hm].
  cbn [mbind result_bind rbind] in Hm. injection Hm as <- <- <-.
  apply (getitem_nat_inv Zs1 0) in EG.
  exists p, G. split; [reflexivity|]. split; [destruct Zs1; [discriminate EG | exact EG]|].
  unfold _sample_core_first in Hfirst. cbv zeta in Hfirst.
  minv Hfirst as ind t1 Hc.
  minv Hfirst as Qs t2 HQ. mlift_inv HQ.
  minv Hfirst as Is t3 HI. mlift_inv HI.
  apply mret_ok_inv in Hfirst as [[= -> ->] ->].
  apply take_rows_inv in HQ. apply take_rows_inv in HI.
  pose proof (Forall2_length _ _ _ HQ) as LQ. pose proof (Forall2_length _ _ _ HI) as LI.
  cbn [rows cols] in *.
  destruct (Nat.eqb (length Y) 0); [discriminate Hcol|].
  apply set_first_column_inv in Hcol as [L F]; [|apply empty2_length].
  split; [lia|].
  apply Forall_forall. intros r' Hr'. apply list_elem_of_lookup in Hr' as [j Hj].
  destruct (Forall2_lookup_r _ _ _ _ _ F Hj) as (i1 & Hi1 & v & Hv & Hv').
  destruct (Forall2_lookup_r _ _ _ _ _ HI Hi1) as (i & _ & Hi).
  apply range_lookup in Hi as [-> Hlt].
  injection Hv as <-.
  intros k n' v' Hk Hv''. destruct k as [|k]; [|destruct k; discriminate Hk].
  injection Hk as <-. rewrite Hv' in Hv''. injection Hv'' as <-.
  exists i. rewrite Hsh. split; [reflexivity | exact Hlt].
Qed.

Lemma core_body_indices di G Q I rs Q' I' rs' :
  core_body uninit globals di G Q I rs = (Ok (Q', I'), rs') ->
  length (rows Q) = length (rows I) ->
  length (rows Q') = length (rows I')
  /\ Forall2 (fun r r' => exists i, (i < mode_size G)%nat /\ (di < length r)%nat
                                    /\ r' = <[di:=of_nat i]> r)
       (rows I) (rows I').
Proof.
  unfold core_body. destruct (shape3 G) as [[r1 n] r2] eqn:Hsh. intros H HL.
  rewrite extend_not_requested in H.
  minv H as Gn s1 HG. mlift_inv HG. injection HG as <-.
  minv H as Qtens s2 HQ. mlift_inv HQ.
  minv H as rs2 s3 Hcand. destruct rs2 as [Irows Qrows].
  apply mret_ok_inv in H as [[= -> ->] ->].
  cbn [rows fst snd].
  eapply candidates_loop_indices; [exact Hcand | | | ].
  - rewrite (einsum_length _ _ _ HQ). exact HL.
  - rewrite empty2_length. exact HL.
  - eapply einsum_rows; eassumption.
Qed.

Lemma cores_loop_indices Zs di Q I rs Q' I' rs' (sizes : list nat) :
  cores_loop uninit globals di Zs Q I rs = (Ok (Q', I'), rs') ->
  length sizes = di -> length (rows Q) = length (rows I) ->
  Forall (fun r => valid sizes r) (rows I) ->
  Forall (fun r => valid (sizes ++ map (fun G => mode_size G) Zs) r) (rows I').
Proof.
  revert di Q I rs sizes. induction Zs as [|G Zs IH]; intros di Q I rs sizes H Hd HL HF.
  - apply mret_ok_inv in H as [[= -> ->] ->]. cbn [map]. rewrite app_nil_r. exact HF.
  - cbn [cores_loop] in H.
    minv H as QI s1 Hbody. destruct QI as [Q1 I1].
    destruct (core_body_indices _ _ _ _ _ _ _ _ Hbody HL) as [HL1 F].
    cbn [map]. rewrite (cons_middle _ sizes), app_assoc.
    apply (IH (S di) Q1 I1 s1 (sizes ++ [mode_size G]) H).
    + rewrite length_app. simpl. lia.
    + exact HL1.
    + apply Forall_forall. intros r' Hr'. apply list_elem_of_lookup in Hr' as [j Hj].
      destruct (Forall2_lookup_r _ _ _ _ _ F Hj) as (r & Hr & i & Hi & Hlt & ->).
      rewrite Forall_forall in HF.
      assert (r ∈ rows I) as Hin by (apply list_elem_of_lookup; exists j; exact Hr).
      intros k n v Hk Hv. apply lookup_snoc_Some in Hk as [[Hk1 Hk2]|[-> <-]].
      * rewrite list_lookup_insert_ne in Hv by lia. exact (HF r Hin k n v Hk2 Hv).
      * rewrite Hd, list_lookup_insert_eq in Hv by exact Hlt. injection Hv as <-.
        exists i. split; [reflexivity | exact Hi].
Qed.

Lemma slice_to_elem {A} (l : list A) m x : x ∈ slice_to l m -> x ∈ l.
Proof. unfold slice_to. destruct (m <? 0); apply subseteq_take. Qed.

Lemma sample_ind_rand_call_rows depth keywords Y m unique m_fact max_rep rs I rs' :
  sample_ind_rand_call orthogonalize uninit globals depth keywords Y m unique m_fact max_rep rs
  = (Ok I, rs') ->
  exists Zs Q0 I0 s1 Q1 I1 s2,
    sample_first_core orthogonalize uninit globals Y m unique m_fact rs = (Ok (Zs, Q0, I0), s1)
    /\ cores_loop uninit globals 1 (tail Zs) Q0 I0 s1 = (Ok (Q1, I1), s2)
    /\ forall r, r ∈ rows I -> r ∈ rows I1.
Proof.
  destruct depth as [|depth]; [intros H; discriminate H|].
  cbn [sample_ind_rand_call]. intros H.
  minv H as u s0 Hkw. mlift_inv Hkw.
  minv H as ZQI s1 Hfirst. destruct ZQI as [[Zs Q] I0].
  minv H as QI s2 Hloop. destruct QI as [Q1 I1].
  exists Zs, Q, I0, s1, Q1, I1, s2. split; [exact Hfirst|]. split; [exact Hloop|].
  cbv zeta in H.
  assert (forall I2 s, sample_finish globals m I2 s = (Ok I, rs') ->
            forall r, r ∈ rows I -> r ∈ rows I2) as Hfin.
  { intros I2 s HI2 r Hr. apply sample_finish_ok in HI2 as (_ & fc & Hfc & Hcase).
    rewrite float_cf_none in Hfc. injection Hfc as <-.
    destruct Hcase as [(_ & ->)|(Hne & _)]; [|congruence].
    cbn [rows] in Hr. eapply slice_to_elem. exact Hr. }
  destruct unique.
  - destruct (Z.of_nat (length (rows (unique_rows I1))) <? m).
    + exfalso. destruct ((max_rep <? 0) || (1000000 <? m_fact)); [discriminate H|].
      minv H as fc s3 Hfc. destruct depth as [|depth]; [discriminate H|].
      rewrite sample_ind_rand_call_keyword in H. discriminate H.
    + minv H as I2 s3 Hsh. destruct (shuffle_ok _ _ _ _ Hsh) as (I2' & [= <-] & _ & Hp).
      intros r Hr. apply unique_rows_elem. rewrite Hp. exact (Hfin I2 _ H r Hr).
  - exact (Hfin I1 _ H).
Qed.

Lemma sample_ind_rand_call_indices depth keywords Y m unique m_fact max_rep rs I rs' Zs p :
  orthogonalize Y 0 true = Ok (Zs, p) ->
  sample_ind_rand_call orthogonalize uninit globals depth keywords Y m unique m_fact max_rep rs
  = (Ok I, rs') ->
  Forall (fun r => valid (map (fun G => mode_size G) Zs) r) (rows I).
Proof.
  intros Ho H.
  destruct (sample_ind_rand_call_rows _ _ _ _ _ _ _ _ _ _ H)
    as (Zs' & Q0 & I0 & s1 & Q1 & I1 & s2 & Hfirst & Hloop & Hsub).
  destruct (sample_first_core_indices _ _ _ _ _ _ _ _ _ Hfirst) as (p' & G & Ho' & Hh & HL & HF).
  rewrite Ho in Ho'. injection Ho' as <- <-.
  destruct Zs as [|G0 Zs]; [discriminate Hh|]. injection Hh as ->.
  cbn [tail] in Hloop.
  pose proof (cores_loop_indices _ _ _ _ _ _ _ _ [mode_size G] Hloop eq_refl HL HF) as HF1.
  apply Forall_forall. intros r Hr. rewrite Forall_forall in HF1.
  exact (HF1 r (Hsub r Hr)).
Qed.

End SamplerIndices.

(** X18.  Were [float_cf] bound to [None], the rows that [sample_ind_rand]
    returns would be multi-indices of the tensor: the entry in column [k]
    of a returned row is one of 0, ..., n - 1, for [n] the size of the
    mode axis of the [k]-th core that the orthogonalizer returned. *)
Theorem sample_ind_rand_indices_in_range orthogonalize uninit globals Y m unique m_fact max_rep
    rs I rs' Zs p :
  globals !! "float_cf"%string = Some PyNone ->
  orthogonalize Y 0 true = Ok (Zs, p) ->
  sample_ind_rand orthogonalize uninit globals Y m unique m_fact max_rep rs = (Ok I, rs') ->
  forall r k G r1 n r2 v,
    r ∈ rows I -> Zs !! k = Some G -> shape3 G = (r1, n, r2) -> r !! k = Some v ->
    exists i, v = of_nat i /\ (i < n)%nat.
Proof.
  intros Hfc Ho H r k G r1 n r2 v Hr HG Hsh Hv. unfold sample_ind_rand in H.
  pose proof (sample_ind_rand_call_indices orthogonalize uninit globals Hfc _ _ _ _ _ _ _ _ _ _ _ _
                Ho H) as HF.
  rewrite Forall_forall in HF. apply (HF r Hr k n v); [|exact Hv].
  rewrite list_lookup_fmap, HG. cbn. rewrite Hsh. reflexivity.
Qed.

Lemma sample_ind_rand_indices_in_range_witness :
  exists I rs',
    sample_ind_rand orthogonalize_id uninit_nan (globals_with PyNone) Y_small 3 true 5 100 rs0
    = (Ok I, rs')
    /\ forall r v, r ∈ rows I -> r !! 1%nat = Some v -> exists i, v = of_nat i /\ (i < 3)%nat.
Proof.
  eexists. eexists. split; [vm_compute; reflexivity|].
  intros r v Hr Hv.
  eapply (sample_ind_rand_indices_in_range orthogonalize_id uninit_nan (globals_with PyNone)
            Y_small 3 true 5 100 rs0 _ _ _ _ eq_refl eq_refl ltac:(vm_compute; reflexivity)
            r 1%nat (core_of_list [1%Q; 2%Q; 0%Q]) 1%nat 3%nat 1%nat v Hr eq_refl eq_refl Hv).
Defined.

(** ** The demo functions: the declared minimum *)

Section DemoMinimum.

Import RNp.
Local Open Scope R_scope.

Lemma foldl_plus_acc acc l : foldl Rplus acc l = acc + foldl Rplus 0 l.
Proof.
  revert acc. induction l as [|v l IH]; intros acc; simpl; [lra|].
  rewrite (IH (acc + v)), (IH (0 + v)). lra.
Qed.

Lemma sum_cons v l : sum (v :: l) = v + sum l.
Proof. unfold sum. simpl. rewrite foldl_plus_acc. lra. Qed.

Lemma sum_nonneg l : Forall (fun v => 0 <= v) l -> 0 <= sum l.
Proof.
  induction 1 as [|v l Hv _ IH]; [unfold sum; simpl; lra|]. rewrite sum_cons. lra.
Qed.

Lemma sum_le_length l : Forall (fun v => v <= 1) l -> sum l <= INR (length l).
Proof.
  induction 1 as [|v l Hv _ IH]; [unfold sum; simpl; lra|].
  rewrite sum_cons. change (length (v :: l)) with (S (length l)). rewrite S_INR. lra.
Qed.

Lemma sum_zeros l : Forall (fun v => v = 0) l -> sum l = 0.
Proof.
  induction 1 as [|v l Hv _ IH]; [reflexivity|]. rewrite sum_cons. lra.
Qed.

Lemma sum_ones l : Forall (fun v => v = 1) l -> sum l = INR (length l).
Proof.
  induction 1 as [|v l Hv _ IH]; [reflexivity|].
  rewrite sum_cons. change (length (v :: l)) with (S (length l)). rewrite S_INR. lra.
Qed.

Lemma foldl_mult_acc acc l : foldl Rmult acc l = acc * foldl Rmult 1 l.
Proof.
  revert acc. induction l as [|v l IH]; intros acc; simpl; [lra|].
  rewrite (IH (acc * v)), (IH (1 * v)). lra.
Qed.

Lemma prod_cons v l : prod (v :: l) = v * prod l.
Proof. unfold prod. simpl. rewrite foldl_mult_acc. lra. Qed.

Lemma prod_abs_le_1 l : Forall (fun v => -1 <= v <= 1) l -> -1 <= prod l <= 1.
Proof.
  induction 1 as [|v l Hv _ IH]; [unfold prod; simpl; lra|].
  rewrite prod_cons. split; nra.
Qed.

Lemma prod_ones l : Forall (fun v => v = 1) l -> prod l = 1.
Proof.
  induction 1 as [|v l Hv _ IH]; [reflexivity|]. rewrite prod_cons. nra.
Qed.

Lemma Forall_map_repeat {A} (P : R -> Prop) (f : A -> R) (a : A) n :
  P (f a) -> Forall P (map f (repeat a n)).
Proof.
  intros H. apply Forall_map, Forall_forall. intros x Hx.
  apply list_elem_of_In, repeat_spec in Hx. subst x. exact H.
Qed.

Lemma ackley_at_origin d a b c :
  (0 < d)%nat ->
  DemoFuncAckley._calc d a b c (DemoFuncAckley.x_min d) = Some DemoFuncAckley.y_min.
Proof.
  intros Hd. unfold DemoFuncAckley._calc, DemoFuncAckley.x_min, DemoFuncAckley.y_min, divide.
  assert (0 < INR d) as Hd' by (apply lt_0_INR; exact Hd).
  destruct (Req_dec_T (INR d) 0) as [E|_]; [lra|].
  cbn [mbind option_bind].
  assert (sum (map (fun v => v ^ 2) (repeat 0 d)) = 0) as ->.
  { apply sum_zeros, Forall_map_repeat. lra. }
  assert (sum (map (fun v => cos (c * v)) (repeat 0 d)) = INR d) as ->.
  { rewrite sum_ones by (apply Forall_map_repeat; rewrite Rmult_0_r; apply cos_0).
    rewrite length_map, repeat_length. reflexivity. }
  replace (0 / INR d) with 0 by (field; lra).
  unfold sqrt. destruct (Rle_dec 0 0) as [_|N]; [|lra].
  cbn [mbind option_bind]. f_equal.
  rewrite sqrt_0, Rmult_0_r, exp_0.
  replace (INR d / INR d) with 1 by (field; lra). lra.
Qed.

Lemma ackley_lower_bound d a b c x :
  (0 < d)%nat -> 0 <= a -> 0 <= b -> length x = d ->
  exists y, DemoFuncAckley._calc d a b c x = Some y /\ DemoFuncAckley.y_min <= y.
Proof.
  intros Hd Ha Hb Hx. unfold DemoFuncAckley._calc, DemoFuncAckley.y_min, divide.
  assert (0 < INR d) as Hd' by (apply lt_0_INR; exact Hd).
  destruct (Req_dec_T (INR d) 0) as [E|_]; [lra|].
  cbn [mbind option_bind]. unfold sqrt.
  set (q := sum (map (fun v => v ^ 2) x) / INR d).
  assert (0 <= q) as Hq.
  { unfold q. apply Rmult_le_pos; [|apply Rlt_le, Rinv_0_lt_compat; exact Hd'].
    apply sum_nonneg, Forall_map, Forall_forall. intros v _. apply pow2_ge_0. }
  destruct (Rle_dec 0 q) as [_|N]; [|contradiction].
  cbn [mbind option_bind]. eexists. split; [reflexivity|].
  set (s := R_sqrt.sqrt q). assert (0 <= s) as Hs by apply sqrt_pos.
  set (t := sum (map (fun v => cos (c * v)) x) / INR d).
  assert (t <= 1) as Ht.
  { unfold t. apply Rmult_le_reg_r with (INR d); [exact Hd'|].
    unfold Rdiv. rewrite Rmult_assoc, Rinv_l, Rmult_1_r, Rmult_1_l by lra.
    rewrite <- Hx, <- (length_map (fun v => cos (c * v)) x).
    apply sum_le_length, Forall_map, Forall_forall. intros v _. apply COS_bound. }
  assert (exp (- b * s) <= 1) as He1.
  { rewrite <- exp_0. destruct (Req_dec_T (- b * s) 0) as [->|Hne]; [lra|].
    apply Rlt_le, exp_increasing. nra. }
  assert (exp t <= exp 1) as He2.
  { destruct (Req_dec_T t 1) as [->|Hne]; [lra|]. apply Rlt_le, exp_increasing. lra. }
  nra.
Qed.

Lemma grienwank_calc_ok d x :
  length x = d ->
  DemoFuncGrienwank._calc d x
  = Ok (sum (map (fun v => v ^ 2) x) / 4000
        + - prod (map cos (zip_with Rdiv x (DemoFuncGrienwank.weights d))) + 1).
Proof.
  intros Hx. unfold DemoFuncGrienwank._calc, broadcastable. rewrite Hx, Nat.eqb_refl.
  cbn [orb negb]. rewrite broadcast_div_same; [reflexivity|].
  unfold DemoFuncGrienwank.weights. rewrite length_map, length_seq. exact Hx.
Qed.

Lemma grienwank_at_origin d :
  DemoFuncGrienwank._calc d (DemoFuncGrienwank.x_min d) = Ok DemoFuncGrienwank.y_min.
Proof.
  unfold DemoFuncGrienwank.x_min, DemoFuncGrienwank.y_min.
  rewrite grienwank_calc_ok by apply repeat_length. f_equal.
  rewrite sum_zeros by (apply Forall_map_repeat; lra).
  rewrite prod_ones; [lra|].
  apply Forall_map, Forall_forall. intros q Hq.
  apply list_elem_of_lookup in Hq as [i Hi]. rewrite lookup_zip_with in Hi.
  destruct (repeat 0 d !! i) as [v|] eqn:Ev; [|discriminate Hi].
  destruct (DemoFuncGrienwank.weights d !! i) as [w|]; [|discriminate Hi].
  cbn in Hi. injection Hi as <-.
  apply list_elem_of_lookup_2, list_elem_of_In, repeat_spec in Ev. subst v.
  unfold Rdiv. rewrite Rmult_0_l. apply cos_0.
Qed.

Lemma grienwank_lower_bound d x :
  length x = d ->
  exists y, DemoFuncGrienwank._calc d x = Ok y /\ DemoFuncGrienwank.y_min <= y.
Proof.
  intros Hx. rewrite (grienwank_calc_ok d x Hx). eexists. split; [reflexivity|].
  unfold DemoFuncGrienwank.y_min.
  assert (0 <= sum (map (fun v => v ^ 2) x)) as Hs.
  { apply sum_nonneg, Forall_map, Forall_forall. intros v _. apply pow2_ge_0. }
  assert (-1 <= prod (map cos (zip_with Rdiv x (DemoFuncGrienwank.weights d))) <= 1) as Hp.
  { apply prod_abs_le_1, Forall_map, Forall_forall. intros v _. apply COS_bound. }
  lra.
Qed.

Lemma alpine_at_origin d dy :
  FuncDemoAlpine._calc dy (FuncDemoAlpine.x_min d) = FuncDemoAlpine.y_min dy.
Proof.
  unfold FuncDemoAlpine._calc, FuncDemoAlpine.x_min, FuncDemoAlpine.y_min.
  rewrite sum_zeros; [reflexivity|].
  apply Forall_map_repeat. rewrite Rmult_0_l, Rmult_0_r, Rplus_0_l. apply Rabs_R0.
Qed.

Lemma alpine_lower_bound dy x : FuncDemoAlpine.y_min dy <= FuncDemoAlpine._calc dy x.
Proof.
  unfold FuncDemoAlpine._calc, FuncDemoAlpine.y_min.
  assert (0 <= sum (map (fun v => Rabs (v * sin v + 1 / 10 * v)) x)) as Hs.
  { apply sum_nonneg, Forall_map, Forall_forall. intros v _. apply Rabs_pos. }
  lra.
Qed.

Lemma in_box_repeat (v lo hi : R) n :
  lo <= v <= hi -> Forall (fun u => lo <= u <= hi) (repeat v n).
Proof.
  intros H. apply Forall_forall. intros u Hu.
  apply list_elem_of_In, repeat_spec in Hu. subst u. exact H.
Qed.

End DemoMinimum.

(** X19.  The minimum that the constructor of the Ackley function declares
    is right (for [d > 0] and parameters [a >= 0], [b >= 0], as the
    defaults are): the declared point lies in the declared box, the
    function takes the declared value there, and at no point of dimension
    [d] is it below that value. *)
Theorem ackley_declared_minimum (d : nat) (a b c : R) :
  (0 < d)%nat -> (0 <= a)%R -> (0 <= b)%R ->
  Forall (fun u => (fst DemoFuncAckley.lim <= u <= snd DemoFuncAckley.lim)%R)
    (DemoFuncAckley.x_min d)
  /\ length (DemoFuncAckley.x_min d) = d
  /\ DemoFuncAckley._calc d a b c (DemoFuncAckley.x_min d) = Some DemoFuncAckley.y_min
  /\ forall x, length x = d ->
       exists y, DemoFuncAckley._calc d a b c x = Some y /\ (DemoFuncAckley.y_min <= y)%R.
Proof.
  intros Hd Ha Hb.
  split; [apply in_box_repeat; unfold DemoFuncAckley.lim; simpl; lra|].
  split; [apply repeat_length|].
  split; [apply ackley_at_origin; exact Hd|].
  intros x Hx. apply ackley_lower_bound; assumption.
Qed.

Lemma ackley_declared_minimum_witness :
  DemoFuncAckley._calc 2 20 (1 / 5) (2 * PI) (DemoFuncAckley.x_min 2) = Some DemoFuncAckley.y_min
  /\ exists y, DemoFuncAckley._calc 2 20 (1 / 5) (2 * PI) [1%R; 2%R] = Some y
               /\ (DemoFuncAckley.y_min <= y)%R.
Proof.
  destruct (ackley_declared_minimum 2 20 (1 / 5) (2 * PI) ltac:(lia) ltac:(lra) ltac:(lra))
    as (_ & _ & H0 & Hx).
  split; [exact H0 | apply Hx; reflexivity].
Defined.

(** X20.  The minimum that the constructor of the Grienwank function
    declares is right: the declared point lies in the declared box, the
    function takes the declared value there, and at no point of dimension
    [d] is it below that value. *)
Theorem grienwank_declared_minimum (d : nat) :
  Forall (fun u => (fst DemoFuncGrienwank.lim <= u <= snd DemoFuncGrienwank.lim)%R)
    (DemoFuncGrienwank.x_min d)
  /\ length (DemoFuncGrienwank.x_min d) = d
  /\ DemoFuncGrienwank._calc d (DemoFuncGrienwank.x_min d) = Ok DemoFuncGrienwank.y_min
  /\ forall x, length x = d ->
       exists y, DemoFuncGrienwank._calc d x = Ok y /\ (DemoFuncGrienwank.y_min <= y)%R.
Proof.
  split; [apply in_box_repeat; unfold DemoFuncGrienwank.lim; simpl; lra|].
  split; [apply repeat_length|].
  split; [apply grienwank_at_origin|].
  intros x Hx. apply grienwank_lower_bound. exact Hx.
Qed.

Lemma grienwank_declared_minimum_witness :
  DemoFuncGrienwank._calc 2 (DemoFuncGrienwank.x_min 2) = Ok DemoFuncGrienwank.y_min
  /\ exists y, DemoFuncGrienwank._calc 2 [1%R; 2%R] = Ok y /\ (DemoFuncGrienwank.y_min <= y)%R.
Proof.
  destruct (grienwank_declared_minimum 2) as (_ & _ & H0 & Hx).
  split; [exact H0 | apply Hx; reflexivity].
Defined.

(** X21.  The minimum that the constructor of the Alpine function declares
    is right, for every shift [dy]: the declared point lies in the declared
    box, the function takes the declared value [0 + dy] there, and at no
    point is it below that value. *)
Theorem alpine_declared_minimum (d : nat) (dy : R) :
  Forall (fun u => (fst FuncDemoAlpine.lim <= u <= snd FuncDemoAlpine.lim)%R)
    (FuncDemoAlpine.x_min d)
  /\ length (FuncDemoAlpine.x_min d) = d
  /\ FuncDemoAlpine._calc dy (FuncDemoAlpine.x_min d) = FuncDemoAlpine.y_min dy
  /\ forall x, (FuncDemoAlpine.y_min dy <= FuncDemoAlpine._calc dy x)%R.
Proof.
  split; [apply in_box_repeat; unfold FuncDemoAlpine.lim; simpl; lra|].
  split; [apply repeat_length|].
  split; [apply alpine_at_origin|].
  apply alpine_lower_bound.
Qed.

Lemma alpine_declared_minimum_witness :
  FuncDemoAlpine._calc 3 (FuncDemoAlpine.x_min 2) = FuncDemoAlpine.y_min 3
  /\ (FuncDemoAlpine.y_min 3 <= FuncDemoAlpine._calc 3 [1%R; 2%R])%R.
Proof.
  destruct (alpine_declared_minimum 2 3) as (_ & _ & H0 & Hx).
  split; [exact H0 | apply Hx].
Defined.

(** ** The Rosenbrock function *)

Section Rosenbrock.

Import RNp.
Local Open Scope R_scope.

Lemma removelast_lookup {A} (l : list A) i :
  removelast l !! i = if (i <? length l - 1)%nat then l !! i else None.
Proof.
  rewrite removelast_firstn_len. destruct (Nat.ltb_spec i (length l - 1)) as [H|H].
  - apply lookup_take_lt. lia.
  - apply lookup_take_ge. lia.
Qed.

(** [x[1:]] against [x[:-1]]: the pairs of neighbours. *)
Lemma neighbours_zip {A B} (f : A -> A -> B) (dflt : A) (l : list A) :
  zip_with f (tail l) (removelast l)
  = map (fun j => f (nth (S j) l dflt) (nth j l dflt)) (seq 0 (length l - 1)).
Proof.
  apply list_eq. intros i.
  rewrite lookup_zip_with, lookup_tail, removelast_lookup, list_lookup_fmap.
  destruct (Nat.ltb_spec i (length l - 1)) as [H|H].
  - rewrite lookup_seq_lt by exact H.
    destruct (lookup_lt_is_Some_2 l (S i) ltac:(lia)) as [u Hu].
    destruct (lookup_lt_is_Some_2 l i ltac:(lia)) as [v Hv].
    rewrite Hu, Hv. cbn.
    rewrite (nth_lookup_Some _ _ dflt _ Hu), (nth_lookup_Some _ _ dflt _ Hv). reflexivity.
  - rewrite lookup_seq_ge by exact H. destruct (l !! S i); reflexivity.
Qed.

Lemma repeat_lookup {A} (a : A) n i : (i < n)%nat -> repeat a n !! i = Some a.
Proof.
  revert i. induction n as [|n IH]; intros i Hi; [lia|].
  destruct i as [|i]; [reflexivity|]. apply IH. lia.
Qed.

Lemma zip_with_maps {A B C D} (f : B -> C -> D) (g : A -> B) (h : A -> C) (l : list A) :
  zip_with f (map g l) (map h l) = map (fun a => f (g a) (h a)) l.
Proof. induction l as [|a l IH]; [reflexivity|]. simpl. rewrite IH. reflexivity. Qed.

(** The sum along axis 0 of a stack of rows, at one position. *)
Lemma sum_axis0_lookup {J A} (h : J -> A -> R) (rows : list A) (js : list J) acc i a row :
  acc !! i = Some a -> rows !! i = Some row ->
  foldl (zip_with Rplus) acc (map (fun j => map (h j) rows) js) !! i
  = Some (foldl Rplus a (map (fun j => h j row) js)).
Proof.
  revert acc a. induction js as [|j js IH]; intros acc a Ha Hrow; [exact Ha|].
  cbn [map foldl]. apply IH; [|exact Hrow].
  rewrite lookup_zip_with, Ha, list_lookup_fmap, Hrow. reflexivity.
Qed.

Lemma rosen_neighbours x :
  DemoFuncRosenbrock.rosen x
  = sum (map (fun j => DemoFuncRosenbrock.rosen_term (nth (S j) x 0) (nth j x 0))
             (seq 0 (length x - 1))).
Proof. unfold DemoFuncRosenbrock.rosen. rewrite (neighbours_zip _ 0). reflexivity. Qed.

Lemma rosenbrock_comp_row d X m i row :
  has_shape X m d -> rrows X !! i = Some row ->
  DemoFuncRosenbrock._comp X !! i = Some (DemoFuncRosenbrock._calc row).
Proof.
  intros (Hm & Hc & Hrows) Hrow.
  assert (length row = d) as Hlen.
  { rewrite Forall_forall in Hrows. apply Hrows. eapply list_elem_of_lookup_2. exact Hrow. }
  unfold DemoFuncRosenbrock._comp, DemoFuncRosenbrock._calc, DemoFuncRosenbrock.rosen2,
    DemoFuncRosenbrock.transpose.
  cbn [rrows rcols]. rewrite Hc, (neighbours_zip _ []), length_map, length_seq.
  rewrite rosen_neighbours, Hlen. unfold sum.
  rewrite <- (sum_axis0_lookup
                (fun j r => DemoFuncRosenbrock.rosen_term (nth (S j) r 0) (nth j r 0))
                (rrows X) (seq 0 (d - 1)) (repeat 0 (length (rrows X))) i 0 row).
  - f_equal. f_equal. apply map_ext_in. intros j Hj. apply in_seq in Hj.
    rewrite !(nth_indep _ [] (map (fun row0 => nth 0 row0 0) (rrows X)))
      by (rewrite length_map, length_seq; lia).
    rewrite !(map_nth (fun j0 => map (fun row0 => nth j0 row0 0) (rrows X)) (seq 0 d) 0%nat).
    rewrite !seq_nth by lia. cbn [Nat.add].
    apply zip_with_maps.
  - apply repeat_lookup. eapply lookup_lt_Some. exact Hrow.
  - exact Hrow.
Qed.

Lemma rosen_term_nonneg u v : 0 <= DemoFuncRosenbrock.rosen_term u v.
Proof.
  unfold DemoFuncRosenbrock.rosen_term.
  pose proof (pow2_ge_0 (u - v ^ 2)). pose proof (pow2_ge_0 (1 - v)). lra.
Qed.

Lemma rosen_nonneg x : 0 <= DemoFuncRosenbrock.rosen x.
Proof.
  rewrite rosen_neighbours. apply sum_nonneg, Forall_map, Forall_forall.
  intros j _. apply rosen_term_nonneg.
Qed.

Lemma rosen_at_ones d : DemoFuncRosenbrock.rosen (repeat 1 d) = 0.
Proof.
  rewrite rosen_neighbours, repeat_length. apply sum_zeros, Forall_map, Forall_forall.
  intros j Hj. apply list_elem_of_In, in_seq in Hj.
  rewrite !(nth_lookup_Some _ _ 0 1) by (apply repeat_lookup; lia).
  unfold DemoFuncRosenbrock.rosen_term. lra.
Qed.

(** Where the function vanishes every entry is 1. *)
Lemma sum_zero_terms l : Forall (fun v => 0 <= v) l -> sum l = 0 -> Forall (fun v => v = 0) l.
Proof.
  induction 1 as [|v l Hv HF IH]; intros Hs; [constructor|].
  rewrite sum_cons in Hs. pose proof (sum_nonneg l HF).
  constructor; [lra | apply IH; lra].
Qed.

Lemma rosen_term_zero u v : DemoFuncRosenbrock.rosen_term u v = 0 -> u = 1 /\ v = 1.
Proof.
  unfold DemoFuncRosenbrock.rosen_term. intros H.
  pose proof (pow2_ge_0 (u - v ^ 2)) as H1. pose proof (pow2_ge_0 (1 - v)) as H2.
  assert ((1 - v) ^ 2 = 0) as Hv by lra. assert ((u - v ^ 2) ^ 2 = 0) as Hu by lra.
  assert (v = 1) as -> by nra. split; [nra | reflexivity].
Qed.

Lemma rosen_zero_ones x :
  (1 < length x)%nat -> DemoFuncRosenbrock.rosen x = 0 -> x = repeat 1 (length x).
Proof.
  intros Hl H. rewrite rosen_neighbours in H.
  apply sum_zero_terms in H.
  2: { apply Forall_map, Forall_forall. intros j _. apply rosen_term_nonneg. }
  rewrite Forall_map, Forall_forall in H.
  assert (forall j, (j < length x - 1)%nat -> nth (S j) x 0 = 1 /\ nth j x 0 = 1) as Hj.
  { intros j Hlt. apply rosen_term_zero. apply (H j). apply list_elem_of_In, in_seq. lia. }
  apply list_eq. intros i. destruct (Nat.lt_ge_cases i (length x)) as [Hi|Hi].
  - rewrite repeat_lookup by exact Hi.
    destruct (lookup_lt_is_Some_2 x i Hi) as [v Hv]. rewrite Hv. f_equal.
    rewrite <- (nth_lookup_Some _ _ 0 _ Hv).
    destruct i as [|i]; [apply (Hj 0%nat); lia | apply (Hj i); lia].
  - rewrite (proj2 (lookup_ge_None _ _)) by exact Hi.
    symmetry. apply lookup_ge_None. rewrite repeat_length. exact Hi.
Qed.

End Rosenbrock.

(** X22.  For the Rosenbrock function too the batched evaluator agrees
    with the scalar one: for a batch [X] of shape (m, d) and a row index
    [i] of it, the [i]-th value of [_comp(X)], which is [rosen] of the
    transposed batch, is [_calc] of the [i]-th row. *)
Theorem rosenbrock_batch_agrees_with_point (d : nat) (X : RNp.rmat) (m i : nat) (row : list R) :
  has_shape X m d -> RNp.rrows X !! i = Some row ->
  DemoFuncRosenbrock._comp X !! i = Some (DemoFuncRosenbrock._calc row)
  /\ length (DemoFuncRosenbrock._comp X) = m.
Proof.
  intros Hs Hrow. split; [eapply rosenbrock_comp_row; eassumption|].
  destruct Hs as (Hm & Hc & Hrows).
  unfold DemoFuncRosenbrock._comp, DemoFuncRosenbrock.rosen2, DemoFuncRosenbrock.transpose.
  cbn [RNp.rrows RNp.rcols]. rewrite Hc, Hm.
  set (terms := zip_with _ _ _).
  assert (Forall (fun t => length t = m) terms) as HT.
  { unfold terms. apply Forall_forall. intros t Ht.
    apply list_elem_of_lookup in Ht as [j Hj]. rewrite lookup_zip_with in Hj.
    rewrite lookup_tail, removelast_lookup in Hj.
    destruct (_ !! S j) as [u|] eqn:Eu; [|discriminate Hj].
    destruct (_ <? _)%nat; [|discriminate Hj].
    destruct (_ !! j) as [v|] eqn:Ev; [|discriminate Hj].
    cbn in Hj. injection Hj as <-.
    rewrite list_lookup_fmap in Eu, Ev.
    destruct (seq 0 d !! S j); [|discriminate Eu]. destruct (seq 0 d !! j); [|discriminate Ev].
    cbn in Eu, Ev. injection Eu as <-. injection Ev as <-.
    rewrite length_zip_with, !length_map, Hm. lia. }
  assert (forall acc, length acc = m -> length (foldl (zip_with Rplus) acc terms) = m) as Hf.
  { clear -HT. induction HT as [|t terms Ht _ IH]; intros acc Ha; [exact Ha|].
    cbn [foldl]. apply IH. rewrite length_zip_with. lia. }
  apply Hf. apply repeat_length.
Qed.

Lemma rosenbrock_batch_agrees_with_point_witness :
  has_shape (RNp.RMat 3 [[1%R; 2%R; 3%R]; [0%R; 1%R; 0%R]]) 2 3
  /\ DemoFuncRosenbrock._comp (RNp.RMat 3 [[1%R; 2%R; 3%R]; [0%R; 1%R; 0%R]]) !! 1%nat
     = Some (DemoFuncRosenbrock._calc [0%R; 1%R; 0%R]).
Proof.
  assert (has_shape (RNp.RMat 3 [[1%R; 2%R; 3%R]; [0%R; 1%R; 0%R]]) 2 3) as Hs.
  { split; [reflexivity|]. split; [reflexivity|]. repeat constructor. }
  split; [exact Hs|].
  destruct (rosenbrock_batch_agrees_with_point 3 (RNp.RMat 3 [[1%R; 2%R; 3%R]; [0%R; 1%R; 0%R]])
              2 1 [0%R; 1%R; 0%R] Hs eq_refl) as [H _].
  exact H.
Defined.

(** X23.  The minimum that the constructor of the Rosenbrock function
    declares is right: the point of ones lies in the declared box, the
    function is 0 there and nowhere negative; and in dimension two or more
    it is the only point where the function is 0. *)
Theorem rosenbrock_declared_minimum (d : nat) :
  Forall (fun u => (fst DemoFuncRosenbrock.lim <= u <= snd DemoFuncRosenbrock.lim)%R)
    (DemoFuncRosenbrock.x_min d)
  /\ length (DemoFuncRosenbrock.x_min d) = d
  /\ DemoFuncRosenbrock._calc (DemoFuncRosenbrock.x_min d) = DemoFuncRosenbrock.y_min
  /\ (forall x, (DemoFuncRosenbrock.y_min <= DemoFuncRosenbrock._calc x)%R)
  /\ (forall x, length x = d -> (1 < d)%nat ->
        DemoFuncRosenbrock._calc x = DemoFuncRosenbrock.y_min -> x = DemoFuncRosenbrock.x_min d).
Proof.
  split; [apply in_box_repeat; unfold DemoFuncRosenbrock.lim; simpl; lra|].
  split; [apply repeat_length|].
  split; [apply rosen_at_ones|].
  split; [apply rosen_nonneg|].
  intros x Hx Hd H. unfold DemoFuncRosenbrock.x_min. rewrite <- Hx.
  apply rosen_zero_ones; [lia | exact H].
Qed.

Lemma rosenbrock_declared_minimum_witness :
  DemoFuncRosenbrock._calc (DemoFuncRosenbrock.x_min 3) = DemoFuncRosenbrock.y_min
  /\ (DemoFuncRosenbrock._calc [1%R; 1%R] = DemoFuncRosenbrock.y_min ->
      [1%R; 1%R] = DemoFuncRosenbrock.x_min 2).
Proof.
  split.
  - destruct (rosenbrock_declared_minimum 3) as (_ & _ & H & _). exact H.
  - destruct (rosenbrock_declared_minimum 2) as (_ & _ & _ & _ & H).
    apply H; [reflexivity | lia].
Defined.

(** ** Rounding to float64 *)

Section Rounding.

Local Open Scope Q_scope.

Lemma nearest_even_spec x :
  inject_Z (nearest_even x) - x <= 1 # 2 /\ x - inject_Z (nearest_even x) <= 1 # 2.
Proof.
  unfold nearest_even. pose proof (Qfloor_le x) as Hl. pose proof (Qlt_floor x) as Hu.
  rewrite inject_Z_plus in Hu. change (inject_Z 1) with 1 in Hu.
  set (f := Qfloor x) in *.
  destruct (Qcompare_spec (x - inject_Z f) (1 # 2)) as [E|E|E].
  - destruct (Z.even f); [|rewrite inject_Z_plus; change (inject_Z 1) with 1]; split; lra.
  - split; lra.
  - rewrite inject_Z_plus. change (inject_Z 1) with 1. split; lra.
Qed.

Lemma nearest_even_int x k : x == inject_Z k -> nearest_even x = k.
Proof.
  intros E. unfold nearest_even. rewrite (Qfloor_comp _ _ E), Qfloor_Z.
  destruct (Qcompare_spec (x - inject_Z k) (1 # 2)) as [H|H|H]; [lra | reflexivity | lra].
Qed.

Lemma pow2_pos e : 0 < 2 ^ e.
Proof. apply Qpower_0_lt. reflexivity. Qed.

Lemma pow2_succ e : 2 ^ (e + 1) == 2 * 2 ^ e.
Proof. rewrite Qpower_plus by discriminate. change (2 ^ 1) with 2. ring. Qed.

Lemma pow2_pred e : 2 * 2 ^ (e - 1) == 2 ^ e.
Proof. rewrite <- pow2_succ. replace (e - 1 + 1)%Z with e by lia. reflexivity. Qed.

Lemma pow2_log2 n : (0 < n)%Z -> 2 ^ Z.log2 n <= inject_Z n /\ inject_Z n < 2 * 2 ^ Z.log2 n.
Proof.
  intros Hn. destruct (Z.log2_spec n Hn) as [H1 H2].
  pose proof (Z.log2_nonneg n) as H0.
  rewrite <- pow2_succ.
  change 2 with (inject_Z 2). rewrite <- !Zpower_Qpower by lia.
  rewrite <- Zle_Qle, <- Zlt_Qlt. split; [exact H1 | exact H2].
Qed.

Lemma binade_spec q : 0 < q -> 2 ^ binade q <= q /\ q < 2 ^ (binade q + 1).
Proof.
  intros Hq. unfold binade. destruct q as [n d]. cbn [Qnum Qden].
  assert (0 < n)%Z as Hn by (unfold Qlt in Hq; simpl in Hq; lia).
  destruct (pow2_log2 n Hn) as [A1 A2].
  destruct (pow2_log2 (Zpos d) eq_refl) as [B1 B2].
  set (a := Z.log2 n) in *. set (b := Z.log2 (Zpos d)) in *.
  pose proof (pow2_pos a) as Pa. pose proof (pow2_pos b) as Pb.
  pose proof (pow2_pos (a - b)) as Pe.
  assert (2 ^ (a - b) * 2 ^ b == 2 ^ a) as Hab.
  { rewrite <- Qpower_plus by discriminate. replace (a - b + b)%Z with a by lia. reflexivity. }
  assert ((n # d) * inject_Z (Zpos d) == inject_Z n) as Hqd.
  { rewrite (Qmake_Qdiv n d). field.
    intros H. unfold Qeq in H. simpl in H. lia. }
  set (q := n # d) in *.
  set (E := 2 ^ (a - b)) in *. set (N := inject_Z n) in *.
  set (D := inject_Z (Zpos d)) in *. set (PA := 2 ^ a) in *. set (PB := 2 ^ b) in *.
  destruct (Qle_bool E q) eqn:Hb.
  - apply Qle_bool_iff in Hb. split; [exact Hb|].
    rewrite pow2_succ. fold E. nra.
  - assert (q < E) as Hlt.
    { apply Qnot_le_lt. intros H. apply Qle_bool_iff in H. congruence. }
    replace (a - b - 1 + 1)%Z with (a - b)%Z by lia. fold E. split; [|exact Hlt].
    pose proof (pow2_pred (a - b)) as Hp. fold E in Hp.
    pose proof (pow2_pos (a - b - 1)) as Pe'.
    set (E' := 2 ^ (a - b - 1)) in *. nra.
Qed.

Lemma pow2_inv s : 2 ^ s * 2 ^ (- s) == 1.
Proof. rewrite <- Qpower_plus by discriminate. replace (s + - s)%Z with 0%Z by lia. reflexivity. Qed.

Lemma binade_ge q lo : 0 < q -> 2 ^ lo <= q -> (lo <= binade q)%Z.
Proof.
  intros Hq Hlo. destruct (binade_spec q Hq) as [_ H2].
  assert (2 ^ lo < 2 ^ (binade q + 1)) as H by (eapply Qle_lt_trans; eassumption).
  apply Qpower_lt_compat_l_inv in H; [lia | reflexivity].
Qed.

Lemma binade_lt q hi : 0 < q -> q < 2 ^ hi -> (binade q < hi)%Z.
Proof.
  intros Hq Hhi. destruct (binade_spec q Hq) as [H1 _].
  assert (2 ^ binade q < 2 ^ hi) as H by (eapply Qle_lt_trans; eassumption).
  apply Qpower_lt_compat_l_inv in H; [lia | reflexivity].
Qed.

(** The relative error of rounding, away from underflow and overflow. *)
Lemma round64_rel q :
  1 # 18446744073709551616 <= q -> q <= 4 ->
  exists v, round64 q = Fin v /\ q - unit_roundoff * q <= v /\ v <= q + unit_roundoff * q.
Proof.
  intros Hlo Hhi. assert (0 < q) as Hq by (eapply Qlt_le_trans; [|exact Hlo]; reflexivity).
  unfold round64. apply Qgt_alt in Hq as Hc. rewrite Hc. unfold round64_pos.
  destruct (binade_spec q Hq) as [E1 E2].
  assert (-64 <= binade q)%Z as Be by (apply binade_ge; [exact Hq | exact Hlo]).
  assert (binade q < 3)%Z as Be' by (apply binade_lt; [exact Hq | eapply Qle_lt_trans; [exact Hhi | reflexivity]]).
  set (e := binade q) in *.
  replace (Z.max (e - 52) (-1074)) with (e - 52)%Z by lia.
  set (s := (e - 52)%Z).
  destruct (nearest_even_spec (q * 2 ^ (- s))) as [N1 N2].
  set (m := inject_Z (nearest_even (q * 2 ^ (- s)))) in *.
  pose proof (pow2_pos s) as Ps. pose proof (pow2_pos (- s)) as Pt.
  pose proof (pow2_inv s) as Hst.
  assert (2 ^ s == 2 ^ e * (1 # 4503599627370496)) as Hs.
  { unfold s. replace (e - 52)%Z with (e + - 52)%Z by lia.
    rewrite Qpower_plus by discriminate. reflexivity. }
  pose proof (pow2_pos e) as Pe.
  set (S := 2 ^ s) in *. set (T := 2 ^ (- s)) in *. set (EE := 2 ^ e) in *.
  unfold unit_roundoff.
  assert (m * S - q <= (1 # 9007199254740992) * q /\ q - m * S <= (1 # 9007199254740992) * q) as [V1 V2].
  { assert (q * (S * T) == q) as Hq' by (rewrite Hst; ring).
    assert (S * (m - q * T) <= S * (1 # 2)) as H1 by (apply Qmult_le_l; [exact Ps | exact N1]).
    assert (S * (q * T - m) <= S * (1 # 2)) as H2 by (apply Qmult_le_l; [exact Ps | exact N2]).
    split; lra. }
  assert (Qle_bool (2 ^ 1024) (m * S) = false) as ->.
  { destruct (Qle_bool (2 ^ 1024) (m * S)) eqn:Hb; [|reflexivity].
    apply Qle_bool_iff in Hb.
    assert (2 ^ 3 < 2 ^ 1024) as H3 by (apply Qpower_lt_compat_l; [lia | reflexivity]).
    change (2 ^ 3) with 8 in H3. set (B := 2 ^ 1024) in *. lra. }
  exists (m * S). split; [reflexivity|]. split; lra.
Qed.

(** Integers below 2^53 are float64 numbers. *)
Lemma round64_int q k :
  q == inject_Z k -> (0 < k < 2 ^ 53)%Z -> exists v, round64 q = Fin v /\ v == inject_Z k.
Proof.
  intros Hk [K0 K1].
  assert (1 <= q) as Hq1 by (rewrite Hk; change 1 with (inject_Z 1); rewrite <- Zle_Qle; lia).
  assert (q < 2 ^ 53) as Hq2.
  { rewrite Hk. change 2 with (inject_Z 2). rewrite <- Zpower_Qpower by lia.
    rewrite <- Zlt_Qlt. exact K1. }
  assert (0 < q) as Hq by lra.
  unfold round64. apply Qgt_alt in Hq as Hc. rewrite Hc. unfold round64_pos.
  assert (0 <= binade q)%Z as Be by (apply binade_ge; [exact Hq | exact Hq1]).
  assert (binade q < 53)%Z as Be' by (apply binade_lt; [exact Hq | exact Hq2]).
  set (e := binade q) in *.
  replace (Z.max (e - 52) (-1074)) with (e - 52)%Z by lia.
  replace (- (e - 52))%Z with (52 - e)%Z by lia.
  assert (q * 2 ^ (52 - e) == inject_Z (k * 2 ^ (52 - e))) as Hx.
  { rewrite inject_Z_mult, Zpower_Qpower by lia. rewrite Hk. reflexivity. }
  rewrite (nearest_even_int _ _ Hx).
  assert (inject_Z (k * 2 ^ (52 - e)) * 2 ^ (e - 52) == inject_Z k) as Hv.
  { rewrite inject_Z_mult, Zpower_Qpower by lia. change (inject_Z 2) with 2.
    rewrite <- Qmult_assoc, <- Qpower_plus by discriminate.
    replace (52 - e + (e - 52))%Z with 0%Z by lia. change (2 ^ 0) with 1. ring. }
  assert (Qle_bool (2 ^ 1024) (inject_Z (k * 2 ^ (52 - e)) * 2 ^ (e - 52)) = false) as ->.
  { destruct (Qle_bool _ _) eqn:Hb; [|reflexivity].
    apply Qle_bool_iff in Hb. rewrite Hv, <- Hk in Hb.
    assert (2 ^ 53 < 2 ^ 1024) as H3 by (apply Qpower_lt_compat_l; [lia | reflexivity]).
    set (B := 2 ^ 1024) in *. set (C := 2 ^ 53) in *. lra. }
  eexists. split; [reflexivity | exact Hv].
Qed.

Lemma round64_zero q : q == 0 -> round64 q = Fin 0.
Proof. intros H. unfold round64. apply Qeq_alt in H. rewrite H. reflexivity. Qed.

End Rounding.

(** ** The heights of the empirical CDF in float64 *)

Section Heights64.

Local Open Scope Q_scope.

Local Abbreviation U := unit_roundoff.

(** A value with relative error at most [U] of a quantity between 0 and
    [B] has absolute error at most [U * B]. *)
Lemma rel_abs (E x v B : Q) :
  0 <= E -> 0 <= x -> x <= B -> x - E * x <= v -> v <= x + E * x ->
  x - E * B <= v /\ v <= x + E * B.
Proof. intros. split; nra. Qed.

(** A value with relative error at most a thousandth. *)
Lemma rel_near (E x v : Q) :
  0 <= E -> E <= 1 # 1000 -> 0 <= x -> x - E * x <= v -> v <= x + E * x ->
  (999 # 1000) * x <= v /\ v <= (1001 # 1000) * x.
Proof.
  intros E0 E1 X0 L R.
  assert (E * x <= (1 # 1000) * x) as H by (apply Qmult_le_compat_r; assumption).
  split; lra.
Qed.

Lemma linspace_error (U M I a b st dl sp t y : Q) :
  0 <= U -> U <= 1 # 1000 -> 2 <= M -> 0 <= I -> I <= M - 2 ->
  a * M == 1 -> b * (M - 1) == 1 ->
  a - U * a <= st -> st <= a + U * a ->
  (1 - st) - U * (1 - st) <= dl -> dl <= (1 - st) + U * (1 - st) ->
  dl * b - U * (dl * b) <= sp -> sp <= dl * b + U * (dl * b) ->
  I * sp - U * (I * sp) <= t -> t <= I * sp + U * (I * sp) ->
  (t + st) - U * (t + st) <= y -> y <= (t + st) + U * (t + st) ->
  (I + 1) * a - 16 * U <= y /\ y <= (I + 1) * a + 16 * U.
Proof.
  intros U0 U1 HM I0 I1 Ha Hb S1 S2 D1 D2 P1 P2 T1 T2 Y1 Y2.
  assert (0 < a /\ a <= 1 # 2) as [a0 a1] by (clear - HM Ha; split; nra).
  assert (0 < b /\ b <= 1) as [b0 b1] by (split; nra).
  assert (0 <= I * b /\ I * b <= 1) as [r0 r1] by (split; nra).
  assert (b * (1 - a) == a) as Hba by nra.
  (* start *)
  destruct (rel_abs U a st 1 U0 ltac:(lra) ltac:(lra) S1 S2) as [S1' S2'].
  assert (0 <= st) as s0 by (clear - S1 a0 U0 U1; nra).
  (* delta *)
  destruct (rel_abs U (1 - st) dl 1 U0 ltac:(lra) ltac:(lra) D1 D2) as [D1' D2'].
  assert (0 <= dl) as d0 by (clear - D1 S2' a1 U0 U1; nra).
  (* step, against dl * b *)
  set (X := dl * b) in *.
  assert (0 <= X /\ X <= dl) as [x0 x1] by (clear - d0 b0 b1; unfold X; split; nra).
  assert (0 <= sp) as p0 by (clear - P1 x0 U0 U1; nra).
  (* I * sp against I * X, and I * X is r * dl *)
  assert (I * X - U * (I * X) <= I * sp /\ I * sp <= I * X + U * (I * X)) as [q1 q2].
  { clear - P1 P2 I0. split; nra. }
  assert (I * X == (I * b) * dl) as HIX by (unfold X; ring).
  set (r := I * b) in *. set (W := I * X) in *.
  assert (0 <= W /\ W <= dl) as [w0 w1] by (clear - HIX r0 r1 d0; split; nra).
  destruct (rel_abs U W (I * sp) 2 U0 w0 ltac:(lra) q1 q2) as [q1' q2'].
  set (V := I * sp) in *.
  assert (0 <= V) as v0 by (clear - q1 w0 U0 U1; nra).
  destruct (rel_abs U V t 2 U0 v0 ltac:(lra) T1 T2) as [T1' T2'].
  assert (0 <= t) as t0 by (clear - T1 v0 U0 U1; nra).
  destruct (rel_abs U (t + st) y 4 U0 ltac:(lra) ltac:(lra) Y1 Y2) as [Y1' Y2'].
  (* r * dl against r * (1 - a) + ... *)
  assert (r * (1 - a) - 2 * U <= W /\ W <= r * (1 - a) + 2 * U) as [g1 g2].
  { assert (1 - a - 2 * U <= dl /\ dl <= 1 - a + 2 * U) as [h1 h2] by (split; lra).
    assert (r * (1 - a - 2 * U) <= r * dl) as h3 by (clear - h1 r0; nra).
    assert (r * dl <= r * (1 - a + 2 * U)) as h4 by (clear - h2 r0; nra).
    assert (r * U <= U) as h5 by (clear - r1 U0; nra).
    clear - h3 h4 h5 HIX. split; lra. }
  assert (r * (1 - a) + a == (I + 1) * a) as Hexact.
  { unfold r. assert (I * b * (1 - a) == I * (b * (1 - a))) as h9 by ring.
    rewrite h9, Hba. ring. }
  clear - g1 g2 Hexact Y1' Y2' T1' T2' q1' q2' S1' S2' U0. split; lra.
Qed.

Lemma div64_Fin a b : ~ b == 0 -> div64 (Fin a) (Fin b) = round64 (a / b).
Proof.
  intros H. unfold div64, fdiv. destruct (Qeq_bool b 0) eqn:E; [|reflexivity].
  apply Qeq_bool_iff in E. contradiction.
Qed.

Lemma of_Z64_exact z :
  (0 <= z < 2 ^ 53)%Z -> exists v, of_Z64 z = Fin v /\ v == inject_Z z.
Proof.
  intros [H0 H1]. unfold of_Z64. destruct (Z.eq_dec z 0%Z) as [->|Hz].
  - exists 0. split; reflexivity.
  - apply round64_int; [reflexivity | lia].
Qed.

(** One height of [np.linspace(1/m, 1, m)] before the last: the value
    that float64 gives, and how far it is from [(i + 1) / m]. *)
Lemma linspace64_height (m i : nat) :
  (2 <= m)%nat -> (Z.of_nat m <= 2 ^ 40)%Z -> (i + 2 <= m)%nat ->
  exists st y,
    div64 (Fin 1) (of_nat64 m) = Fin st
    /\ linspace64 (Fin st) (Fin 1) m !! i = Some (Fin y)
    /\ linspace64 (Fin st) (Fin 1) m !! (m - 1)%nat = Some (Fin 1)
    /\ length (linspace64 (Fin st) (Fin 1) m) = m
    /\ inject_Z (Z.of_nat i + 1) / inject_Z (Z.of_nat m) - (1 # 562949953421312) <= y
    /\ y <= inject_Z (Z.of_nat i + 1) / inject_Z (Z.of_nat m) + (1 # 562949953421312).
Proof.
  intros Hm2 Hm32 Hi.
  assert (0 <= U) as U0 by (unfold unit_roundoff; lra).
  assert (U <= 1 # 1000) as U1 by (unfold unit_roundoff; lra).
  assert (16 * U <= 1 # 562949953421312) as UF by (unfold unit_roundoff; lra).
  set (M := inject_Z (Z.of_nat m)). set (I := inject_Z (Z.of_nat i)).
  assert (2 <= M) as HM by (unfold M; change 2 with (inject_Z 2); rewrite <- Zle_Qle; lia).
  assert (M <= 1099511627776) as HM'
      by (unfold M; change 1099511627776 with (inject_Z (2 ^ 40)); rewrite <- Zle_Qle; lia).
  assert (0 <= I) as I0 by (unfold I; change 0 with (inject_Z 0); rewrite <- Zle_Qle; lia).
  assert (I <= M - 2) as I1.
  { unfold I, M. change 2 with (inject_Z 2). unfold Qminus.
    rewrite <- inject_Z_opp, <- inject_Z_plus, <- Zle_Qle. lia. }
  set (a := 1 / M). set (b := 1 / (M - 1)).
  assert (a * M == 1) as Ha by (unfold a; field; lra).
  assert (b * (M - 1) == 1) as Hb by (unfold b; field; lra).
  assert (1 # 1099511627776 <= a /\ a <= 1 # 2) as [a0 a1].
  { unfold a. split; [apply Qle_shift_div_l | apply Qle_shift_div_r]; lra. }
  assert (1 # 1099511627776 <= b /\ b <= 1) as [b0 b1].
  { unfold b. split; [apply Qle_shift_div_l | apply Qle_shift_div_r]; lra. }
  (* 1./m *)
  destruct (of_Z64_exact (Z.of_nat m) ltac:(lia)) as (vm & Evm & Hvm). fold M in Hvm.
  assert (~ vm == 0) as Hvm0 by (rewrite Hvm; lra).
  assert (1 / vm == a) as Hq1 by (unfold a; rewrite Hvm; reflexivity).
  destruct (round64_rel (1 / vm)) as (st & Est & S1 & S2); [rewrite Hq1; lra | rewrite Hq1; lra |].
  rewrite Hq1 in S1, S2.
  destruct (rel_near U a st U0 U1 ltac:(lra) S1 S2) as [s0 s1].
  (* delta = 1 - start *)
  destruct (round64_rel (1 + - st)) as (dl & Edl & D1 & D2); [lra | lra |].
  destruct (rel_near U (1 + - st) dl U0 U1 ltac:(lra) D1 D2) as [d0 d1].
  (* step = delta / div *)
  destruct (of_Z64_exact (Z.of_nat m - 1) ltac:(lia)) as (vd & Evd & Hvd).
  assert (vd == M - 1) as Hvd'.
  { rewrite Hvd. unfold M, Z.sub. rewrite inject_Z_plus. reflexivity. }
  assert (~ vd == 0) as Hvd0 by (rewrite Hvd'; lra).
  assert (dl / vd == dl * b) as Hq3 by (unfold b; rewrite Hvd'; field; lra).
  assert ((1 # 8) * (1 # 1099511627776) <= dl * b) as x0
      by (apply Qmult_le_compat_nonneg; split; lra).
  assert (dl * b <= (1001 # 1000) * 1) as x1
      by (apply Qmult_le_compat_nonneg; split; lra).
  destruct (round64_rel (dl / vd)) as (sp & Esp & P1 & P2); [rewrite Hq3; lra | rewrite Hq3; lra |].
  rewrite Hq3 in P1, P2.
  destruct (rel_near U (dl * b) sp U0 U1 ltac:(lra) P1 P2) as [p0 p1].
  (* i * step *)
  destruct (of_Z64_exact (Z.of_nat i) ltac:(lia)) as (vi & Evi & Hvi). fold I in Hvi.
  assert (0 <= I * sp) as HIs0 by (apply Qmult_le_0_compat; lra).
  assert (I * sp <= 2) as HIs.
  { assert (I * b <= (M - 2) * b) as r1 by (apply Qmult_le_compat_r; lra).
    assert (I * b <= 1) as r2 by lra.
    assert (0 <= I * b) as r3 by (apply Qmult_le_0_compat; lra).
    assert (I * sp <= I * ((1001 # 1000) * (dl * b))) as h1
        by (apply Qmult_le_compat_nonneg; split; lra).
    assert ((I * b) * dl <= 1 * (1001 # 1000)) as h3
        by (apply Qmult_le_compat_nonneg; split; lra).
    lra. }
  assert (exists t, mul64 (Fin vi) (Fin sp) = Fin t
                    /\ I * sp - U * (I * sp) <= t /\ t <= I * sp + U * (I * sp)) as (t & Et & T1 & T2).
  { unfold mul64, fmul, round. destruct (Z.eq_dec (Z.of_nat i) 0%Z) as [Ei|Ei].
    - assert (I == 0) as HI0 by (unfold I; rewrite Ei; reflexivity).
      exists 0. split; [apply round64_zero; rewrite Hvi, HI0; ring|].
      rewrite HI0. split; lra.
    - assert (1 <= I) as HI1 by (unfold I; change 1 with (inject_Z 1); rewrite <- Zle_Qle; lia).
      assert (vi * sp == I * sp) as Hq4 by (rewrite Hvi; reflexivity).
      assert (1 * sp <= I * sp) as h by (apply Qmult_le_compat_r; lra).
      destruct (round64_rel (vi * sp)) as (t & Et & T1 & T2);
        [rewrite Hq4; lra | rewrite Hq4; lra |].
      rewrite Hq4 in T1, T2. exists t. split; [exact Et | split; assumption]. }
  destruct (rel_near U (I * sp) t U0 U1 HIs0 T1 T2) as [t0 t1].
  (* + start *)
  destruct (round64_rel (t + st)) as (y & Ey & Y1 & Y2); [lra | lra |].
  (* the list *)
  exists st, y. split; [unfold of_nat64; rewrite Evm, div64_Fin by exact Hvm0; exact Est|].
  assert (sub64 (Fin 1) (Fin st) = Fin dl) as Hdelta by exact Edl.
  assert (div64 (Fin dl) (of_Z64 (Z.of_nat m - 1)) = Fin sp) as Hstep
      by (rewrite Evd, div64_Fin by exact Hvd0; exact Esp).
  assert (feqb (Fin sp) (Fin 0) = false) as Hnz.
  { cbn [feqb]. destruct (Qeq_bool sp 0) eqn:E; [|reflexivity].
    apply Qeq_bool_iff in E. lra. }
  assert (linspace64 (Fin st) (Fin 1) m
          = <[(m - 1)%nat := Fin 1]>
              (map (fun v => add64 v (Fin st))
                   (map (fun v => mul64 v (Fin sp)) (map of_nat64 (seq 0 m))))) as Hlin.
  { unfold linspace64. cbv zeta. rewrite Hdelta.
    destruct (Z.ltb_spec 0 (Z.of_nat m - 1)) as [_|?]; [|lia].
    rewrite Hstep, Hnz.
    destruct (Nat.ltb_spec 1 m) as [_|?]; [reflexivity | lia]. }
  rewrite Hlin.
  split.
  { rewrite list_lookup_insert_ne by lia.
    rewrite !list_lookup_fmap, lookup_seq_lt by lia. cbn [fmap option_fmap option_map Nat.add].
    unfold of_nat64. rewrite Evi, Et. f_equal. exact Ey. }
  split.
  { apply list_lookup_insert_eq. rewrite !length_map, length_seq. lia. }
  split.
  { rewrite length_insert, !length_map, length_seq. reflexivity. }
  assert (inject_Z (Z.of_nat i + 1) / M == (I + 1) * a) as Hgoal.
  { rewrite inject_Z_plus. fold I. unfold a. field. lra. }
  rewrite Hgoal.
  destruct (linspace_error U M I a b st dl sp t y U0 U1 HM I0 I1 Ha Hb S1 S2 D1 D2 P1 P2 T1 T2 Y1 Y2)
    as [G1 G2].
  split; lra.
Qed.

End Heights64.

Section Cdf64.

Local Open Scope Q_scope.

(** The heights that [cdf_getter] stores, in float64: 0, then
    [np.linspace(1/m, 1, m)].  The first is 0 and the last is 1, exactly;
    the one at [c] is within 2^-49 of [c / m]. *)
Lemma heights64_lookup (m c : nat) :
  (1 <= m)%nat -> (Z.of_nat m <= 2 ^ 40)%Z -> (c <= m)%nat ->
  exists v,
    (Fin 0 :: linspace64 (div64 (Fin 1) (of_nat64 m)) (Fin 1) m) !! c = Some (Fin v)
    /\ cdf_value c m - (1 # 562949953421312) <= v
    /\ v <= cdf_value c m + (1 # 562949953421312)
    /\ (c = O -> v == 0) /\ (c = m -> v == 1).
Proof.
  intros Hm1 Hm Hc. destruct c as [|i].
  - exists 0. split; [reflexivity|].
    assert (cdf_value 0 m == 0) as E by (unfold cdf_value, Qeq; simpl; reflexivity).
    rewrite E. split; [lra|]. split; [lra|]. split; [reflexivity | intros <-; lia].
  - change ((Fin 0 :: ?l) !! S i) with (l !! i).
    pose proof (cdf_value_full m ltac:(lia)) as Hfull.
    destruct (Nat.eq_dec m 1%nat) as [->|Hne].
    + assert (i = 0%nat) as -> by lia.
      eexists. split; [vm_compute; reflexivity|].
      rewrite Hfull. split; [vm_compute; discriminate|]. split; [vm_compute; discriminate|].
      split; [discriminate | intros _; reflexivity].
    + destruct (Nat.eq_dec (S i) m) as [E|E].
      * destruct (linspace64_height m 0%nat ltac:(lia) Hm ltac:(lia))
          as (st & y & Est & _ & Hlast & _).
        rewrite Est. exists 1.
        split; [replace i with (m - 1)%nat by lia; exact Hlast|]. rewrite E, Hfull.
        split; [lra|]. split; [lra|]. split; [intros ?; lia | intros _; reflexivity].
      * destruct (linspace64_height m i ltac:(lia) Hm ltac:(lia))
          as (st & y & Est & Hy & _ & _ & Y1 & Y2).
        rewrite Est. exists y. split; [exact Hy|].
        rewrite (cdf_value_div (S i) m) by lia.
        rewrite Nat2Z.inj_succ. unfold Z.succ.
        split; [exact Y1|]. split; [exact Y2|]. split; [discriminate | intros ?; contradiction].
Qed.

(** What the function that [cdf_getter64] returns computes. *)
Lemma cdf_getter64_eval xs :
  xs <> [] -> (Z.of_nat (length xs) <= 2 ^ 40)%Z ->
  exists F, cdf_getter64 (map Fin xs) = Ok F
    /\ forall z,
         F (Fin z)
         = getitem (Fin 0 :: linspace64 (div64 (Fin 1) (of_nat64 (length xs))) (Fin 1) (length xs))
                   (Z.of_nat (count_le xs z))
         /\ exists v, F (Fin z) = Ok (Fin v)
              /\ cdf_value (count_le xs z) (length xs) - (1 # 562949953421312) <= v
              /\ v <= cdf_value (count_le xs z) (length xs) + (1 # 562949953421312)
              /\ (count_le xs z = O -> v == 0)
              /\ (count_le xs z = length xs -> v == 1).
Proof.
  intros Hne Hm. assert (0 < length xs)%nat as Hm0 by (destruct xs; [congruence|simpl; lia]).
  unfold cdf_getter64. rewrite sort_length, length_map.
  destruct (Nat.eqb_spec (length xs) 0) as [E|_]; [lia|].
  eexists. split; [reflexivity|]. intros z. cbv beta.
  change (searchsorted_right (NInf :: sort (map Fin xs)) (Fin z))
    with (S (searchsorted_right (sort (map Fin xs)) (Fin z))).
  rewrite searchsorted_right_count by apply sort_sorted.
  rewrite count_leb_sort, count_leb_Fin.
  replace (Z.of_nat (S (count_le xs z)) - 1)%Z with (Z.of_nat (count_le xs z)) by lia.
  split; [reflexivity|].
  destruct (heights64_lookup (length xs) (count_le xs z) ltac:(lia) Hm (count_le_bound xs z))
    as (v & Hv & B1 & B2 & B3 & B4).
  exists v. split; [apply getitem_nat; exact Hv|]. repeat split; assumption.
Qed.

End Cdf64.

(** C6, as amended.  The heights of the step function are the float64
    numbers that [np.linspace(1/m, 1, m)] computes, not the quotients
    themselves.  For a non-empty sample of [m <= 2^40] numbers,
    [cdf_getter], with its heights rounded as float64 rounds them
    ([cdf_getter64]), returns a function [F] that answers every query [z] with a
    number within 2^-49 of (the number of sample points that are at most
    [z]) / [m]; [F] is exactly 0 below the smallest sample point, exactly 1
    from the largest on, and non-decreasing.  On the sample 0.1, 0.5, 0.9 it
    gives 0 at 0.05, 1 at 1.0, and at 0.5 the float64 next above the
    float64 2/3. *)
Theorem cdf_getter_float_step_function :
  (forall xs : list Q, xs <> [] -> Z.of_nat (length xs) <= 2 ^ 40 ->
     exists F, cdf_getter64 (map Fin xs) = Ok F
       /\ (forall z, exists v, F (Fin z) = Ok (Fin v)
             /\ (cdf_value (count_le xs z) (length xs) - (1 # 562949953421312) <= v)%Q
             /\ (v <= cdf_value (count_le xs z) (length xs) + (1 # 562949953421312))%Q)
       /\ (forall z, (forall x, In x xs -> (z < x)%Q) ->
                     exists v, F (Fin z) = Ok (Fin v) /\ (v == 0)%Q)
       /\ (forall z, (forall x, In x xs -> (x <= z)%Q) ->
                     exists v, F (Fin z) = Ok (Fin v) /\ (v == 1)%Q)
       /\ (forall z z' v v', (z <= z')%Q -> F (Fin z) = Ok (Fin v) -> F (Fin z') = Ok (Fin v') ->
                             (v <= v')%Q))
  /\ (exists F, cdf_getter64 [round64 (1 # 10); round64 (5 # 10); round64 (9 # 10)] = Ok F
       /\ (exists v, F (round64 (5 # 100)) = Ok (Fin v) /\ (v == 0)%Q)
       /\ (exists v, F (round64 1) = Ok (Fin v) /\ (v == 1)%Q)
       /\ (exists v w, F (round64 (5 # 10)) = Ok (Fin v) /\ round64 (2 # 3) = Fin w
                       /\ (v == w + (1 # 9007199254740992))%Q)).
Proof.
  split.
  - intros xs Hne Hm. destruct (cdf_getter64_eval xs Hne Hm) as (F & HF & Hv).
    assert (0 < length xs)%nat as Hm0 by (destruct xs; [congruence|simpl; lia]).
    exists F. split; [exact HF|]. split; [|split; [|split]].
    + intros z. destruct (Hv z) as (_ & v & E & B1 & B2 & _). exists v. auto.
    + intros z Hz. destruct (Hv z) as (_ & v & E & _ & _ & B3 & _). exists v.
      split; [exact E | apply B3, count_le_below; exact Hz].
    + intros z Hz. destruct (Hv z) as (_ & v & E & _ & _ & _ & B4). exists v.
      split; [exact E | apply B4, count_le_all; exact Hz].
    + intros z z' v v' Hz E E'.
      destruct (Hv z) as (G & w & Ew & B1 & B2 & _).
      destruct (Hv z') as (G' & w' & Ew' & B1' & B2' & _).
      rewrite E in Ew. rewrite E' in Ew'. injection Ew as <-. injection Ew' as <-.
      pose proof (count_le_mono xs z z' Hz) as Hc.
      destruct (Nat.eq_dec (count_le xs z) (count_le xs z')) as [Ec|Ec].
      * rewrite G, Ec, <- G', E' in E. injection E as ->. apply Qle_refl.
      * assert (Z.of_nat (count_le xs z) + 1 <= Z.of_nat (count_le xs z')) as Hlt by lia.
        rewrite (cdf_value_div _ _ Hm0) in B2. rewrite (cdf_value_div _ _ Hm0) in B1'.
        set (M := inject_Z (Z.of_nat (length xs))) in *.
        assert (1 <= M)%Q as HM1
            by (unfold M; change 1%Q with (inject_Z 1); rewrite <- Zle_Qle; lia).
        assert (M <= 1099511627776)%Q as HM2
            by (unfold M; change 1099511627776%Q with (inject_Z (2 ^ 40)); rewrite <- Zle_Qle; lia).
        assert (inject_Z (Z.of_nat (count_le xs z)) + 1
                <= inject_Z (Z.of_nat (count_le xs z')))%Q as Hlt'.
        { change 1%Q with (inject_Z 1). rewrite <- inject_Z_plus, <- Zle_Qle. exact Hlt. }
        set (c := inject_Z (Z.of_nat (count_le xs z))) in *.
        set (c' := inject_Z (Z.of_nat (count_le xs z'))) in *.
        assert ((1 # 1099511627776) <= 1 / M)%Q as Ha by (apply Qle_shift_div_l; lra).
        assert (c / M + 1 / M <= c' / M)%Q as Hd.
        { assert (c / M + 1 / M == (c + 1) / M)%Q as -> by (field; lra).
          unfold Qdiv. apply Qmult_le_compat_r; [exact Hlt'|].
          apply Qlt_le_weak, Qinv_lt_0_compat. lra. }
        lra.
  - eexists. split; [reflexivity|].
    split; [eexists; split; [vm_compute; reflexivity | reflexivity]|].
    split; [eexists; split; [vm_compute; reflexivity | reflexivity]|].
    eexists. eexists. split; [vm_compute; reflexivity|].
    split; [vm_compute; reflexivity|]. vm_compute. reflexivity.
Qed.

Lemma cdf_getter_float_step_function_witness :
  [1 # 10; 5 # 10; 9 # 10]%Q <> [] /\ Z.of_nat (length [1 # 10; 5 # 10; 9 # 10]%Q) <= 2 ^ 40
  /\ exists F, cdf_getter64 (map Fin [1 # 10; 5 # 10; 9 # 10]%Q) = Ok F
       /\ (forall z, exists v, F (Fin z) = Ok (Fin v)
              /\ (cdf_value (count_le [1 # 10; 5 # 10; 9 # 10]%Q z) 3 - (1 # 562949953421312) <= v)%Q
              /\ (v <= cdf_value (count_le [1 # 10; 5 # 10; 9 # 10]%Q z) 3 + (1 # 562949953421312))%Q).
Proof.
  assert ([1 # 10; 5 # 10; 9 # 10]%Q <> []) as Hne by discriminate.
  assert (Z.of_nat (length [1 # 10; 5 # 10; 9 # 10]%Q) <= 2 ^ 40) as Hm by (simpl; lia).
  split; [exact Hne|]. split; [exact Hm|].
  destruct cdf_getter_float_step_function as [H _].
  destruct (H _ Hne Hm) as (F & HF & Hv & _).
  exists F. split; [exact HF | exact Hv].
Defined.

(** The spec's test [build_cdf(x)(0.5) == 2/3] fails on the sample
    0.1, 0.5, 0.9: the value is neither the rational 2/3 nor the float64
    2/3, but the float64 after it. *)
Lemma cdf_getter_not_two_thirds :
  exists F v,
    cdf_getter64 [round64 (1 # 10); round64 (5 # 10); round64 (9 # 10)] = Ok F
    /\ F (round64 (5 # 10)) = Ok (Fin v)
    /\ ~ (v == 2 # 3)%Q
    /\ ~ feq (Fin v) (round64 (2 # 3))
    /\ (v == 6004799503160662 # 9007199254740992)%Q.
Proof.
  eexists. eexists. split; [reflexivity|]. split; [vm_compute; reflexivity|].
  split; [vm_compute; discriminate|]. split; [vm_compute; discriminate|].
  vm_compute. reflexivity.
Qed.
